(** * carrot: variable-topology networks and their population manager

    A shallow embedding of [src/architecture/network.js] (the [Network]
    genome and the [Neat] population manager that the same file carries).

    Conventions of the embedding.
    - JavaScript numbers are rationals ([Q]); every [Math.random()] call
      reads one entry of an explicit stream [rnd : nat -> Q] whose entries
      lie in [0, 1).
    - Objects with identity ([Node], [Connection]) live in a store owned by
      the network and are referred to by their addresses ([nid], [cid]),
      so that aliasing between [nodes], [connections], [gates] and the
      per-node adjacency lists is the one of the source.
    - A thrown [Error] or [TypeError] is the [Throw] result. *)

From Stdlib Require Import ZArith QArith Qround Qabs Qpower String List Lia Permutation Sorted.
From stdpp Require Import base option list gmap.

Local Open Scope Z_scope.

(** ** Results of calls that may throw *)

Inductive result (A : Type) : Type :=
| Ok (a : A)
| Throw (msg : string).
Arguments Ok {A} a.
Arguments Throw {A} msg.

Definition rbind {A B} (r : result A) (f : A -> result B) : result B :=
  match r with
  | Ok a => f a
  | Throw m => Throw m
  end.

Global Instance result_bind : MBind result := fun A B f r => rbind r f.
Global Instance result_ret : MRet result := fun A a => Ok a.

Definition is_ok {A} (r : result A) : bool :=
  match r with Ok _ => true | Throw _ => false end.

Definition throws {A} (r : result A) : Prop :=
  exists m, r = Throw m.

(** ** Numbers and the random source *)

(** [Math.floor(r * n)] as an array index. *)
Definition random_index (r : Q) (n : nat) : nat :=
  Z.to_nat (Qfloor (r * inject_Z (Z.of_nat n))).


(** The stream seen by a callee that starts reading after [n] draws. *)
Definition rnd_drop (n : nat) (rnd : nat -> Q) : nat -> Q :=
  fun k => rnd (n + k)%nat.

(** ** Array helpers with the behaviour of the JavaScript built-ins *)

(** [array.indexOf(x)]: the first position of [x], [None] for [-1]. *)
Fixpoint indexOf {A} `{EqDecision A} (x : A) (l : list A) : option nat :=
  match l with
  | [] => None
  | y :: l' => if decide (x = y) then Some 0%nat else S <$> indexOf x l'
  end.

(** The position of the first element satisfying [p]. *)
Fixpoint find_index {A} (p : A -> bool) (l : list A) : option nat :=
  match l with
  | [] => None
  | y :: l' => if p y then Some 0%nat else S <$> find_index p l'
  end.

(** [array.splice(start, 0, x)]: a negative [start] counts from the end,
    and the position is clamped to the array. *)
Definition splice_insert {A} (start : Z) (x : A) (l : list A) : list A :=
  let len := Z.of_nat (length l) in
  let pos := if start <? 0 then Z.max (len + start) 0 else Z.min start len in
  take (Z.to_nat pos) l ++ x :: drop (Z.to_nat pos) l.

(** [array.splice(i, 1)] for [i >= 0] is stdpp's [delete i]. *)

(** Removal of the first occurrence of an object from an array. *)
Definition remove_first {A} `{EqDecision A} (x : A) (l : list A) : list A :=
  match indexOf x l with
  | Some i => delete i l
  | None => l
  end.

(** ** Data model *)

(** Addresses of [Node] and of [Connection] objects in the store. *)
Abbreviation nid := nat (only parsing).
Abbreviation cid := nat (only parsing).

Inductive NodeType := Input | Hidden | Output | Constant.

Global Instance NodeType_eq_dec : EqDecision NodeType.
Proof. solve_decision. Defined.

(** The names of the squash registry, in the order of the table that
    [serialize] indexes. *)
Inductive Squash :=
| LOGISTIC | TANH | IDENTITY | STEP | RELU | SOFTSIGN | SINUSOID
| GAUSSIAN | BENT_IDENTITY | BIPOLAR | BIPOLAR_SIGMOID | HARD_TANH
| ABSOLUTE | INVERSE | SELU.

Global Instance Squash_eq_dec : EqDecision Squash.
Proof. solve_decision. Defined.

Definition squashes : list Squash :=
  [LOGISTIC; TANH; IDENTITY; STEP; RELU; SOFTSIGN; SINUSOID;
   GAUSSIAN; BENT_IDENTITY; BIPOLAR; BIPOLAR_SIGMOID; HARD_TANH;
   ABSOLUTE; INVERSE; SELU].

(** A [Connection] object. [gater = None] is JavaScript's [null]. *)
Record Connection := mkConnection {
  from : nid;
  to : nid;
  weight : Q;
  gater : option nid
}.

(** A [Node] object. [conn_in], [conn_out], [conn_gated] and [conn_self]
    are [connections.in], [.out], [.gated] and [.self]; [index] is the
    position cache that [serialize] and [cross_over] write. The traces that
    only [propagate] reads are left out. *)
Record Node := mkNode {
  type : NodeType;
  bias : Q;
  squash : Squash;
  activation : Q;
  state : Q;
  mask : Q;
  index : option nat;
  conn_in : list cid;
  conn_out : list cid;
  conn_gated : list cid;
  conn_self : cid
}.

Global Instance Connection_inhabited : Inhabited Connection :=
  populate (mkConnection 0%nat 0%nat 0%Q None).
Global Instance Node_inhabited : Inhabited Node :=
  populate (mkNode Hidden 0%Q LOGISTIC 0%Q 0%Q 1%Q None [] [] [] 0%nat).

(** A [Network] object together with the objects it owns. [input] and
    [output] are the backward-compatibility copies of the two sizes. *)
Record Network := mkNetwork {
  input_size : Z;
  output_size : Z;
  input : Z;
  output : Z;
  nodes : list nid;
  connections : list cid;
  gates : list cid;
  selfconns : list cid;
  dropout : Q;
  score : option Q;
  node_store : gmap nid Node;
  conn_store : gmap cid Connection;
  next_node : nid;
  next_conn : cid
}.

(** Field updates ([x.f = v]). *)

Definition set_weight (v : Q) (c : Connection) : Connection :=
  mkConnection (from c) (to c) v (gater c).

Definition set_gater (v : option nid) (c : Connection) : Connection :=
  mkConnection (from c) (to c) (weight c) v.

Definition set_type (v : NodeType) (n : Node) : Node :=
  mkNode v (bias n) (squash n) (activation n) (state n) (mask n) (index n) (conn_in n) (conn_out n) (conn_gated n) (conn_self n).

Definition set_bias (v : Q) (n : Node) : Node :=
  mkNode (type n) v (squash n) (activation n) (state n) (mask n) (index n) (conn_in n) (conn_out n) (conn_gated n) (conn_self n).

Definition set_squash (v : Squash) (n : Node) : Node :=
  mkNode (type n) (bias n) v (activation n) (state n) (mask n) (index n) (conn_in n) (conn_out n) (conn_gated n) (conn_self n).

Definition set_activation (v : Q) (n : Node) : Node :=
  mkNode (type n) (bias n) (squash n) v (state n) (mask n) (index n) (conn_in n) (conn_out n) (conn_gated n) (conn_self n).

Definition set_state (v : Q) (n : Node) : Node :=
  mkNode (type n) (bias n) (squash n) (activation n) v (mask n) (index n) (conn_in n) (conn_out n) (conn_gated n) (conn_self n).

Definition set_mask (v : Q) (n : Node) : Node :=
  mkNode (type n) (bias n) (squash n) (activation n) (state n) v (index n) (conn_in n) (conn_out n) (conn_gated n) (conn_self n).

Definition set_index (v : option nat) (n : Node) : Node :=
  mkNode (type n) (bias n) (squash n) (activation n) (state n) (mask n) v (conn_in n) (conn_out n) (conn_gated n) (conn_self n).

Definition set_conn_in (v : list cid) (n : Node) : Node :=
  mkNode (type n) (bias n) (squash n) (activation n) (state n) (mask n) (index n) v (conn_out n) (conn_gated n) (conn_self n).

Definition set_conn_out (v : list cid) (n : Node) : Node :=
  mkNode (type n) (bias n) (squash n) (activation n) (state n) (mask n) (index n) (conn_in n) v (conn_gated n) (conn_self n).

Definition set_conn_gated (v : list cid) (n : Node) : Node :=
  mkNode (type n) (bias n) (squash n) (activation n) (state n) (mask n) (index n) (conn_in n) (conn_out n) v (conn_self n).

Definition set_nodes (v : list nid) (net : Network) : Network :=
  mkNetwork (input_size net) (output_size net) (input net) (output net) v (connections net) (gates net) (selfconns net) (dropout net) (score net) (node_store net) (conn_store net) (next_node net) (next_conn net).

Definition set_connections (v : list cid) (net : Network) : Network :=
  mkNetwork (input_size net) (output_size net) (input net) (output net) (nodes net) v (gates net) (selfconns net) (dropout net) (score net) (node_store net) (conn_store net) (next_node net) (next_conn net).

Definition set_gates (v : list cid) (net : Network) : Network :=
  mkNetwork (input_size net) (output_size net) (input net) (output net) (nodes net) (connections net) v (selfconns net) (dropout net) (score net) (node_store net) (conn_store net) (next_node net) (next_conn net).

Definition set_selfconns (v : list cid) (net : Network) : Network :=
  mkNetwork (input_size net) (output_size net) (input net) (output net) (nodes net) (connections net) (gates net) v (dropout net) (score net) (node_store net) (conn_store net) (next_node net) (next_conn net).

Definition set_dropout (v : Q) (net : Network) : Network :=
  mkNetwork (input_size net) (output_size net) (input net) (output net) (nodes net) (connections net) (gates net) (selfconns net) v (score net) (node_store net) (conn_store net) (next_node net) (next_conn net).

Definition set_score (v : option Q) (net : Network) : Network :=
  mkNetwork (input_size net) (output_size net) (input net) (output net) (nodes net) (connections net) (gates net) (selfconns net) (dropout net) v (node_store net) (conn_store net) (next_node net) (next_conn net).

Definition set_node_store (v : gmap nid Node) (net : Network) : Network :=
  mkNetwork (input_size net) (output_size net) (input net) (output net) (nodes net) (connections net) (gates net) (selfconns net) (dropout net) (score net) v (conn_store net) (next_node net) (next_conn net).

Definition set_conn_store (v : gmap cid Connection) (net : Network) : Network :=
  mkNetwork (input_size net) (output_size net) (input net) (output net) (nodes net) (connections net) (gates net) (selfconns net) (dropout net) (score net) (node_store net) v (next_node net) (next_conn net).

Definition set_next_node (v : nid) (net : Network) : Network :=
  mkNetwork (input_size net) (output_size net) (input net) (output net) (nodes net) (connections net) (gates net) (selfconns net) (dropout net) (score net) (node_store net) (conn_store net) v (next_conn net).

Definition set_next_conn (v : cid) (net : Network) : Network :=
  mkNetwork (input_size net) (output_size net) (input net) (output net) (nodes net) (connections net) (gates net) (selfconns net) (dropout net) (score net) (node_store net) (conn_store net) (next_node net) v.

(** ** The object store *)

Definition node_at (net : Network) (n : nid) : Node := node_store net !!! n.
Definition conn_at (net : Network) (c : cid) : Connection := conn_store net !!! c.

Definition upd_node (n : nid) (f : Node -> Node) (net : Network) : Network :=
  set_node_store (<[n := f (node_at net n)]> (node_store net)) net.
Definition upd_conn (c : cid) (f : Connection -> Connection) (net : Network) : Network :=
  set_conn_store (<[c := f (conn_at net c)]> (conn_store net)) net.

(** ** Node (its source file is not part of the sources at hand) *)

(** Modelled from the spec: [new Connection(from, to, weight)], ungated. *)
Definition Connection_new (nfrom nto : nid) (w : Q) (net : Network) : cid * Network :=
  let c := next_conn net in
  (c, set_next_conn (S c)
        (set_conn_store (<[c := mkConnection nfrom nto w None]> (conn_store net)) net)).

(** Modelled from the spec: [new Node(type)], absent from the sources. A
    node starts with mask 1, activation and state 0, empty adjacency lists
    and a self-connection object of weight 0 (the source tests
    [connections.self.weight === 0] for a missing self-connection). The spec
    gives no initial bias or squash; the model starts at bias 0 and the
    first squash of the registry. *)
Definition Node_new (ty : NodeType) (net : Network) : nid * Network :=
  let n := next_node net in
  let '(c, net1) := Connection_new n n 0 net in
  (n, set_next_node (S n)
        (set_node_store
           (<[n := mkNode ty 0 LOGISTIC 0 0 1 None [] [] [] c]> (node_store net1)) net1)).

(** Modelled from the spec: the weight a [Connection] gets when [connect]
    is called without one; the spec leaves it open and no property below
    reads it. *)
Definition default_weight : Q := 1.

(** Modelled from the spec: [node.isProjectingTo(target)], absent from the
    sources: a live self-connection, or an outgoing connection to [target]. *)
Definition Node_isProjectingTo (this target : nid) (net : Network) : bool :=
  (bool_decide (this = target)
     && negb (Qeq_bool (weight (conn_at net (conn_self (node_at net this)))) 0))
  || existsb (fun c => bool_decide (to (conn_at net c) = target))
       (conn_out (node_at net this)).

(** Modelled from the spec: [node.connect(target, weight)], absent from the
    sources, for a [target] that is a node. A self-connection is switched
    on by giving the node's self-connection object a non-zero weight; an
    ordinary connection is a new object entered in [target]'s incoming and
    this node's outgoing list, and a second one for the same ordered pair
    is refused. *)
Definition Node_connect (this target : nid) (w : option Q) (net : Network)
  : result (Network * list cid) :=
  if decide (this = target) then
    let c := conn_self (node_at net this) in
    if Qeq_bool (weight (conn_at net c)) 0 then
      let w' := match w with
                | Some x => if Qeq_bool x 0 then 1%Q else x
                | None => 1%Q
                end in
      Ok (upd_conn c (set_weight w') net, [c])
    else Ok (net, [c])
  else if Node_isProjectingTo this target net then
    Throw "Already projecting a connection to this node!"
  else
    let '(c, net1) := Connection_new this target (default default_weight w) net in
    let net2 := upd_node target (fun n => set_conn_in (conn_in n ++ [c]) n) net1 in
    let net3 := upd_node this (fun n => set_conn_out (conn_out n ++ [c]) n) net2 in
    Ok (net3, [c]).

(** Modelled from the spec: [node.gate(connection)] and
    [node.ungate(connection)], absent from the sources. *)
Definition Node_gate (this : nid) (c : cid) (net : Network) : Network :=
  upd_conn c (set_gater (Some this))
    (upd_node this (fun n => set_conn_gated (conn_gated n ++ [c]) n) net).

Definition Node_ungate (this : nid) (c : cid) (net : Network) : Network :=
  upd_conn c (set_gater None)
    (upd_node this (fun n => set_conn_gated (remove_first c (conn_gated n)) n) net).

(** Modelled from the spec: [node.disconnect(target)], absent from the
    sources. A self-connection is switched off (weight 0); an ordinary
    connection leaves this node's outgoing and [target]'s incoming list and
    loses its gater. *)
Definition Node_disconnect (this target : nid) (net : Network) : Network :=
  if decide (this = target) then
    upd_conn (conn_self (node_at net this)) (set_weight 0) net
  else
    let outs := conn_out (node_at net this) in
    match find_index (fun c => bool_decide (to (conn_at net c) = target)) outs with
    | None => net
    | Some i =>
        let c := default 0%nat (outs !! i) in
        let net1 := upd_node this (fun n => set_conn_out (delete i (conn_out n)) n) net in
        let net2 := upd_node target
                      (fun n => set_conn_in (remove_first c (conn_in n)) n) net1 in
        match gater (conn_at net2 c) with
        | Some g => Node_ungate g c net2
        | None => net2
        end
    end.

(** ** Network: construction and structural editing *)

(** [Network.prototype.connect], for a [to] that is a node. *)
Definition connect (nfrom nto : nid) (w : option Q) (net : Network)
  : result (Network * list cid) :=
  '(net1, cs) ← Node_connect nfrom nto w net;
  if decide (nfrom = nto)
  then Ok (set_selfconns (selfconns net1 ++ cs) net1, cs)
  else Ok (set_connections (connections net1 ++ cs) net1, cs).

(** [Network.prototype.ungate]. Reading [.ungate] off a [null] gater is a
    [TypeError]. *)
Definition ungate (c : cid) (net : Network) : result Network :=
  match indexOf c (gates net) with
  | None => Throw "This connection is not gated!"
  | Some i =>
      let net1 := set_gates (delete i (gates net)) net in
      match gater (conn_at net1 c) with
      | Some g => Ok (Node_ungate g c net1)
      | None => Throw "TypeError"
      end
  end.

(** [Network.prototype.gate]. *)
Definition gate (node : nid) (c : cid) (net : Network) : result Network :=
  match indexOf node (nodes net) with
  | None => Throw "This node is not part of the network!"
  | Some _ =>
      match gater (conn_at net c) with
      | Some _ => Ok net
      | None =>
          let net1 := Node_gate node c net in
          Ok (set_gates (gates net1 ++ [c]) net1)
      end
  end.

(** [Network.prototype.disconnect]. *)
Definition disconnect (nfrom nto : nid) (net : Network) : result Network :=
  let self := bool_decide (nfrom = nto) in
  let conns := if self then selfconns net else connections net in
  let hit c := bool_decide (from (conn_at net c) = nfrom)
               && bool_decide (to (conn_at net c) = nto) in
  net1 ← match find_index hit conns with
         | None => Ok net
         | Some i =>
             let c := default 0%nat (conns !! i) in
             net' ← match gater (conn_at net c) with
                    | Some _ => ungate c net
                    | None => Ok net
                    end;
             Ok (if self
                 then set_selfconns (delete i (selfconns net')) net'
                 else set_connections (delete i (connections net')) net')
         end;
  Ok (Node_disconnect nfrom nto net1).

(** The two loops of the constructor. *)
Definition create_nodes (net : Network) : Network :=
  fold_left
    (fun net i =>
       let ty := if Z.of_nat i <? input_size net then Input else Output in
       let '(n, net') := Node_new ty net in
       set_nodes (nodes net' ++ [n]) net')
    (seq 0 (Z.to_nat (input_size net + output_size net))) net.

Definition io_pairs (i o : Z) : list (nat * nat) :=
  a ← seq 0 (Z.to_nat i); b ← seq (Z.to_nat i) (Z.to_nat o); [(a, b)].

(** [w k] is the value the [k]-th evaluation of
    [Math.random() * input_size * Math.sqrt(2 / input_size)] yields. *)
Fixpoint connect_all (ps : list (nat * nat)) (w : nat -> Q) (k : nat)
  (net : Network) : result Network :=
  match ps with
  | [] => Ok net
  | (i, j) :: ps' =>
      match nodes net !! i, nodes net !! j with
      | Some a, Some b =>
          '(net', _) ← connect a b (Some (w k)) net;
          connect_all ps' w (S k) net'
      | _, _ => Throw "TypeError"
      end
  end.

(** [new Network(input_size, output_size)]; [None] is an argument that is
    [undefined]. *)
Definition Network_new (input_size output_size : option Z) (w : nat -> Q)
  : result Network :=
  match input_size, output_size with
  | Some i, Some o =>
      let net := create_nodes (mkNetwork i o i o [] [] [] [] 0 None ∅ ∅ 0%nat 0%nat) in
      connect_all (io_pairs i o) w 0%nat net
  | _, _ => Throw "No input or output size given"
  end.

(** [Network.prototype.clone]. *)
Definition clone (self : Network) (w : nat -> Q) : result Network :=
  Network_new (Some (input self)) (Some (output self)) w.

(** [array[i]] for a numeric index: [undefined] ([None]) outside the array. *)
Definition at_Z {A} (l : list A) (i : Z) : option A :=
  if i <? 0 then None else l !! Z.to_nat i.

(** The indices visited by [for (i = lo; i < hi; i++)]. *)
Definition zrange (lo hi : Z) : list Z :=
  map (fun k => lo + Z.of_nat k) (seq 0 (Z.to_nat (hi - lo))).

Definition zlength {A} (l : list A) : Z := Z.of_nat (length l).

(** [array.indexOf(x)] as a number. *)
Definition indexOfZ {A} `{EqDecision A} (x : A) (l : list A) : Z :=
  match indexOf x l with
  | Some i => Z.of_nat i
  | None => -1
  end.

(** [arr[Math.floor(r * arr.length)]] and lodash's [_.sample(arr)]. *)
Definition sample {A} (r : Q) (l : list A) : option A :=
  l !! random_index r (length l).

(** *** remove *)

(** [_.forEachRight(node.connections.in, ...)] of [remove]: lodash walks
    the array from its initial last index down to 0 and reads the array at
    each step, while the callback shortens it. *)
Fixpoint remove_in_loop (k : nat) (keep_gates : bool) (node : nid)
  (gs ins : list nid) (net : Network) : result (Network * (list nid * list nid)) :=
  match k with
  | O => Ok (net, (gs, ins))
  | S k' =>
      match conn_in (node_at net node) !! k' with
      | None => Throw "TypeError"
      | Some c =>
          let conn := conn_at net c in
          let gs' := match gater conn with
                     | Some g =>
                         if keep_gates && negb (bool_decide (g = node))
                         then gs ++ [g] else gs
                     | None => gs
                     end in
          net' ← disconnect (from conn) node net;
          remove_in_loop k' keep_gates node gs' (ins ++ [from conn]) net'
      end
  end.

Fixpoint remove_out_loop (k : nat) (keep_gates : bool) (node : nid)
  (gs outs : list nid) (net : Network) : result (Network * (list nid * list nid)) :=
  match k with
  | O => Ok (net, (gs, outs))
  | S k' =>
      match conn_out (node_at net node) !! k' with
      | None => Throw "TypeError"
      | Some c =>
          let conn := conn_at net c in
          let gs' := match gater conn with
                     | Some g =>
                         if keep_gates && negb (bool_decide (g = node))
                         then gs ++ [g] else gs
                     | None => gs
                     end in
          net' ← disconnect node (to conn) net;
          remove_out_loop k' keep_gates node gs' (outs ++ [to conn]) net'
      end
  end.

(** Connect every former input to every former output not yet connected. *)
Fixpoint reconnect (ps : list (nid * nid)) (created : list cid) (net : Network)
  : result (Network * list cid) :=
  match ps with
  | [] => Ok (net, created)
  | (i, o) :: ps' =>
      if Node_isProjectingTo i o net then reconnect ps' created net
      else
        '(net', cs) ← connect i o None net;
        match cs with
        | c :: _ => reconnect ps' (created ++ [c]) net'
        | [] => Throw "TypeError"
        end
  end.

(** Hand the displaced gaters to random new connections. *)
Fixpoint regate (gs : list nid) (cs : list cid) (rnd : nat -> Q) (k : nat)
  (net : Network) : result Network :=
  match gs, cs with
  | g :: gs', _ :: _ =>
      let i := random_index (rnd k) (length cs) in
      match cs !! i with
      | Some c =>
          net' ← gate g c net;
          regate gs' (delete i cs) rnd (S k) net'
      | None => Throw "TypeError"
      end
  | _, _ => Ok net
  end.

(** Ungate what the removed node gates, last entry first. *)
Fixpoint ungate_loop (k : nat) (node : nid) (net : Network) : result Network :=
  match k with
  | O => Ok net
  | S k' =>
      match conn_gated (node_at net node) !! k' with
      | Some c => net' ← ungate c net; ungate_loop k' node net'
      | None => Throw "This connection is not gated!"
      end
  end.

(** [Network.prototype.remove]; [keep_gates] is
    [mutation.SUB_NODE.keep_gates]. *)
Definition remove (keep_gates : bool) (node : nid) (rnd : nat -> Q)
  (net : Network) : result Network :=
  match indexOf node (nodes net) with
  | None => Throw "This node does not exist in the network!"
  | Some idx =>
      net1 ← disconnect node node net;
      '(net2, (gs1, inputs)) ←
        remove_in_loop (length (conn_in (node_at net1 node))) keep_gates node [] [] net1;
      '(net3, (gs2, outputs)) ←
        remove_out_loop (length (conn_out (node_at net2 node))) keep_gates node gs1 [] net2;
      '(net4, created) ←
        reconnect (i ← inputs; o ← outputs; [(i, o)]) [] net3;
      net5 ← regate gs2 created rnd 0%nat net4;
      net6 ← ungate_loop (length (conn_gated (node_at net5 node))) node net5;
      net7 ← disconnect node node net6;
      Ok (set_nodes (delete idx (nodes net7)) net7)
  end.

(** *** Mutation methods *)

(** The mutation methods of [methods.mutation] (a file outside the sources
    at hand), each with the options that [network.js] reads off it. *)
Inductive Method :=
| ADD_NODE (randomActivation : bool)
| SUB_NODE (keep_gates : bool)
| ADD_CONN
| SUB_CONN
| MOD_WEIGHT (min max : Q)
| MOD_BIAS (min max : Q)
| MOD_ACTIVATION (mutateOutput : bool)
| ADD_SELF_CONN
| SUB_SELF_CONN
| ADD_GATE
| SUB_GATE
| ADD_BACK_CONN
| SUB_BACK_CONN
| SWAP_NODES (mutateOutput : bool).

(** What [possible] returns when it does not return [false]. A pair may
    hold [undefined] as its second component. *)
Inductive Candidates :=
| CNodes (l : list nid)
| CPairs (l : list (nid * option nid))
| CConns (l : list cid).

(** [candidates.length ? candidates : false]. *)
Definition or_false {A} (l : list A) (c : list A -> Candidates) : option Candidates :=
  match l with
  | [] => None
  | _ => Some (c l)
  end.

(** The pairs [[node1, node2]] with [!node1.isProjectingTo(node2)], for the
    index pairs visited by two nested loops. *)
Fixpoint pair_candidates (ijs : list (Z * Z)) (net : Network)
  : result (list (nid * option nid)) :=
  match ijs with
  | [] => Ok []
  | (i, j) :: ijs' =>
      match at_Z (nodes net) i with
      | None => Throw "TypeError"
      | Some n1 =>
          let n2 := at_Z (nodes net) j in
          rest ← pair_candidates ijs' net;
          Ok (if match n2 with
                 | Some t => Node_isProjectingTo n1 t net
                 | None => false
                 end
              then rest else (n1, n2) :: rest)
      end
  end.

Fixpoint self_candidates (idxs : list Z) (net : Network) : result (list nid) :=
  match idxs with
  | [] => Ok []
  | i :: idxs' =>
      match at_Z (nodes net) i with
      | None => Throw "TypeError"
      | Some n =>
          rest ← self_candidates idxs' net;
          Ok (if Qeq_bool (weight (conn_at net (conn_self (node_at net n)))) 0
              then n :: rest else rest)
      end
  end.

(** The test of [SUB_CONN]; [SUB_BACK_CONN] swaps the two positions. *)
Definition removable (back : bool) (net : Network) (c : cid) : bool :=
  let conn := conn_at net c in
  let pf := indexOfZ (from conn) (nodes net) in
  let pt := indexOfZ (to conn) (nodes net) in
  (1 <? zlength (conn_out (node_at net (from conn))))
  && (1 <? zlength (conn_in (node_at net (to conn))))
  && (if back then pt <? pf else pf <? pt).

(** The filter of [SWAP_NODES] and of [MOD_ACTIVATION]. *)
Definition eligible (mutateOutput : bool) (net : Network) (n : nid) : bool :=
  let ty := type (node_at net n) in
  if mutateOutput then negb (bool_decide (ty = Input))
  else negb (bool_decide (ty = Input)) && negb (bool_decide (ty = Output)).

(** [Network.prototype.possible]. [None] is the [false] (or, for a method
    without a case, the [undefined]) that the source returns. *)
Definition possible (method : Method) (net : Network) : result (option Candidates) :=
  let len := zlength (nodes net) in
  match method with
  | SUB_NODE _ =>
      Ok (or_false
            (List.filter
               (fun n => negb (bool_decide (type (node_at net n) = Output))
                         && negb (bool_decide (type (node_at net n) = Input)))
               (nodes net)) CNodes)
  | ADD_CONN =>
      ps ← pair_candidates
             (i ← zrange 0 (len - output_size net);
              j ← zrange (Z.max (i + 1) (input_size net)) len; [(i, j)]) net;
      Ok (or_false ps CPairs)
  | SUB_CONN => Ok (or_false (List.filter (removable false net) (connections net)) CConns)
  | MOD_ACTIVATION mutateOutput =>
      Ok (if mutateOutput || (input_size net + output_size net <? len)
          then Some (CNodes []) else None)
  | ADD_SELF_CONN =>
      ns ← self_candidates (zrange (input_size net) len) net;
      Ok (or_false ns CNodes)
  | SUB_SELF_CONN =>
      Ok (if 0 <? zlength (selfconns net) then Some (CConns []) else None)
  | ADD_GATE =>
      Ok (or_false
            (List.filter (fun c => match gater (conn_at net c) with
                                   | None => true
                                   | Some _ => false
                                   end)
               (connections net ++ selfconns net)) CConns)
  | SUB_GATE =>
      Ok (if 0 <? zlength (gates net) then Some (CConns []) else None)
  | ADD_BACK_CONN =>
      ps ← pair_candidates
             (i ← zrange (input_size net) len;
              j ← zrange (input_size net) i; [(i, j)]) net;
      Ok (or_false ps CPairs)
  | SUB_BACK_CONN => Ok (or_false (List.filter (removable true net) (connections net)) CConns)
  | SWAP_NODES mutateOutput =>
      if (len - 1) - input_size net - (if mutateOutput then 0 else output_size net) <? 2
      then Ok None
      else
        let candidates := List.filter (eligible mutateOutput net) (nodes net) in
        Ok (if 2 <=? zlength candidates then Some (CNodes candidates) else None)
  | ADD_NODE _ | MOD_WEIGHT _ _ | MOD_BIAS _ _ => Ok None
  end.

(** Modelled from the spec: [node.mutate(method)], absent from the sources.
    [MOD_ACTIVATION] reassigns the squash id (here the registry entry a draw
    selects), [MOD_BIAS] perturbs the bias by a draw scaled into
    [[min, max)]. *)
Definition Node_mutate_activation (r : Q) (n : Node) : Node :=
  set_squash (default LOGISTIC (sample r squashes)) n.

Definition Node_mutate_bias (min max : Q) (r : Q) (n : Node) : Node :=
  set_bias (bias n + (r * (max - min) + min))%Q n.

(** [Math.floor(Math.random() * (nodes.length - input_size) + input_size)]. *)
Definition random_noninput (r : Q) (net : Network) : Z :=
  Qfloor (r * inject_Z (zlength (nodes net) - input_size net)
          + inject_Z (input_size net)).

(** [Network.prototype.mutate]; [None] is a [method] that is [undefined].
    [rnd] lists the results of the [Math.random()] calls made, in order. *)
Definition mutate (method : option Method) (rnd : nat -> Q) (net : Network)
  : result Network :=
  match method with
  | None => Throw "No (correct) mutate method given!"
  | Some (ADD_NODE randomActivation) =>
      match sample (rnd 0%nat) (connections net) with
      | None => Throw "TypeError"
      | Some c =>
          let a := from (conn_at net c) in
          let b := to (conn_at net c) in
          net1 ← disconnect a b net;
          let toIndex := indexOfZ b (nodes net1) in
          let '(node, net2) := Node_new Hidden net1 in
          let net3 := if randomActivation
                      then upd_node node (Node_mutate_activation (rnd 1%nat)) net2
                      else net2 in
          let minBound := Z.min toIndex (zlength (nodes net3) - output_size net3) in
          let net4 := set_nodes (splice_insert minBound node (nodes net3)) net3 in
          '(net5, cs1) ← connect a node None net4;
          '(net6, cs2) ← connect node b None net5;
          match gater (conn_at net6 c) with
          | None => Ok net6
          | Some g =>
              let r := rnd (if randomActivation then 2%nat else 1%nat) in
              match (if Qle_bool (1 # 2) r then head cs1 else head cs2) with
              | Some c' => gate g c' net6
              | None => Throw "TypeError"
              end
          end
      end
  | Some (SUB_NODE keep_gates) =>
      p ← possible (SUB_NODE keep_gates) net;
      match p with
      | Some (CNodes l) =>
          match sample (rnd 0%nat) l with
          | Some n => remove keep_gates n (rnd_drop 1 rnd) net
          | None => Throw "This node does not exist in the network!"
          end
      | _ => Ok net
      end
  | Some (ADD_CONN as m) | Some (ADD_BACK_CONN as m) =>
      p ← possible m net;
      match p with
      | Some (CPairs l) =>
          match sample (rnd 0%nat) l with
          | Some (a, Some b) => '(net', _) ← connect a b None net; Ok net'
          | _ => Throw "TypeError"
          end
      | _ => Ok net
      end
  | Some (SUB_CONN as m) | Some (SUB_BACK_CONN as m) =>
      p ← possible m net;
      match p with
      | Some (CConns l) =>
          match sample (rnd 0%nat) l with
          | Some c => disconnect (from (conn_at net c)) (to (conn_at net c)) net
          | None => Throw "TypeError"
          end
      | _ => Ok net
      end
  | Some (MOD_WEIGHT min max) =>
      match sample (rnd 0%nat) (connections net ++ selfconns net) with
      | Some c =>
          Ok (upd_conn c
                (fun cn => set_weight (weight cn + (rnd 1%nat * (max - min) + min))%Q cn)
                net)
      | None => Throw "TypeError"
      end
  | Some (MOD_BIAS min max) =>
      match at_Z (nodes net) (random_noninput (rnd 0%nat) net) with
      | Some n => Ok (upd_node n (Node_mutate_bias min max (rnd 1%nat)) net)
      | None => Throw "TypeError"
      end
  | Some (MOD_ACTIVATION mutateOutput) =>
      p ← possible (MOD_ACTIVATION mutateOutput) net;
      match p with
      | Some _ =>
          match sample (rnd 0%nat) (List.filter (eligible mutateOutput net) (nodes net)) with
          | Some n => Ok (upd_node n (Node_mutate_activation (rnd 1%nat)) net)
          | None => Throw "TypeError"
          end
      | None => Ok net
      end
  | Some ADD_SELF_CONN =>
      p ← possible ADD_SELF_CONN net;
      match p with
      | Some (CNodes l) =>
          match sample (rnd 0%nat) l with
          | Some n => '(net', _) ← connect n n None net; Ok net'
          | None => Throw "TypeError"
          end
      | _ => Ok net
      end
  | Some SUB_SELF_CONN =>
      p ← possible SUB_SELF_CONN net;
      match p with
      | Some _ =>
          match sample (rnd 0%nat) (selfconns net) with
          | Some c => disconnect (from (conn_at net c)) (to (conn_at net c)) net
          | None => Throw "TypeError"
          end
      | None => Ok net
      end
  | Some ADD_GATE =>
      p ← possible ADD_GATE net;
      match p with
      | Some (CConns l) =>
          match at_Z (nodes net) (random_noninput (rnd 0%nat) net) with
          | None => Throw "This node is not part of the network!"
          | Some n =>
              match sample (rnd 1%nat) l with
              | Some c => gate n c net
              | None => Throw "TypeError"
              end
          end
      | _ => Ok net
      end
  | Some SUB_GATE =>
      p ← possible SUB_GATE net;
      match p with
      | Some _ =>
          match sample (rnd 0%nat) (gates net) with
          | Some c => ungate c net
          | None => Throw "This connection is not gated!"
          end
      | None => Ok net
      end
  | Some (SWAP_NODES mutateOutput) =>
      p ← possible (SWAP_NODES mutateOutput) net;
      match p with
      | Some (CNodes l) =>
          match sample (rnd 0%nat) l with
          | None => Throw "TypeError"
          | Some node1 =>
              let possible2 := List.filter (fun n => negb (bool_decide (n = node1))) l in
              match sample (rnd 1%nat) possible2 with
              | None => Throw "TypeError"
              | Some node2 =>
                  let biasTemp := bias (node_at net node1) in
                  let squashTemp := squash (node_at net node1) in
                  let net1 := upd_node node1
                                (fun n => set_squash (squash (node_at net node2))
                                            (set_bias (bias (node_at net node2)) n)) net in
                  Ok (upd_node node2
                        (fun n => set_squash squashTemp (set_bias biasTemp n)) net1)
              end
          end
      | _ => Ok net
      end
  end.

(** ** Activation *)

Section Activation.

(** The registry of squash functions, selected by id. *)
Variable F : Squash -> Q -> Q.

(** The factor a gater contributes: its activation, 1 without a gater. *)
Definition gain (net : Network) (c : Connection) : Q :=
  match gater c with
  | Some g => activation (node_at net g)
  | None => 1
  end.

(** Modelled from the spec: [node.activate(input)], absent from the sources.
    With an argument the node takes it as its activation; without one (or
    with [undefined]) it recomputes its state from its bias, its incoming
    connections and its self-connection, and squashes it. *)
Definition Node_activate (v : option Q) (n : nid) (net : Network) : Network * Q :=
  match v with
  | Some x => (upd_node n (set_activation x) net, x)
  | None =>
      let node := node_at net n in
      let self := conn_at net (conn_self node) in
      let incoming :=
        fold_left
          (fun acc c =>
             let conn := conn_at net c in
             (acc + weight conn * activation (node_at net (from conn)) * gain net conn)%Q)
          (conn_in node) 0%Q in
      let s := (bias node + incoming + weight self * state node * gain net self)%Q in
      let a := (F (squash node) s * mask node)%Q in
      (upd_node n (fun nd => set_activation a (set_state s nd)) net, a)
  end.

(** The body of the [forEach] of [activate], from position [node_index] on;
    [k] counts the dropout draws made so far. [input = None] is an
    [undefined] argument, whose indexing is a [TypeError]. *)
Fixpoint activate_from (ns : list nid) (node_index : nat) (input : option (list Q))
  (training : bool) (rnd : nat -> Q) (k : nat) (out : list Q) (net : Network)
  : result (Network * list Q) :=
  match ns with
  | [] => Ok (net, out)
  | n :: ns' =>
      match type (node_at net n) with
      | Input =>
          match input with
          | None => Throw "TypeError"
          | Some arr =>
              let '(net', _) := Node_activate (arr !! node_index) n net in
              activate_from ns' (S node_index) input training rnd k out net'
          end
      | Output =>
          let '(net', a) := Node_activate None n net in
          activate_from ns' (S node_index) input training rnd k (out ++ [a]) net'
      | _ =>
          let net1 :=
            if training
            then upd_node n
                   (set_mask (if Qlt_le_dec (rnd k) (dropout net) then 0%Q else 1%Q)) net
            else net in
          let '(net', _) := Node_activate None n net1 in
          activate_from ns' (S node_index) input training rnd
            (if training then S k else k) out net'
      end
  end.

(** [Network.prototype.activate]. *)
Definition activate (input : option (list Q)) (training : bool) (rnd : nat -> Q)
  (net : Network) : result (Network * list Q) :=
  activate_from (nodes net) 0 input training rnd 0 [] net.

End Activation.

(** ** Flattened form *)

(** [node.index = i] for every position [i]. *)
Definition set_indices (net : Network) : Network :=
  fold_left (fun net '(i, n) => upd_node n (set_index (Some i)) net)
    (imap pair (nodes net)) net.

(** A number of the stream; [None] is an [undefined] entry (the [index] of
    a node that never got one). *)
Definition index_number (i : option nat) : option Q :=
  (fun k => inject_Z (Z.of_nat k)) <$> i.

Definition gater_number (net : Network) (c : Connection) : option Q :=
  match gater c with
  | None => Some (inject_Z (-1))
  | Some g => index_number (index (node_at net g))
  end.

(** The loop of [serialize] over the nodes from [input_size] on. The
    callback of [_.times] reads [node.connectionections.in], a property of a
    name no node has: its first call is a [TypeError]. *)
Fixpoint serialize_nodes (idxs : list Z) (net : Network) (stream : list (option Q))
  : result (list (option Q)) :=
  match idxs with
  | [] => Ok stream
  | i :: idxs' =>
      match at_Z (nodes net) i with
      | None => Throw "TypeError"
      | Some n =>
          let node := node_at net n in
          let self := conn_at net (conn_self node) in
          let stream1 :=
            stream ++ [index_number (index node);
                       Some (bias node);
                       Some (inject_Z (indexOfZ (squash node) squashes));
                       Some (weight self);
                       gater_number net self] in
          match conn_in node with
          | [] => serialize_nodes idxs' net (stream1 ++ [Some (inject_Z (-2))])
          | _ :: _ => Throw "TypeError"
          end
      end
  end.

(** [Network.prototype.serialize]: [activations], [states], [connections]. *)
Definition serialize (net : Network)
  : result (list Q * list Q * list (option Q)) :=
  let net1 := set_indices net in
  let activations := map (fun n => activation (node_at net1 n)) (nodes net1) in
  let states := map (fun n => state (node_at net1 n)) (nodes net1) in
  stream ← serialize_nodes (zrange (input_size net1) (zlength (nodes net1))) net1
             [Some (inject_Z (input_size net1)); Some (inject_Z (output_size net1))];
  Ok (activations, states, stream).

(** ** Crossover *)

(** A JavaScript object used as a map from numeric keys: [Object.keys]
    lists the integer keys in ascending order and the key [NaN] ([None])
    after them. *)
Definition key_ltb (a b : option nat) : bool :=
  match a, b with
  | Some x, Some y => (x <? y)%nat
  | Some _, None => true
  | None, _ => false
  end.

Fixpoint obj_set {V} (k : option nat) (v : V) (o : list (option nat * V))
  : list (option nat * V) :=
  match o with
  | [] => [(k, v)]
  | (k', v') :: o' =>
      if decide (k = k') then (k, v) :: o'
      else if key_ltb k k' then (k, v) :: o
      else (k', v') :: obj_set k v o'
  end.

Fixpoint obj_get {V} (k : option nat) (o : list (option nat * V)) : option V :=
  match o with
  | [] => None
  | (k', v') :: o' => if decide (k = k') then Some v' else obj_get k o'
  end.

(** The data kept of a connection gene. An index is [None] when the node
    never got one; [g_gater = None] is the [-1] of an ungated gene. *)
Record Gene := mkGene {
  g_weight : Q;
  g_from : option nat;
  g_to : option nat;
  g_gater : option (option nat)
}.

(** The draws of one [cross_over] call, by call site: the initial weights
    of the constructor, the offspring size, the parent of each offspring
    position, and the parent of each common gene. *)
Record CrossOverDraws := mkCrossOverDraws {
  w_init : nat -> Q;
  r_size : Q;
  r_node : nat -> Q;
  r_gene : nat -> Q
}.

Section CrossOver.

(** [Connection.innovationID], which is outside the sources at hand. *)
Variable innovationID : nat -> nat -> nat.

Definition gene_of (net : Network) (c : cid) : Gene :=
  let conn := conn_at net c in
  mkGene (weight conn)
    (index (node_at net (from conn)))
    (index (node_at net (to conn)))
    (match gater conn with
     | Some g => Some (index (node_at net g))
     | None => None
     end).

(** The key of a gene; an [undefined] index makes it [NaN]. *)
Definition gene_key (g : Gene) : option nat :=
  match g_from g, g_to g with
  | Some a, Some b => Some (innovationID a b)
  | _, _ => None
  end.

(** [n1conns] (and [n2conns]): ordinary connections first, then
    self-connections, a later gene replacing an earlier one of equal key. *)
Definition conn_genes (net : Network) : list (option nat * Gene) :=
  fold_left (fun o c => let g := gene_of net c in obj_set (gene_key g) g o)
    (connections net ++ selfconns net) [].

(** The node of the parents that offspring position [i] copies. *)
Definition pick_node (network1 network2 : Network) (size outputSize : Z) (i : Z) (r : Q)
  : option Node :=
  let n1 k := node_at network1 <$> at_Z (nodes network1) k in
  let n2 k := node_at network2 <$> at_Z (nodes network2) k in
  if i <? size - outputSize then
    let node := if Qle_bool (1 # 2) r then n1 i else n2 i in
    let other := if negb (Qle_bool (1 # 2) r) then n1 i else n2 i in
    match node with
    | None => other
    | Some nd => if decide (type nd = Output) then other else node
    end
  else if Qle_bool (1 # 2) r
       then n1 (zlength (nodes network1) + i - size)
       else n2 (zlength (nodes network2) + i - size).

Fixpoint make_nodes (idxs : list Z) (network1 network2 : Network)
  (size outputSize : Z) (r : nat -> Q) (offspring : Network) : result Network :=
  match idxs with
  | [] => Ok offspring
  | i :: idxs' =>
      match pick_node network1 network2 size outputSize i (r (Z.to_nat i)) with
      | None => Throw "TypeError"
      | Some nd =>
          let '(n, off1) := Node_new Hidden offspring in
          let off2 := upd_node n
                        (fun x => set_type (type nd)
                                    (set_squash (squash nd) (set_bias (bias nd) x))) off1 in
          make_nodes idxs' network1 network2 size outputSize r
            (set_nodes (nodes off2 ++ [n]) off2)
      end
  end.

(** The loop over [keys1], last key first: common genes come from a random
    parent and are struck out of [n2conns]; the others come from parent 1
    when it is at least as fit. *)
Definition common_genes (equal : bool) (score1 score2 : Q) (r : nat -> Q)
  (n1conns : list (option nat * Gene)) (n2conns : list (option nat * option Gene))
  : list Gene * list (option nat * option Gene) :=
  fold_left
    (fun '(acc, n2) '(i, (k, g1)) =>
       match obj_get k n2 with
       | Some (Some g2) =>
           (acc ++ [if Qle_bool (1 # 2) (r i) then g1 else g2], obj_set k None n2)
       | _ =>
           if Qle_bool score2 score1 || equal then (acc ++ [g1], n2) else (acc, n2)
       end)
    (rev (imap (fun i kv => (i, kv)) n1conns)) ([], n2conns).

(** The loop that creates the offspring's connections. *)
Fixpoint instantiate (genes : list Gene) (size : Z) (offspring : Network)
  : result Network :=
  match genes with
  | [] => Ok offspring
  | g :: genes' =>
      match g_from g, g_to g with
      | Some f, Some t =>
          if (Z.of_nat t <? size) && (Z.of_nat f <? size) then
            match nodes offspring !! f, nodes offspring !! t with
            | Some nf, Some nt =>
                '(off1, cs) ← connect nf nt None offspring;
                match cs with
                | [] => Throw "TypeError"
                | c :: _ =>
                    let off2 := upd_conn c (set_weight (g_weight g)) off1 in
                    off3 ← match g_gater g with
                           | Some (Some gi) =>
                               if Z.of_nat gi <? size then
                                 match nodes off2 !! gi with
                                 | Some gn => gate gn c off2
                                 | None => Throw "This node is not part of the network!"
                                 end
                               else Ok off2
                           | _ => Ok off2
                           end;
                    instantiate genes' size off3
                end
            | _, _ => Throw "TypeError"
            end
          else instantiate genes' size offspring
      | _, _ => instantiate genes' size offspring
      end
  end.

(** [Network.cross_over]. *)
Definition cross_over (network1 network2 : Network) (equal : bool)
  (d : CrossOverDraws) : result Network :=
  if negb (input network1 =? input network2) || negb (output network1 =? output network2)
  then Throw "Networks don`t have the same input/output size!"
  else
    off0 ← Network_new (Some (input network1)) (Some (output network1)) (w_init d);
    let offspring := set_nodes [] (set_connections [] off0) in
    let score1 := default 0%Q (score network1) in
    let score2 := default 0%Q (score network2) in
    let len1 := zlength (nodes network1) in
    let len2 := zlength (nodes network2) in
    let size :=
      if equal || Qeq_bool score1 score2 then
        Qfloor (r_size d * inject_Z (Z.max len1 len2 - Z.min len1 len2 + 1)
                + inject_Z (Z.min len1 len2))
      else if negb (Qle_bool score1 score2) then len1 else len2 in
    let outputSize := output network1 in
    let network1 := set_indices network1 in
    let network2 := set_indices network2 in
    offspring ← make_nodes (zrange 0 size) network1 network2 size outputSize
                  (r_node d) offspring;
    let n1conns := conn_genes network1 in
    let n2conns := prod_map id Some <$> conn_genes network2 in
    let '(common, n2conns) := common_genes equal score1 score2 (r_gene d) n1conns n2conns in
    let excess :=
      if Qle_bool score1 score2 || equal then omap snd n2conns else [] in
    instantiate (common ++ excess) size offspring.

End CrossOver.

(** ** The population manager *)

(** [genome.mutate], as the manager calls it. *)
Definition Network_mutate := mutate.

Module Neat.

(** The selection methods of [methods.selection] (a file outside the
    sources at hand) with the options [getParent] reads off them. *)
Inductive Selection :=
| POWER (power : nat)
| FITNESS_PROPORTIONATE
| TOURNAMENT (size : nat) (probability : Q).

(** The manager's state: the options that the generational loop reads and
    the population. [None] as a cap is [Infinity]. *)
Record t := mk {
  generation : nat;
  popsize : nat;
  elitism : nat;
  provenance : nat;
  equal : bool;
  mutationRate : Q;
  mutationAmount : nat;
  selection : Selection;
  mutation : list Method;
  efficientMutation : bool;
  template : Network;
  maxNodes : option nat;
  maxConns : option nat;
  maxGates : option nat;
  population : list Network
}.

Definition set_population (p : list Network) (m : t) : t :=
  mk (generation m) (popsize m) (elitism m) (provenance m) (equal m) (mutationRate m)
    (mutationAmount m) (selection m) (mutation m) (efficientMutation m) (template m)
    (maxNodes m) (maxConns m) (maxGates m) p.

Definition set_generation (g : nat) (m : t) : t :=
  mk g (popsize m) (elitism m) (provenance m) (equal m) (mutationRate m)
    (mutationAmount m) (selection m) (mutation m) (efficientMutation m) (template m)
    (maxNodes m) (maxConns m) (maxGates m) (population m).

(** [a.score < b.score]; a comparison with [undefined] is false. *)
Definition score_lt (a b : Network) : bool :=
  match score a, score b with
  | Some x, Some y => negb (Qle_bool y x)
  | _, _ => false
  end.

(** [self.sort]: [Array.prototype.sort] with the comparator
    [b.score - a.score], a stable sort by descending score. *)
Fixpoint insert_by_score (x : Network) (l : list Network) : list Network :=
  match l with
  | [] => [x]
  | y :: l' => if score_lt x y then y :: insert_by_score x l' else x :: l
  end.

Definition sort_by_score (l : list Network) : list Network :=
  foldr insert_by_score [] l.

Definition sort (m : t) : t := set_population (sort_by_score (population m)) m.

(** The outcome of [selectMutationMethod]. *)
Inductive Chosen :=
| chose_undefined
| chose_null
| chose (method : Method).

Definition over (n : nat) (cap : option nat) : bool :=
  match cap with
  | Some c => (c <=? n)%nat
  | None => false
  end.

(** [self.selectMutationMethod]; its efficient branch is switched off by
    the assignment that opens the function. *)
Definition selectMutationMethod (m : t) (genome : Network) (r : Q) : Chosen :=
  match sample r (mutation m) with
  | None => chose_undefined
  | Some current =>
      match current with
      | ADD_NODE _ =>
          if over (length (nodes genome)) (maxNodes m) then chose_null else chose current
      | ADD_CONN =>
          if over (length (connections genome)) (maxConns m) then chose_null else chose current
      | ADD_GATE =>
          if over (length (gates genome)) (maxGates m) then chose_null else chose current
      | _ => chose current
      end
  end.

Section Manager.

(** The injected fitness evaluator, the JSON round trip
    ([Network.from_JSON(x.to_JSON())], whose per-node half is outside the
    sources at hand) and [Connection.innovationID]. *)
Variable fitness : Network -> Q.
Variable json_copy : Network -> Network.
Variable innovationID : nat -> nat -> nat.

(** [self.evaluate]: every genome gets its score, then the population is
    sorted. *)
Definition evaluate (m : t) : t :=
  sort (set_population (map (fun g => set_score (Some (fitness g)) g) (population m)) m).

(** The roulette wheel of [FITNESS_PROPORTIONATE]: the first genome at
    which the running sum passes [random], the fallback when none does. *)
Fixpoint wheel (random minimalFitness : Q) (fallback : option Network)
  (gs : list Network) (value : Q) : option Network :=
  match gs with
  | [] => fallback
  | g :: gs' =>
      let value' := (value + (default 0%Q (score g) + minimalFitness))%Q in
      if negb (Qle_bool value' random) then Some g
      else wheel random minimalFitness fallback gs' value'
  end.

(** The final loop of [TOURNAMENT] over the sorted entrants. *)
Fixpoint choose (probability : Q) (rnd : nat -> Q) (size : nat)
  (l : list (option Network)) (i : nat) : option Network :=
  match l with
  | [] => None
  | g :: l' =>
      if negb (Qle_bool probability (rnd (size + i)%nat)) || bool_decide (S i = size)
      then g else choose probability rnd size l' (S i)
  end.

(** [self.getParent]. The genome returned is [None] when the source
    returns [undefined]. [Array.prototype.sort] moves [undefined] entries
    to the end without calling the comparator. *)
Definition getParent (rnd : nat -> Q) (m : t) : result (option Network * t) :=
  match selection m with
  | POWER power =>
      match population m !! 0%nat, population m !! 1%nat with
      | Some a, Some b =>
          let m1 := if score_lt a b then sort m else m in
          let r := (Qpower (rnd 0%nat) (Z.of_nat power)) in
          Ok (population m1 !! random_index r (length (population m1)), m1)
      | _, _ => Throw "TypeError"
      end
  | FITNESS_PROPORTIONATE =>
      let pop := population m in
      let fallback := sample (rnd 1%nat) pop in
      match mapM score pop with
      | None => Ok (fallback, m)
      | Some scores =>
          let minimalFitness :=
            Qabs (fold_left (fun mn s => if negb (Qle_bool mn s) then s else mn) scores 0%Q) in
          let totalFitness :=
            (fold_left Qplus scores 0 + minimalFitness * inject_Z (zlength pop))%Q in
          let random := (rnd 0%nat * totalFitness)%Q in
          Ok (wheel random minimalFitness fallback pop 0%Q, m)
      end
  | TOURNAMENT size probability =>
      if (popsize m <? size)%nat then
        Throw "Your tournament size should be lower than the population size, please change methods.selection.TOURNAMENT.size"
      else
        let individuals := map (fun i => sample (rnd i) (population m)) (seq 0 size) in
        let sorted :=
          map Some (sort_by_score (omap id individuals))
          ++ List.filter (fun p => negb (bool_decide (is_Some p))) individuals in
        Ok (choose probability rnd size sorted 0%nat, m)
  end.

(** The draws of one [evolve] call, by call site: for the [i]-th offspring
    the two [getParent] calls and the crossover; for the [i]-th genome of
    the new population the mutation test and, for each round, the method
    selection and the mutation itself. *)
Record EvolveDraws := mkEvolveDraws {
  d_parent1 : nat -> nat -> Q;
  d_parent2 : nat -> nat -> Q;
  d_cross : nat -> CrossOverDraws;
  d_rate : nat -> Q;
  d_select : nat -> nat -> Q;
  d_method : nat -> nat -> nat -> Q
}.

(** [self.getOffspring]; [Network.cross_over] reads [input] off its
    arguments, a [TypeError] on [undefined]. *)
Definition getOffspring (r1 r2 : nat -> Q) (dc : CrossOverDraws) (m : t)
  : result (Network * t) :=
  '(parent1, m1) ← getParent r1 m;
  '(parent2, m2) ← getParent r2 m1;
  match parent1, parent2 with
  | Some p1, Some p2 =>
      child ← cross_over innovationID p1 p2 (equal m2) dc;
      Ok (child, m2)
  | _, _ => Throw "TypeError"
  end.

(** The rounds of mutation one genome goes through. *)
Fixpoint mutate_rounds (m : t) (rs : nat -> Q) (rm : nat -> nat -> Q)
  (j rounds : nat) (genome : Network) : result Network :=
  match rounds with
  | O => Ok genome
  | S rounds' =>
      let chosen := selectMutationMethod m genome (rs j) in
      genome' ← (if efficientMutation m then Ok genome
                 else match chosen with
                      | chose_undefined => Network_mutate None (rm j) genome
                      | chose_null => Ok genome
                      | chose method => Network_mutate (Some method) (rm j) genome
                      end);
      mutate_rounds m rs rm (S j) rounds' genome'
  end.

(** [self.mutate]: the genomes of the current population, in order. *)
Fixpoint mutate_from (m : t) (d : EvolveDraws) (i : nat) (genomes : list Network)
  : result (list Network) :=
  match genomes with
  | [] => Ok []
  | genome :: genomes' =>
      genome' ← (if Qle_bool (d_rate d i) (mutationRate m)
                 then mutate_rounds m (d_select d i) (d_method d i) 0 (mutationAmount m) genome
                 else Ok genome);
      rest ← mutate_from m d (S i) genomes';
      Ok (genome' :: rest)
  end.

Definition mutate (d : EvolveDraws) (m : t) : result t :=
  pop ← mutate_from m d 0 (population m);
  Ok (set_population pop m).

(** [self.mutate] over [count] slots, from slot [i] on, that all hold one
    and the same object: the object goes through the loop once per slot. *)
Fixpoint mutate_shared (m : t) (d : EvolveDraws) (i count : nat) (genome : Network)
  : result Network :=
  match count with
  | O => Ok genome
  | S count' =>
      genome' ← (if Qle_bool (d_rate d i) (mutationRate m)
                 then mutate_rounds m (d_select d i) (d_method d i) 0 (mutationAmount m) genome
                 else Ok genome);
      mutate_shared m d (S i) count' genome'
  end.

(** The breeding loop of [evolve]: offspring [i], [i + 1], ... *)
Fixpoint breed (d : EvolveDraws) (i count : nat) (m : t) (acc : list Network)
  : result (list Network * t) :=
  match count with
  | O => Ok (acc, m)
  | S count' =>
      '(child, m') ← getOffspring (d_parent1 d i) (d_parent2 d i) (d_cross d i) m;
      breed d (S i) count' m' (acc ++ [child])
  end.

(** [self.evolve], called without a filter. It yields the fittest genome
    and the manager's new state. [Array(provenance).fill(copy)] puts one
    object, the copy of the template, into every provenance slot of the new
    population: [self.mutate()] passes it once per slot, and every
    provenance slot shows the outcome. The offspring are objects of their
    own. An elitist slot beyond the population holds [undefined], on which
    the final evaluation fails. *)
Definition evolve (d : EvolveDraws) (m : t) : result (Network * t) :=
  if (popsize m <? elitism m + provenance m)%nat
  then Throw "Can`t evolve! Elitism + provenance exceeds population size!"
  else
    match last (population m) with
    | None => Throw "TypeError"
    | Some g =>
        let m1 := match score g with
                  | None => evaluate m
                  | Some _ => m
                  end in
        let m2 := sort m1 in
        let elitists := take (elitism m2) (population m2) in
        let shared := json_copy (template m2) in
        '(offspring, m3) ←
          breed d 0 (popsize m2 - elitism m2 - provenance m2) m2 [];
        shared' ← mutate_shared m3 d 0 (provenance m2) shared;
        offspring' ← mutate_from m3 d (provenance m2) offspring;
        let m5 := set_population (replicate (provenance m2) shared' ++ offspring') m3 in
        if (length (population m2) <? elitism m2)%nat then Throw "TypeError"
        else
          let m6 := set_population (population m5 ++ elitists) m5 in
          let m7 := sort (evaluate m6) in
          match population m7 !! 0%nat with
          | None => Throw "TypeError"
          | Some best =>
              let fittest := set_score (score best) (json_copy best) in
              let m8 := set_population (map (set_score None) (population m7)) m7 in
              Ok (fittest, set_generation (S (generation m8)) m8)
          end
    end.

End Manager.
End Neat.

(** ** Invariants of the data model *)

(** The ordered pair of endpoints of a connection. *)
Definition pair_of (net : Network) (c : cid) : nid * nid :=
  (from (conn_at net c), to (conn_at net c)).

(** An ordinary connection joins two distinct nodes of the network and is
    entered in the adjacency lists of both. *)
Definition wf_conn (net : Network) (c : cid) : Prop :=
  from (conn_at net c) ∈ nodes net
  ∧ to (conn_at net c) ∈ nodes net
  ∧ from (conn_at net c) ≠ to (conn_at net c)
  ∧ c ∈ conn_out (node_at net (from (conn_at net c)))
  ∧ c ∈ conn_in (node_at net (to (conn_at net c)))
  ∧ (c < next_conn net)%nat.

(** The adjacency lists of a node hold connections of the network that
    start, respectively end, at the node, and its self-connection object
    is its own. *)
Definition wf_node (net : Network) (n : nid) : Prop :=
  Forall (fun c => c ∈ connections net ∧ from (conn_at net c) = n)
    (conn_out (node_at net n))
  ∧ NoDup (conn_out (node_at net n))
  ∧ Forall (fun c => c ∈ connections net ∧ to (conn_at net c) = n)
      (conn_in (node_at net n))
  ∧ NoDup (conn_in (node_at net n))
  ∧ from (conn_at net (conn_self (node_at net n))) = n
  ∧ to (conn_at net (conn_self (node_at net n))) = n
  ∧ (conn_self (node_at net n) < next_conn net)%nat
  ∧ (n < next_node net)%nat.

(** The invariants of the data model that concern nodes and ordinary
    connections: every connection's endpoints belong to the network, no
    ordered pair is connected twice, and the adjacency lists agree with
    the network's list. *)
Definition wf (net : Network) : Prop :=
  NoDup (nodes net)
  ∧ NoDup (connections net)
  ∧ NoDup (map (pair_of net) (connections net))
  ∧ Forall (wf_conn net) (connections net)
  ∧ Forall (wf_node net) (nodes net).

(** Each entry of [selfconns] is the self-connection object of a node of
    the network, listed once. *)
Definition wf_selfconns (net : Network) : Prop :=
  NoDup (selfconns net)
  ∧ Forall (fun c => from (conn_at net c) ∈ nodes net
                     ∧ conn_self (node_at net (from (conn_at net c))) = c)
      (selfconns net).

Global Instance wf_conn_dec net c : Decision (wf_conn net c).
Proof. unfold wf_conn. apply _. Defined.
Global Instance wf_node_dec net n : Decision (wf_node net n).
Proof. unfold wf_node. apply _. Defined.
Global Instance wf_dec net : Decision (wf net).
Proof. unfold wf. apply _. Defined.
Global Instance wf_selfconns_dec net : Decision (wf_selfconns net).
Proof. unfold wf_selfconns. apply _. Defined.

(** The partition of the node list: the positions below [input_size] hold
    input nodes, the last [output_size] positions hold output nodes. *)
Definition partitioned (net : Network) : Prop :=
  forall (i : nat) (n : nid), nodes net !! i = Some n ->
    (Z.of_nat i < input_size net -> type (node_at net n) = Input)
    /\ (zlength (nodes net) - output_size net <= Z.of_nat i ->
        type (node_at net n) = Output).

(** Two states of a network that show the same graph of nodes and
    ordinary connections: the same node and connection lists, endpoints,
    adjacency lists, node types and sizes. Weights, gaters, gates, biases,
    activation state and the list of self-connections may differ. *)
Definition graph_eq (net net' : Network) : Prop :=
  nodes net' = nodes net
  ∧ connections net' = connections net
  ∧ next_node net' = next_node net
  ∧ next_conn net' = next_conn net
  ∧ input_size net' = input_size net
  ∧ output_size net' = output_size net
  ∧ (forall c, from (conn_at net' c) = from (conn_at net c))
  ∧ (forall c, to (conn_at net' c) = to (conn_at net c))
  ∧ (forall n, type (node_at net' n) = type (node_at net n))
  ∧ (forall n, conn_in (node_at net' n) = conn_in (node_at net n))
  ∧ (forall n, conn_out (node_at net' n) = conn_out (node_at net n))
  ∧ (forall n, conn_self (node_at net' n) = conn_self (node_at net n))
  ∧ input net' = input net
  ∧ output net' = output net.

(** No connection of the network starts or ends at [node]. *)
Definition detached (node : nid) (net : Network) : Prop :=
  forall c, c ∈ connections net ++ selfconns net ->
    from (conn_at net c) ≠ node /\ to (conn_at net c) ≠ node.

(** [net'] is [net] with one more ordinary connection [c] from [a] to [b]. *)
Definition added (a b : nid) (c : cid) (net net' : Network) : Prop :=
  nodes net' = nodes net
  ∧ connections net' = connections net ++ [c]
  ∧ next_node net' = next_node net
  ∧ next_conn net' = S (next_conn net)
  ∧ input_size net' = input_size net
  ∧ output_size net' = output_size net
  ∧ (forall c', from (conn_at net' c') = if decide (c' = c) then a else from (conn_at net c'))
  ∧ (forall c', to (conn_at net' c') = if decide (c' = c) then b else to (conn_at net c'))
  ∧ (forall n, type (node_at net' n) = type (node_at net n))
  ∧ (forall n, conn_in (node_at net' n)
               = if decide (n = b) then conn_in (node_at net n) ++ [c]
                 else conn_in (node_at net n))
  ∧ (forall n, conn_out (node_at net' n)
               = if decide (n = a) then conn_out (node_at net n) ++ [c]
                 else conn_out (node_at net n))
  ∧ (forall n, conn_self (node_at net' n) = conn_self (node_at net n))
  ∧ input net' = input net
  ∧ output net' = output net.

(** [net'] is [net] without the ordinary connection [c] from [a] to [b]. *)
Definition removed (a b : nid) (c : cid) (net net' : Network) : Prop :=
  nodes net' = nodes net
  ∧ connections net' = remove_first c (connections net)
  ∧ next_node net' = next_node net
  ∧ next_conn net' = next_conn net
  ∧ input_size net' = input_size net
  ∧ output_size net' = output_size net
  ∧ (forall c', from (conn_at net' c') = from (conn_at net c'))
  ∧ (forall c', to (conn_at net' c') = to (conn_at net c'))
  ∧ (forall n, type (node_at net' n) = type (node_at net n))
  ∧ (forall n, conn_in (node_at net' n)
               = if decide (n = b) then remove_first c (conn_in (node_at net n))
                 else conn_in (node_at net n))
  ∧ (forall n, conn_out (node_at net' n)
               = if decide (n = a) then remove_first c (conn_out (node_at net n))
                 else conn_out (node_at net n))
  ∧ (forall n, conn_self (node_at net' n) = conn_self (node_at net n))
  ∧ input net' = input net
  ∧ output net' = output net.

(** The type the constructor gives the node at position [j]. *)
Definition initial_type (i : Z) (j : nat) : NodeType :=
  if Z.of_nat j <? i then Input else Output.

(** The state of a network under construction that holds [k] nodes and no
    connection yet: node [j] is the [j]-th object created and owns the
    [j]-th connection object as its self-connection. *)
Definition fresh_nodes (i o : Z) (k : nat) (net : Network) : Prop :=
  nodes net = seq 0 k
  ∧ next_node net = k
  ∧ next_conn net = k
  ∧ connections net = []
  ∧ selfconns net = []
  ∧ gates net = []
  ∧ input_size net = i ∧ output_size net = o ∧ input net = i ∧ output net = o
  ∧ (forall j, (j < k)%nat ->
       node_at net j = mkNode (initial_type i j) 0 LOGISTIC 0 0 1 None [] [] [] j
       ∧ conn_at net j = mkConnection j j 0 None).

(** The state of the constructor between two [connect] calls: the
    ordered pairs in [done] are connected, with the weights [ws]. *)
Definition constructing (i o : Z) (done : list (nat * nat)) (ws : list Q)
  (net : Network) : Prop :=
  nodes net = seq 0 (Z.to_nat (i + o))
  ∧ wf net
  ∧ (forall j, (j < Z.to_nat (i + o))%nat -> type (node_at net j) = initial_type i j)
  ∧ map (pair_of net) (connections net) = done
  ∧ map (fun c => weight (conn_at net c)) (connections net) = ws
  ∧ selfconns net = []
  ∧ gates net = []
  ∧ input_size net = i ∧ output_size net = o ∧ input net = i ∧ output net = o.

(** A constant stream of draws, and the networks that the examples use. *)
Definition const_draws (r : Q) : nat -> Q := fun _ => r.

Definition get_ok (r : result Network) : Network :=
  match r with
  | Ok net => net
  | Throw _ => mkNetwork 0 0 0 0 [] [] [] [] 0 None ∅ ∅ 0%nat 0%nat
  end.

(** [new Network(1, 1)], [new Network(1, 2)] and [new Network(2, 2)]. *)
Definition net_1_1 : Network :=
  get_ok (Network_new (Some 1) (Some 1) (const_draws (1 # 2))).
Definition net_1_2 : Network :=
  get_ok (Network_new (Some 1) (Some 2) (const_draws (1 # 2))).
Definition net_2_2 : Network :=
  get_ok (Network_new (Some 2) (Some 2) (const_draws (1 # 2))).

(** [new Network(2, 2)] after an [ADD_NODE] mutation: five nodes, the new
    hidden node in front of the two output nodes. *)
Definition net_2_1_2 : Network :=
  get_ok (mutate (Some (ADD_NODE false)) (const_draws (1 # 2)) net_2_2).

(** The number of output nodes of a network. *)
Definition output_count (net : Network) : nat :=
  length (List.filter (fun n => bool_decide (type (node_at net n) = Output)) (nodes net)).

(** Cantor's pairing function, an innovation id that tells ordered pairs
    apart; used where an example needs a concrete id. *)
Definition cantor (a b : nat) : nat := ((a + b) * (a + b + 1) / 2 + b)%nat.


(** A fitness evaluator for the examples: smaller networks score higher. *)
Definition example_fitness (net : Network) : Q :=
  (- inject_Z (zlength (nodes net)))%Q.

Definition example_cross_draws : CrossOverDraws :=
  mkCrossOverDraws (const_draws (1 # 2)) 0 (const_draws (1 # 2)) (const_draws (1 # 2)).

Definition example_draws : Neat.EvolveDraws :=
  Neat.mkEvolveDraws (fun _ => const_draws (1 # 2)) (fun _ => const_draws 0)
    (fun _ => example_cross_draws) (const_draws (3 # 10))
    (fun _ => const_draws (1 # 2)) (fun _ _ => const_draws (1 # 2)).

(** A manager of ten copies of [new Network(2, 2)] with [elitism = 2] and
    [provenance = 0], and one of a single genome. *)
Definition example_manager : Neat.t :=
  Neat.mk 0 10 2 0 true (4 # 10) 1 (Neat.POWER 4)
    [ADD_NODE false; SUB_NODE true; ADD_CONN; SUB_CONN; MOD_WEIGHT (-1) 1;
     MOD_BIAS (-1) 1; MOD_ACTIVATION true; SWAP_NODES true]
    false net_2_2 None None None (replicate 10 net_2_2).

Definition singleton_manager : Neat.t :=
  Neat.mk 0 1 0 0 true (4 # 10) 1 (Neat.POWER 4)
    [ADD_NODE false; SUB_NODE true; ADD_CONN; SUB_CONN; MOD_WEIGHT (-1) 1;
     MOD_BIAS (-1) 1; MOD_ACTIVATION true; SWAP_NODES true]
    false net_2_2 None None None [set_score (Some 0%Q) net_2_2].


(** What every step of a structural edit leaves alone: the node list, the
    sizes, every node's type and self-connection object, and the endpoints
    of the connection objects that exist. *)
Definition stable (net net' : Network) : Prop :=
  nodes net' = nodes net
  ∧ next_node net' = next_node net
  ∧ (next_conn net <= next_conn net')%nat
  ∧ input_size net' = input_size net
  ∧ output_size net' = output_size net
  ∧ input net' = input net
  ∧ output net' = output net
  ∧ (forall n, type (node_at net' n) = type (node_at net n))
  ∧ (forall n, conn_self (node_at net' n) = conn_self (node_at net n))
  ∧ (forall c, (c < next_conn net)%nat ->
       from (conn_at net' c) = from (conn_at net c)
       ∧ to (conn_at net' c) = to (conn_at net c)).

(** No ordinary connection ends at an input node. *)
Definition targets_ok (net : Network) : Prop :=
  Forall (fun c => type (node_at net (to (conn_at net c))) ≠ Input) (connections net).

(** Every entry of [selfconns] is an existing object that joins a node to
    itself. *)
Definition selfconns_ok (net : Network) : Prop :=
  Forall (fun c => (c < next_conn net)%nat ∧ from (conn_at net c) = to (conn_at net c))
    (selfconns net).

(** The typed partition of the node list that the mutation operators
    rely on: non-negative sizes, input nodes exactly at the positions
    below [input_size], output nodes at the last [output_size] positions. *)
Definition typed_partition (net : Network) : Prop :=
  0 <= input_size net
  ∧ 0 <= output_size net
  ∧ input_size net + output_size net <= zlength (nodes net)
  ∧ forall (i : nat) (n : nid), nodes net !! i = Some n ->
      (Z.of_nat i < input_size net -> type (node_at net n) = Input)
      ∧ (input_size net <= Z.of_nat i -> type (node_at net n) ≠ Input)
      ∧ (zlength (nodes net) - output_size net <= Z.of_nat i ->
         type (node_at net n) = Output).

(** The invariant of the networks that construction and mutation produce. *)
Definition inv (net : Network) : Prop :=
  wf net ∧ targets_ok net ∧ selfconns_ok net ∧ typed_partition net.

(** The networks that construction and mutation produce. *)
Inductive reachable : Network -> Prop :=
| reachable_new (i o : Z) (w : nat -> Q) (net : Network) :
    0 <= i -> 0 <= o -> Network_new (Some i) (Some o) w = Ok net -> reachable net
| reachable_mutate (method : Method) (rnd : nat -> Q) (net net' : Network) :
    reachable net -> mutate (Some method) rnd net = Ok net' -> reachable net'.

(** [net_2_1_2] after [remove] of its hidden node (the node with id 4). *)
Definition net_2_1_2_removed : Network :=
  get_ok (remove true 4%nat (const_draws (1 # 2)) net_2_1_2).

(** The connection set of a network: for every ordinary and every
    self-connection, the positions of its two endpoints in the node list
    and its weight. *)
Definition conn_triple (net : Network) (c : cid) : option nat * option nat * Q :=
  (indexOf (from (conn_at net c)) (nodes net),
   indexOf (to (conn_at net c)) (nodes net),
   weight (conn_at net c)).

Definition connection_set (net : Network) : list (option nat * option nat * Q) :=
  map (conn_triple net) (connections net ++ selfconns net).


(** What a connection gene contributes to the connection set. *)
Definition gene_triple (g : Gene) : option nat * option nat * Q :=
  (g_from g, g_to g, g_weight g).

(** The ordered pair of positions of an entry of a connection set. *)
Definition triple_pair (tr : option nat * option nat * Q) : option nat * option nat :=
  (tr.1.1, tr.1.2).

(** The innovation id of an ordered pair of positions; [None] is the [NaN]
    that an [undefined] index gives. *)
Definition pair_id (innovationID : nat -> nat -> nat) (p : option nat * option nat)
  : option nat :=
  match p with
  | (Some a, Some b) => Some (innovationID a b)
  | _ => None
  end.

(** The innovation id tells the connections of [net] apart: two of them
    with the same id join the same ordered pair of positions. *)
Definition separates (innovationID : nat -> nat -> nat) (net : Network) : Prop :=
  let ps := map triple_pair (connection_set net) in
  Forall (fun p => Forall (fun q => pair_id innovationID p = pair_id innovationID q -> p = q) ps)
    ps.

Global Instance separates_dec innovationID net : Decision (separates innovationID net).
Proof. unfold separates. apply _. Defined.

(** A sequence of mutations, each with its draws. *)
Fixpoint mutate_all (steps : list (Method * (nat -> Q))) (net : Network) : result Network :=
  match steps with
  | [] => Ok net
  | (method, rnd) :: steps' => net' ← mutate (Some method) rnd net; mutate_all steps' net'
  end.

(** [new Network(2, 2)] with its two output nodes connected, and the
    connections [connect] returned. *)
Definition net_2_2_linked : Network * list cid :=
  match connect 2%nat 3%nat None net_2_2 with
  | Ok r => r
  | Throw _ => (net_2_2, [])
  end.

(** The methods whose case of [mutate] asks [possible] before it acts;
    the cases of [ADD_NODE], [MOD_WEIGHT] and [MOD_BIAS] do not. *)
Definition guarded (method : Method) : bool :=
  match method with
  | ADD_NODE _ | MOD_WEIGHT _ _ | MOD_BIAS _ _ => false
  | _ => true
  end.

(** [new Network(1, 0)]: one input node and no connection. *)
Definition net_1_0 : Network :=
  get_ok (Network_new (Some 1) (Some 0) (const_draws (1 # 2))).

(** The methods that change a weight, a bias, a squash function or a gate
    and neither a node nor a connection. *)
Definition parametric (method : Method) : bool :=
  match method with
  | MOD_WEIGHT _ _ | MOD_BIAS _ _ | MOD_ACTIVATION _ | ADD_GATE | SUB_GATE
  | SWAP_NODES _ => true
  | _ => false
  end.

(** [net_2_1_2] after a [SWAP_NODES] mutation, a [SUB_CONN] mutation and an
    [ADD_CONN] mutation of [net_2_1_2]. *)
Definition net_2_1_2_swapped : Network :=
  get_ok (mutate (Some (SWAP_NODES true)) (const_draws (1 # 2)) net_2_1_2).
Definition net_2_1_2_sub_conn : Network :=
  get_ok (mutate (Some SUB_CONN) (const_draws (1 # 2)) net_2_1_2).
Definition net_2_1_2_add_conn : Network :=
  get_ok (mutate (Some ADD_CONN) (const_draws (1 # 2)) net_2_1_2).

(** The position [k] stops [serialize]: no node there, or a node with an
    incoming connection. *)
Definition blocked (net : Network) (k : Z) : bool :=
  match at_Z (nodes net) k with
  | Some n => negb (bool_decide (conn_in (node_at net n) = []))
  | None => true
  end.


(** [b.score <= a.score], for two scored genomes. *)
Definition score_ge (a b : Network) : Prop :=
  match score a, score b with
  | Some x, Some y => (y <= x)%Q
  | _, _ => False
  end.

(** [example_manager] with the option [efficientMutation] switched on. *)
Definition efficient_manager : Neat.t :=
  Neat.mk 0 10 2 0 true (4 # 10) 1 (Neat.POWER 4)
    [ADD_NODE false; SUB_NODE true; ADD_CONN; SUB_CONN; MOD_WEIGHT (-1) 1;
     MOD_BIAS (-1) 1; MOD_ACTIVATION true; SWAP_NODES true]
    true net_2_2 None None None (replicate 10 net_2_2).

(** A manager of two scored genomes, the lower score first. *)
Definition scored_manager : Neat.t :=
  Neat.set_population
    [set_score (Some 1%Q) net_2_2; set_score (Some 2%Q) net_2_1_2] example_manager.

(** ** The JSON form *)

(** Modelled from the spec: [node.to_JSON()] and [Node.from_JSON(json)],
    absent from the sources. The JSON of a node carries its bias, its
    squash id and its kind, and [Node.from_JSON] gives the three to a new
    node. [j_index] is the [index] that [to_JSON] writes into it. *)
Record NodeJSON := mkNodeJSON {
  j_bias : Q;
  j_type : NodeType;
  j_squash : Squash;
  j_index : nat
}.

Definition Node_to_JSON (node : Node) (i : nat) : NodeJSON :=
  mkNodeJSON (bias node) (type node) (squash node) i.

Definition Node_from_JSON (json : NodeJSON) (net : Network) : nid * Network :=
  let '(n, net1) := Node_new Hidden net in
  (n, upd_node n
        (fun x => set_type (j_type json)
                    (set_squash (j_squash json) (set_bias (j_bias json) x))) net1).

(** The JSON of a connection holds what a gene holds: [weight], [from],
    [to] and [gater], an index being [None] where the node has none; here
    [g_gater = None] is the [null] of an ungated connection. *)
Definition ConnectionJSON : Type := Gene.

Record NetworkJSON := mkNetworkJSON {
  json_nodes : list NodeJSON;
  json_connections : list ConnectionJSON;
  json_input_size : Z;
  json_output_size : Z;
  json_dropout : Q;
  json_input : Z;
  json_output : Z
}.

(** The entry of [json.connections] for the node at position [i]: one for
    a self-connection of non-zero weight, with the position as both ends. *)
Definition self_json (net : Network) (i : nat) (n : nid) : list ConnectionJSON :=
  let self := conn_at net (conn_self (node_at net n)) in
  if Qeq_bool (weight self) 0 then []
  else [mkGene (weight self) (Some i) (Some i)
          (match gater self with
           | Some g => Some (index (node_at net g))
           | None => None
           end)].

(** [Network.prototype.to_JSON]: the JSON and the network, whose nodes
    have their [index] set. The self-connections come first, in the order
    of the nodes, then the ordinary connections. *)
Definition to_JSON (net : Network) : NetworkJSON * Network :=
  let net1 := set_indices net in
  (mkNetworkJSON
     (imap (fun i n => Node_to_JSON (node_at net1 n) i) (nodes net1))
     (concat (imap (self_json net1) (nodes net1))
      ++ map (gene_of net1) (connections net1))
     (input_size net1) (output_size net1) (dropout net1)
     (input_size net1) (output_size net1),
   net1).

(** The first loop of [from_JSON]: a new node per entry, pushed. *)
Fixpoint push_nodes (jsons : list NodeJSON) (network : Network) : Network :=
  match jsons with
  | [] => network
  | json :: jsons' =>
      let '(n, net1) := Node_from_JSON json network in
      push_nodes jsons' (set_nodes (nodes net1 ++ [n]) net1)
  end.

(** The second loop of [from_JSON]. [network.nodes[k]] is [undefined] for
    a [k] that is [undefined] or past the end: as the first argument of
    [connect] it is a [TypeError] (and so it is taken to be as the second,
    inside the absent [node.connect]); as the argument of [gate] it is not
    part of the network. A gater that is [null] or [undefined] fails the
    test [!= null]. *)
Fixpoint connect_json (jsons : list ConnectionJSON) (network : Network)
  : result Network :=
  match jsons with
  | [] => Ok network
  | json :: jsons' =>
      match g_from json ≫= (fun k => nodes network !! k),
            g_to json ≫= (fun k => nodes network !! k) with
      | Some nf, Some nt =>
          '(net1, cs) ← connect nf nt None network;
          match cs with
          | [] => Throw "TypeError"
          | c :: _ =>
              let net2 := upd_conn c (set_weight (g_weight json)) net1 in
              net3 ← match g_gater json with
                     | Some (Some gi) =>
                         match nodes net2 !! gi with
                         | Some gn => gate gn c net2
                         | None => Throw "This node is not part of the network!"
                         end
                     | _ => Ok net2
                     end;
              connect_json jsons' net3
          end
      | _, _ => Throw "TypeError"
      end
  end.

(** [Network.from_JSON]; [w] are the weights the constructor draws for
    the connections that are then dropped. *)
Definition from_JSON (json : NetworkJSON) (w : nat -> Q) : result Network :=
  network ← Network_new (Some (json_input json)) (Some (json_output json)) w;
  let network :=
    set_connections [] (set_nodes [] (set_dropout (json_dropout json) network)) in
  connect_json (json_connections json) (push_nodes (json_nodes json) network).

(** A node has a self-connection of non-zero weight exactly when its
    self-connection object is listed in [selfconns]. *)
Definition selfconns_live (net : Network) : Prop :=
  Forall (fun n =>
            Qeq_bool (weight (conn_at net (conn_self (node_at net n)))) 0 = false
            <-> conn_self (node_at net n) ∈ selfconns net)
    (nodes net).

(** Every gater of a connection of the network is a node of the network. *)
Definition gaters_listed (net : Network) : Prop :=
  Forall (fun c => match gater (conn_at net c) with
                   | Some g => g ∈ nodes net
                   | None => True
                   end)
    (connections net ++ selfconns net).

Global Instance selfconns_live_dec net : Decision (selfconns_live net).
Proof. unfold selfconns_live. apply _. Defined.
Global Instance gaters_listed_dec net : Decision (gaters_listed net).
Proof.
  unfold gaters_listed. apply Forall_dec. intros c.
  destruct (gater (conn_at net c)); apply _.
Defined.

(** [net_2_1_2] after the mutation [SUB_NODE], and [new Network(2, 2)]
    after [ADD_SELF_CONN] and then [SUB_SELF_CONN]. *)
Definition net_2_1_2_sub_node : Network :=
  get_ok (mutate (Some (SUB_NODE true)) (const_draws (1 # 2)) net_2_1_2).

Definition net_2_2_self : Network :=
  get_ok (mutate (Some ADD_SELF_CONN) (const_draws (1 # 2)) net_2_2).

Definition net_2_2_unself : Network :=
  get_ok (mutate (Some SUB_SELF_CONN) (const_draws (1 # 2)) net_2_2_self).



(** Draws for [MOD_WEIGHT]: the last of six or seven connections, and the
    lowest modification, [min]. *)
Definition last_lowest : nat -> Q :=
  fun k => match k with O => (6 # 7)%Q | S _ => 0%Q end.

(** [net_2_1_2] after [ADD_SELF_CONN] has picked its hidden node (the node
    with id 4) three times, [MOD_WEIGHT] having brought the weight of the
    self-connection back to zero in between; and that network after
    [remove] of the hidden node. *)
Definition net_self_thrice : Network :=
  get_ok (mutate_all
            [(ADD_SELF_CONN, const_draws 0); (MOD_WEIGHT (-1) 1, last_lowest);
             (ADD_SELF_CONN, const_draws 0); (MOD_WEIGHT (-1) 1, last_lowest);
             (ADD_SELF_CONN, const_draws 0)]
            net_2_1_2).

Definition net_self_removed : Network :=
  get_ok (remove true 4%nat (const_draws (1 # 2)) net_self_thrice).



Definition net_m3_1 : Network :=
  get_ok (Network_new (Some (-3)) (Some 1) (const_draws (1 # 2))).


Definition capped_manager : Neat.t :=
  Neat.mk 0 10 2 0 true (4 # 10) 1 (Neat.POWER 4)
    [ADD_NODE false; ADD_CONN; ADD_GATE]
    false net_2_2 (Some 5%nat) (Some 6%nat) (Some 1%nat) (replicate 10 net_2_2).

(** A manager of three genomes with two provenance slots, in which every
    genome is mutated by [ADD_NODE]; and its state after one [evolve]. *)
Definition provenance_manager : Neat.t :=
  Neat.mk 0 3 0 2 true 1 1 (Neat.POWER 4) [ADD_NODE false]
    false net_2_2 None None None (replicate 3 net_2_2).

Definition provenance_evolved : Network * Neat.t :=
  match Neat.evolve example_fitness id cantor example_draws provenance_manager with
  | Ok r => r
  | Throw _ => (net_2_2, provenance_manager)
  end.

(** * Properties *)

(** ** Results and draws *)

Lemma bind_Ok {A B} (r : result A) (f : A -> result B) b :
  r ≫= f = Ok b -> exists a, r = Ok a /\ f a = Ok b.
Proof. destruct r as [a|m]; simpl; intros H; [eauto | discriminate]. Qed.



(** ** The object store *)

Lemma node_at_upd_node n f net m :
  node_at (upd_node n f net) m
  = if decide (n = m) then f (node_at net n) else node_at net m.
Proof.
  unfold node_at, upd_node. simpl.
  destruct (decide (n = m)) as [->|Hne].
  - apply lookup_total_insert_eq.
  - apply lookup_total_insert_ne. exact Hne.
Qed.

Lemma node_at_upd_node_eq n f net : node_at (upd_node n f net) n = f (node_at net n).
Proof. rewrite node_at_upd_node. destruct (decide (n = n)); congruence. Qed.

Lemma node_at_upd_node_ne n f net m :
  n ≠ m -> node_at (upd_node n f net) m = node_at net m.
Proof. intros H. rewrite node_at_upd_node. destruct (decide (n = m)); congruence. Qed.

Lemma conn_at_upd_node n f net c : conn_at (upd_node n f net) c = conn_at net c.
Proof. reflexivity. Qed.

Lemma node_at_upd_conn c f net n : node_at (upd_conn c f net) n = node_at net n.
Proof. reflexivity. Qed.

Lemma conn_at_upd_conn c f net c' :
  conn_at (upd_conn c f net) c'
  = if decide (c = c') then f (conn_at net c) else conn_at net c'.
Proof.
  unfold conn_at, upd_conn. simpl.
  destruct (decide (c = c')) as [->|Hne].
  - apply lookup_total_insert_eq.
  - apply lookup_total_insert_ne. exact Hne.
Qed.

Lemma conn_at_upd_conn_eq c f net : conn_at (upd_conn c f net) c = f (conn_at net c).
Proof. rewrite conn_at_upd_conn. destruct (decide (c = c)); congruence. Qed.

Lemma conn_at_upd_conn_ne c f net c' :
  c ≠ c' -> conn_at (upd_conn c f net) c' = conn_at net c'.
Proof. intros H. rewrite conn_at_upd_conn. destruct (decide (c = c')); congruence. Qed.

(** ** Array helpers *)

Lemma indexOf_Some {A} `{EqDecision A} (x : A) l i :
  indexOf x l = Some i -> l !! i = Some x /\ forall j, (j < i)%nat -> l !! j ≠ Some x.
Proof.
  revert i. induction l as [|y l IH]; intros i; simpl; [discriminate|].
  destruct (decide (x = y)) as [->|Hne].
  - intros [= <-]. split; [reflexivity | intros j Hj; lia].
  - destruct (indexOf x l) as [k|] eqn:Hk; simpl; [|discriminate].
    intros [= <-]. destruct (IH k eq_refl) as [H1 H2]. split; [exact H1|].
    intros [|j] Hj; simpl; [congruence | apply H2; lia].
Qed.

Lemma indexOf_None {A} `{EqDecision A} (x : A) l : indexOf x l = None <-> x ∉ l.
Proof.
  induction l as [|y l IH]; simpl.
  - split; [intros _ H; inversion H | reflexivity].
  - destruct (decide (x = y)) as [->|Hne].
    + split; [discriminate | intros H; exfalso; apply H; left].
    + destruct (indexOf x l) eqn:Hk; simpl.
      * split; [discriminate|]. intros H. exfalso. apply H. right.
        destruct (decide (x ∈ l)) as [Hin|Hnin]; [exact Hin|].
        apply IH in Hnin. discriminate.
      * split; [|reflexivity]. intros _ Hin.
        apply elem_of_cons in Hin as [->|Hin]; [congruence|].
        apply (proj1 IH eq_refl). exact Hin.
Qed.

Lemma indexOf_elem {A} `{EqDecision A} (x : A) l :
  x ∈ l -> exists i, indexOf x l = Some i.
Proof.
  intros H. destruct (indexOf x l) eqn:E; [eauto|].
  apply indexOf_None in E. contradiction.
Qed.

Lemma remove_first_elem {A} `{EqDecision A} (x y : A) l :
  y ∈ remove_first x l -> y ∈ l.
Proof.
  unfold remove_first. destruct (indexOf x l); [apply list_elem_of_delete_inv | auto].
Qed.

Lemma delete_NoDup {A} (l : list A) i : NoDup l -> NoDup (delete i l).
Proof. intros H. eapply sublist_NoDup; [exact H | apply sublist_delete]. Qed.

Lemma delete_elem_NoDup {A} (l : list A) i x y :
  NoDup l -> l !! i = Some x -> (y ∈ delete i l <-> y ∈ l /\ y ≠ x).
Proof.
  intros Hnd Hi.
  rewrite delete_take_drop.
  pose proof (take_drop_middle l i x Hi) as Hl.
  rewrite <- Hl in Hnd.
  apply NoDup_app in Hnd as (H1 & H2 & H3).
  apply NoDup_cons in H3 as [H3 H4].
  assert (Hy : y ∈ l <-> y ∈ take i l \/ y = x \/ y ∈ drop (S i) l).
  { rewrite <- Hl at 1. rewrite elem_of_app, elem_of_cons. reflexivity. }
  rewrite Hy, elem_of_app. split.
  - intros [Hin|Hin]; (split; [tauto|]); intros ->.
    + apply (H2 x Hin). left.
    + contradiction.
  - intros [[Hin|[->|Hin]] Hne]; [tauto | congruence | tauto].
Qed.

Lemma remove_first_elem_NoDup {A} `{EqDecision A} (x y : A) l :
  NoDup l -> (y ∈ remove_first x l <-> y ∈ l /\ y ≠ x).
Proof.
  intros Hnd. unfold remove_first. destruct (indexOf x l) as [i|] eqn:E.
  - apply indexOf_Some in E as [E _]. apply delete_elem_NoDup; assumption.
  - apply indexOf_None in E. split; [|tauto].
    intros Hy. split; [exact Hy | intros ->; contradiction].
Qed.

Lemma remove_first_NoDup {A} `{EqDecision A} (x : A) l :
  NoDup l -> NoDup (remove_first x l).
Proof. intros H. unfold remove_first. destruct (indexOf x l); [apply delete_NoDup|]; exact H. Qed.

(** ** States that show the same graph *)

Lemma graph_eq_refl net : graph_eq net net.
Proof. unfold graph_eq. repeat split. Qed.

Lemma graph_eq_trans n1 n2 n3 : graph_eq n1 n2 -> graph_eq n2 n3 -> graph_eq n1 n3.
Proof.
  unfold graph_eq.
  intros (A1&A2&A4&A5&A6&A7&A8&A9&A10&A11&A12&A13&A14&A15)
         (B1&B2&B4&B5&B6&B7&B8&B9&B10&B11&B12&B13&B14&B15).
  repeat split; congruence.
Qed.

Lemma graph_eq_upd_node n f net :
  (forall nd, type (f nd) = type nd /\ conn_in (f nd) = conn_in nd
              /\ conn_out (f nd) = conn_out nd /\ conn_self (f nd) = conn_self nd) ->
  graph_eq net (upd_node n f net).
Proof.
  intros Hf. unfold graph_eq. repeat split; try reflexivity; intros m;
    rewrite node_at_upd_node; destruct (decide (n = m)) as [->|]; try reflexivity;
    apply Hf.
Qed.

Lemma graph_eq_upd_conn c f net :
  (forall cn, from (f cn) = from cn /\ to (f cn) = to cn) ->
  graph_eq net (upd_conn c f net).
Proof.
  intros Hf. unfold graph_eq. repeat split; try reflexivity; intros c';
    rewrite conn_at_upd_conn; destruct (decide (c = c')) as [->|]; try reflexivity;
    apply Hf.
Qed.

Lemma graph_eq_set_gates g net : graph_eq net (set_gates g net).
Proof. unfold graph_eq. repeat split. Qed.

Lemma graph_eq_set_score s net : graph_eq net (set_score s net).
Proof. unfold graph_eq. repeat split. Qed.

Lemma Node_gate_graph_eq n c net : graph_eq net (Node_gate n c net).
Proof.
  unfold Node_gate.
  match goal with |- graph_eq _ (upd_conn _ _ ?x) => apply graph_eq_trans with x end.
  - apply graph_eq_upd_node. intros nd. repeat split.
  - apply graph_eq_upd_conn. intros cn. split; reflexivity.
Qed.

Lemma Node_ungate_graph_eq n c net : graph_eq net (Node_ungate n c net).
Proof.
  unfold Node_ungate.
  match goal with |- graph_eq _ (upd_conn _ _ ?x) => apply graph_eq_trans with x end.
  - apply graph_eq_upd_node. intros nd. repeat split.
  - apply graph_eq_upd_conn. intros cn. split; reflexivity.
Qed.

Lemma gate_graph_eq n c net net' : gate n c net = Ok net' -> graph_eq net net'.
Proof.
  unfold gate. destruct (indexOf n (nodes net)); [|discriminate].
  destruct (gater (conn_at net c)).
  - intros [= <-]. apply graph_eq_refl.
  - intros [= <-]. eapply graph_eq_trans; [apply Node_gate_graph_eq|].
    apply graph_eq_set_gates.
Qed.

Lemma ungate_graph_eq c net net' : ungate c net = Ok net' -> graph_eq net net'.
Proof.
  unfold ungate. destruct (indexOf c (gates net)); [|discriminate].
  destruct (gater (conn_at (set_gates _ net) c)); [|discriminate].
  intros [= <-]. eapply graph_eq_trans; [apply graph_eq_set_gates|].
  apply Node_ungate_graph_eq.
Qed.

Lemma graph_eq_wf net net' : graph_eq net net' -> wf net -> wf net'.
Proof.
  unfold graph_eq.
  intros (A1&A2&A4&A5&A6&A7&A8&A9&A10&A11&A12&A13&A14&A15) (W1&W2&W3&W4&W5).
  unfold wf. rewrite A1, A2. repeat split; try assumption.
  - erewrite map_ext; [exact W3|]. intros c. unfold pair_of. rewrite A8, A9. reflexivity.
  - eapply Forall_impl; [exact W4|]. intros c. unfold wf_conn.
    rewrite A1, A5, !A8, !A9, A11, A12. tauto.
  - eapply Forall_impl; [exact W5|]. intros n. unfold wf_node.
    rewrite A2, A4, A5, A11, A12, A13, A8, A9.
    intros (H1&H2&H3&H4&H5&H6&H7&H8). repeat split; try assumption.
    + eapply Forall_impl; [exact H1|]. intros c. simpl. rewrite A8. tauto.
    + eapply Forall_impl; [exact H3|]. intros c. simpl. rewrite A9. tauto.
Qed.

Lemma graph_eq_wf_selfconns net net' :
  graph_eq net net' -> selfconns net' = selfconns net ->
  wf_selfconns net -> wf_selfconns net'.
Proof.
  unfold graph_eq.
  intros (A1&A2&A4&A5&A6&A7&A8&A9&A10&A11&A12&A13&A14&A15) A3 (W1&W2).
  unfold wf_selfconns. rewrite A3. split; [exact W1|].
  eapply Forall_impl; [exact W2|]. intros c. simpl. rewrite A1, A8, A13. tauto.
Qed.

Lemma graph_eq_detached node net net' :
  graph_eq net net' -> selfconns net' = selfconns net ->
  detached node net -> detached node net'.
Proof.
  unfold graph_eq.
  intros (A1&A2&A4&A5&A6&A7&A8&A9&A10&A11&A12&A13&A14&A15) A3 H c.
  rewrite A2, A3, A8, A9. apply H.
Qed.

Lemma graph_eq_partitioned net net' :
  graph_eq net net' -> partitioned net -> partitioned net'.
Proof.
  unfold graph_eq.
  intros (A1&A2&A4&A5&A6&A7&A8&A9&A10&A11&A12&A13&A14&A15) H i n.
  unfold zlength. rewrite A1, A6, A7, A10. apply H.
Qed.

Lemma gate_selfconns n c net net' : gate n c net = Ok net' -> selfconns net' = selfconns net.
Proof.
  unfold gate. destruct (indexOf n (nodes net)); [|discriminate].
  destruct (gater (conn_at net c)); intros [= <-]; reflexivity.
Qed.

Lemma ungate_selfconns c net net' : ungate c net = Ok net' -> selfconns net' = selfconns net.
Proof.
  unfold ungate. destruct (indexOf c (gates net)); [|discriminate].
  destruct (gater (conn_at (set_gates _ net) c)); [|discriminate].
  intros [= <-]. reflexivity.
Qed.


(** Field updates do not move objects. *)

Lemma conn_at_set_nodes v net c : conn_at (set_nodes v net) c = conn_at net c.
Proof. reflexivity. Qed.

Lemma node_at_set_nodes v net n : node_at (set_nodes v net) n = node_at net n.
Proof. reflexivity. Qed.

Lemma conn_at_set_connections v net c : conn_at (set_connections v net) c = conn_at net c.
Proof. reflexivity. Qed.

Lemma node_at_set_connections v net n : node_at (set_connections v net) n = node_at net n.
Proof. reflexivity. Qed.

Lemma conn_at_set_gates v net c : conn_at (set_gates v net) c = conn_at net c.
Proof. reflexivity. Qed.

Lemma node_at_set_gates v net n : node_at (set_gates v net) n = node_at net n.
Proof. reflexivity. Qed.

Lemma conn_at_set_selfconns v net c : conn_at (set_selfconns v net) c = conn_at net c.
Proof. reflexivity. Qed.

Lemma node_at_set_selfconns v net n : node_at (set_selfconns v net) n = node_at net n.
Proof. reflexivity. Qed.

Lemma conn_at_set_node_store v net c : conn_at (set_node_store v net) c = conn_at net c.
Proof. reflexivity. Qed.

Lemma node_at_set_conn_store v net n : node_at (set_conn_store v net) n = node_at net n.
Proof. reflexivity. Qed.

Lemma conn_at_set_next_node v net c : conn_at (set_next_node v net) c = conn_at net c.
Proof. reflexivity. Qed.

Lemma node_at_set_next_node v net n : node_at (set_next_node v net) n = node_at net n.
Proof. reflexivity. Qed.

Lemma conn_at_set_next_conn v net c : conn_at (set_next_conn v net) c = conn_at net c.
Proof. reflexivity. Qed.

Lemma node_at_set_next_conn v net n : node_at (set_next_conn v net) n = node_at net n.
Proof. reflexivity. Qed.

Lemma conn_at_set_score v net c : conn_at (set_score v net) c = conn_at net c.
Proof. reflexivity. Qed.

Lemma node_at_set_score v net n : node_at (set_score v net) n = node_at net n.
Proof. reflexivity. Qed.

Lemma conn_at_set_dropout v net c : conn_at (set_dropout v net) c = conn_at net c.
Proof. reflexivity. Qed.

Lemma node_at_set_dropout v net n : node_at (set_dropout v net) n = node_at net n.
Proof. reflexivity. Qed.

Lemma conn_at_set_conn_store m net c : conn_at (set_conn_store m net) c = m !!! c.
Proof. reflexivity. Qed.
Lemma node_at_set_node_store m net n : node_at (set_node_store m net) n = m !!! n.
Proof. reflexivity. Qed.
Lemma conn_at_Connection_new a b w net c :
  conn_at (Connection_new a b w net).2 c
  = if decide (next_conn net = c) then mkConnection a b w None else conn_at net c.
Proof.
  unfold Connection_new, conn_at. simpl.
  destruct (decide (next_conn net = c)) as [->|Hne].
  - apply lookup_total_insert_eq.
  - apply lookup_total_insert_ne. exact Hne.
Qed.
Lemma node_at_Connection_new a b w net n :
  node_at (Connection_new a b w net).2 n = node_at net n.
Proof. reflexivity. Qed.

Create Rewrite HintDb store.
#[global] Hint Rewrite conn_at_set_nodes node_at_set_nodes conn_at_set_connections node_at_set_connections conn_at_set_gates node_at_set_gates conn_at_set_selfconns node_at_set_selfconns conn_at_set_node_store node_at_set_conn_store conn_at_set_next_node node_at_set_next_node conn_at_set_next_conn node_at_set_next_conn conn_at_set_score node_at_set_score conn_at_set_dropout node_at_set_dropout conn_at_set_conn_store node_at_set_node_store conn_at_Connection_new node_at_Connection_new node_at_upd_node conn_at_upd_node node_at_upd_conn conn_at_upd_conn : store.


Ltac case_dec :=
  repeat match goal with
         | |- context [decide ?P] => destruct (decide P); simpl
         end.

Ltac store_simp :=
  repeat (autorewrite with store; simpl);
  rewrite ?lookup_total_insert;
  repeat match goal with
         | |- context [decide (?x = ?y)] => destruct (decide (x = y)); subst; simpl
         end;
  try congruence; try reflexivity.

(** ** Connecting two distinct nodes *)

Lemma connect_ordinary a b w net :
  a ≠ b -> Node_isProjectingTo a b net = false ->
  exists net',
    connect a b w net = Ok (net', [next_conn net])
    /\ added a b (next_conn net) net net'
    /\ selfconns net' = selfconns net
    /\ gates net' = gates net
    /\ weight (conn_at net' (next_conn net)) = default default_weight w
    /\ gater (conn_at net' (next_conn net)) = None
    /\ (forall c, c ≠ next_conn net -> conn_at net' c = conn_at net c).
Proof.
  intros Hab Hproj. unfold connect, Node_connect.
  destruct (decide (a = b)) as [|_]; [contradiction|]. rewrite Hproj. simpl.
  destruct (decide (a = b)) as [|_]; [contradiction|].
  eexists. split; [reflexivity|].
  split; [|split; [reflexivity|split; [reflexivity|]]].
  - unfold added. repeat split; try reflexivity; intros x; store_simp.
  - repeat split; try intros x Hx; store_simp.
Qed.

Lemma wf_conn_lt net c : wf net -> c ∈ connections net -> (c < next_conn net)%nat.
Proof.
  intros (_&_&_&W4&_) Hc. rewrite Forall_forall in W4. apply W4 in Hc.
  unfold wf_conn in Hc. tauto.
Qed.

Lemma added_wf a b net net' :
  wf net -> a ∈ nodes net -> b ∈ nodes net -> a ≠ b ->
  (a, b) ∉ map (pair_of net) (connections net) ->
  added a b (next_conn net) net net' -> wf net'.
Proof.
  intros W Ha Hb Hab Hpair (A1&A2&A4&A5&A6&A7&A8&A9&A10&A11&A12&A13&A14&A15).
  pose proof (fun c => wf_conn_lt net c W) as Hlt.
  destruct W as (W1&W2&W3&W4&W5).
  assert (Hfresh : next_conn net ∉ connections net).
  { intros H. apply Hlt in H. lia. }
  assert (Hold : forall c, c ∈ connections net -> pair_of net' c = pair_of net c).
  { intros c Hc. unfold pair_of. rewrite A8, A9.
    destruct (decide (c = next_conn net)); [subst; contradiction | reflexivity]. }
  assert (Hnew : pair_of net' (next_conn net) = (a, b)).
  { unfold pair_of. rewrite A8, A9.
    destruct (decide (next_conn net = next_conn net)); congruence. }
  rewrite Forall_forall in W4, W5.
  unfold wf. rewrite A1, A2. repeat split.
  - exact W1.
  - apply NoDup_app. repeat split; [exact W2| |apply NoDup_singleton].
    intros x Hx Hx'. apply list_elem_of_singleton in Hx'. subst. contradiction.
  - rewrite map_app. simpl. apply NoDup_app. repeat split.
    + erewrite map_ext_in; [exact W3|]. intros c Hc. apply Hold.
      apply list_elem_of_In. exact Hc.
    + intros p Hp Hp'. apply list_elem_of_singleton in Hp'. subst p.
      rewrite Hnew in Hp. apply Hpair. erewrite map_ext_in; [exact Hp|]. intros c Hc. symmetry. apply Hold.
      apply list_elem_of_In. exact Hc.
    + apply NoDup_singleton.
  - apply Forall_app. split.
    + apply Forall_forall. intros c Hc. specialize (W4 c Hc).
      destruct W4 as (H1&H2&H3&H4&H5&H6).
      unfold wf_conn. rewrite A1, A5, !A8, !A9, A11, A12.
      destruct (decide (c = next_conn net)); [subst; contradiction|].
      repeat split; try assumption.
      * destruct (decide (from (conn_at net c) = a)); [apply elem_of_app; left|]; assumption.
      * destruct (decide (to (conn_at net c) = b)); [apply elem_of_app; left|]; assumption.
      * lia.
    + apply Forall_singleton. unfold wf_conn. rewrite A1, A5, !A8, !A9, A11, A12.
      destruct (decide (next_conn net = next_conn net)); [|congruence].
      destruct (decide (a = a)); [|congruence]. destruct (decide (b = b)); [|congruence].
      repeat split; try assumption; try (apply elem_of_app; right; apply list_elem_of_singleton; reflexivity).
      lia.
  - apply Forall_forall. intros n Hn. specialize (W5 n Hn).
    destruct W5 as (H1&H2&H3&H4&H5&H6&H7&H8).
    rewrite Forall_forall in H1, H3.
    assert (Hself : conn_self (node_at net n) ≠ next_conn net) by lia.
    unfold wf_node. rewrite A2, A4, A5, A11, A12, A13, A8, A9.
    destruct (decide (conn_self (node_at net n) = next_conn net)); [contradiction|].
    repeat split; try assumption; try lia.
    + apply Forall_forall. intros c Hc. rewrite A8.
      destruct (decide (n = a)) as [->|].
      * apply elem_of_app in Hc as [Hc|Hc].
        -- destruct (H1 c Hc) as [Hc1 Hc2].
           destruct (decide (c = next_conn net)); [subst; contradiction|].
           split; [apply elem_of_app; left; exact Hc1 | exact Hc2].
        -- apply list_elem_of_singleton in Hc. subst c.
           destruct (decide (next_conn net = next_conn net)); [|congruence].
           split; [apply elem_of_app; right; apply list_elem_of_singleton|]; reflexivity.
      * destruct (H1 c Hc) as [Hc1 Hc2].
        destruct (decide (c = next_conn net)); [subst; contradiction|].
        split; [apply elem_of_app; left; exact Hc1 | exact Hc2].
    + destruct (decide (n = a)); [|exact H2].
      apply NoDup_app. repeat split; [exact H2| |apply NoDup_singleton].
      intros x Hx Hx'. apply list_elem_of_singleton in Hx'. subst x.
      apply Hfresh. apply H1. exact Hx.
    + apply Forall_forall. intros c Hc. rewrite A9.
      destruct (decide (n = b)) as [->|].
      * apply elem_of_app in Hc as [Hc|Hc].
        -- destruct (H3 c Hc) as [Hc1 Hc2].
           destruct (decide (c = next_conn net)); [subst; contradiction|].
           split; [apply elem_of_app; left; exact Hc1 | exact Hc2].
        -- apply list_elem_of_singleton in Hc. subst c.
           destruct (decide (next_conn net = next_conn net)); [|congruence].
           split; [apply elem_of_app; right; apply list_elem_of_singleton|]; reflexivity.
      * destruct (H3 c Hc) as [Hc1 Hc2].
        destruct (decide (c = next_conn net)); [subst; contradiction|].
        split; [apply elem_of_app; left; exact Hc1 | exact Hc2].
    + destruct (decide (n = b)); [|exact H4].
      apply NoDup_app. repeat split; [exact H4| |apply NoDup_singleton].
      intros x Hx Hx'. apply list_elem_of_singleton in Hx'. subst x.
      apply Hfresh. apply H3. exact Hx.
Qed.

Lemma wf_node_of net n : wf net -> n ∈ nodes net -> wf_node net n.
Proof. intros (_&_&_&_&W5) Hn. rewrite Forall_forall in W5. auto. Qed.

Lemma wf_conn_of net c : wf net -> c ∈ connections net -> wf_conn net c.
Proof. intros (_&_&_&W4&_) Hn. rewrite Forall_forall in W4. auto. Qed.

Lemma pair_of_inj net c1 c2 :
  wf net -> c1 ∈ connections net -> c2 ∈ connections net ->
  pair_of net c1 = pair_of net c2 -> c1 = c2.
Proof.
  intros (_&_&W3&_&_) H1 H2 He.
  apply list_elem_of_lookup in H1 as [i Hi]. apply list_elem_of_lookup in H2 as [j Hj].
  assert (i = j).
  { eapply NoDup_lookup; [exact W3| |].
    - rewrite list_lookup_fmap, Hi. reflexivity.
    - rewrite list_lookup_fmap, Hj. simpl. rewrite He. reflexivity. }
  subst. congruence.
Qed.

Lemma projecting_iff a b net :
  wf net -> a ∈ nodes net -> a ≠ b ->
  Node_isProjectingTo a b net = true <-> (a, b) ∈ map (pair_of net) (connections net).
Proof.
  intros W Ha Hab. unfold Node_isProjectingTo.
  rewrite bool_decide_eq_false_2 by exact Hab. simpl.
  pose proof (wf_node_of net a W Ha) as (H1&_).
  rewrite Forall_forall in H1.
  rewrite existsb_exists. split.
  - intros (c & Hc & Hto). apply bool_decide_eq_true in Hto.
    apply list_elem_of_In in Hc. destruct (H1 c Hc) as [Hc1 Hc2].
    apply list_elem_of_fmap. exists c. split; [|exact Hc1].
    unfold pair_of. congruence.
  - intros Hin. apply list_elem_of_fmap in Hin as (c & Hp & Hc).
    unfold pair_of in Hp. injection Hp as Hf Ht.
    pose proof (wf_conn_of net c W Hc) as (_&_&_&Hout&_).
    exists c. split; [apply list_elem_of_In; congruence|].
    apply bool_decide_eq_true. congruence.
Qed.

(** ** The constructor *)

Lemma create_nodes_fresh i o k :
  fresh_nodes i o k
    (fold_left
       (fun net j =>
          let ty := if Z.of_nat j <? input_size net then Input else Output in
          let '(n, net') := Node_new ty net in
          set_nodes (nodes net' ++ [n]) net')
       (seq 0 k) (mkNetwork i o i o [] [] [] [] 0 None ∅ ∅ 0%nat 0%nat)).
Proof.
  induction k as [|k IH].
  - simpl. unfold fresh_nodes. simpl. repeat split; try reflexivity; intros; lia.
  - rewrite seq_S, fold_left_app. simpl.
    set (net := fold_left _ (seq 0 k) _) in *.
    destruct IH as (A1&A2&A3&A4&A5&A6&A7&A8&A9&A10&A11).
    unfold fresh_nodes. unfold Node_new, Connection_new. simpl.
    rewrite A1, A2, A3, A7. repeat split; try assumption; try reflexivity.
    + change (0%nat :: seq 1 k) with (seq 0 (S k)). rewrite seq_S. reflexivity.
    + unfold node_at. simpl. rewrite lookup_total_insert.
      match goal with |- context [decide ?P] => destruct (decide P) as [<-|Hd] end;
        [reflexivity|]. apply A11. lia.
    + unfold conn_at. simpl. rewrite lookup_total_insert.
      match goal with |- context [decide ?P] => destruct (decide P) as [<-|Hd] end;
        [reflexivity|]. apply A11. lia.
Qed.

Lemma fresh_nodes_constructing i o net :
  fresh_nodes i o (Z.to_nat (i + o)) net -> constructing i o [] [] net.
Proof.
  intros (A1&A2&A3&A4&A5&A6&A7&A8&A9&A10&A11).
  unfold constructing. rewrite A4. repeat split; try assumption; try reflexivity.
  - rewrite A1. apply NoDup_seq.
  - rewrite A4. apply NoDup_nil_2.
  - rewrite A4. simpl. apply NoDup_nil_2.
  - rewrite A4. apply Forall_nil_2.
  - rewrite A1. apply Forall_forall. intros j Hj. apply elem_of_seq in Hj.
    destruct (A11 j ltac:(lia)) as [Hn Hc].
    unfold wf_node. rewrite Hn. simpl. rewrite Hc, A2, A3. simpl.
    repeat split; try apply Forall_nil_2; try apply NoDup_nil_2; lia.
  - intros j Hj. destruct (A11 j Hj) as [Hn _]. rewrite Hn. reflexivity.
Qed.

Lemma connect_all_spec i o w ps : forall done ws k net,
  constructing i o done ws net ->
  NoDup (done ++ ps) ->
  (forall a b, (a, b) ∈ ps -> (a < Z.to_nat (i + o))%nat /\ (b < Z.to_nat (i + o))%nat /\ a ≠ b) ->
  exists net', connect_all ps w k net = Ok net'
    /\ constructing i o (done ++ ps) (ws ++ map w (seq k (length ps))) net'.
Proof.
  induction ps as [|[a b] ps IH]; intros done ws k net Hc Hnd Hps.
  - exists net. simpl. rewrite !app_nil_r. split; [reflexivity | exact Hc].
  - destruct Hc as (A1&A2&A3&A4&A5&A6&A7&A8&A9&A10&A11).
    destruct (Hps a b ltac:(left)) as (Ha & Hb & Hab).
    simpl. rewrite A1.
    rewrite !lookup_seq_lt by lia. simpl.
    assert (Han : a ∈ nodes net) by (rewrite A1; apply elem_of_seq; lia).
    assert (Hbn : b ∈ nodes net) by (rewrite A1; apply elem_of_seq; lia).
    assert (Hnp : (a, b) ∉ map (pair_of net) (connections net)).
    { rewrite A4. apply NoDup_app in Hnd as (_ & Hnd & _).
      intros Hin. apply (Hnd _ Hin). left. }
    assert (Hproj : Node_isProjectingTo a b net = false).
    { destruct (Node_isProjectingTo a b net) eqn:E; [|reflexivity].
      apply projecting_iff in E; try assumption. contradiction. }
    destruct (connect_ordinary a b (Some (w k)) net Hab Hproj)
      as (net1 & Hconn & Hadd & Hs & Hg & Hw & Hgt & Hother).
    rewrite Hconn. simpl.
    pose proof (added_wf a b net net1 A2 Han Hbn Hab Hnp Hadd) as Hwf1.
    pose proof (wf_conn_lt net) as Hlt.
    destruct Hadd as (B1&B2&B4&B5&B6&B7&B8&B9&B10&B11&B12&B13&B14&B15).
    destruct (IH (done ++ [(a, b)]) (ws ++ [w k]) (S k) net1) as (net' & Hres & Hc').
    + unfold constructing. split_and!; try congruence; try exact Hwf1.
      * intros j Hj. rewrite B10. apply A3. exact Hj.
      * rewrite B2, map_app. simpl. f_equal.
        -- rewrite <- A4. apply map_ext_in. intros c Hc. unfold pair_of. rewrite B8, B9.
           apply list_elem_of_In in Hc. apply Hlt in Hc; [|exact A2].
           case_dec; [lia | reflexivity].
        -- unfold pair_of. rewrite B8, B9.
           case_dec; done.
      * rewrite B2, map_app. simpl. f_equal.
        -- rewrite <- A5. apply map_ext_in. intros c Hc.
           apply list_elem_of_In in Hc. apply Hlt in Hc; [|exact A2].
           rewrite Hother by lia. reflexivity.
        -- rewrite Hw. reflexivity.
    + rewrite <- app_assoc. exact Hnd.
    + intros a' b' Hin. apply Hps. right. exact Hin.
    + exists net'. split; [exact Hres|].
      rewrite <- !app_assoc in Hc'. exact Hc'.
Qed.

Lemma io_pairs_elem i o a b :
  (a, b) ∈ io_pairs i o <->
  (a < Z.to_nat i)%nat /\ (Z.to_nat i <= b)%nat /\ (b < Z.to_nat i + Z.to_nat o)%nat.
Proof.
  unfold io_pairs. rewrite list_elem_of_bind. split.
  - intros (x & Hx & Hx'). apply list_elem_of_bind in Hx as (y & Hy & Hy').
    apply list_elem_of_singleton in Hy. injection Hy as -> ->.
    apply elem_of_seq in Hx', Hy'. lia.
  - intros (Ha & Hb1 & Hb2). exists a. split; [|apply elem_of_seq; lia].
    apply list_elem_of_bind. exists b. split; [apply list_elem_of_singleton; reflexivity|].
    apply elem_of_seq. lia.
Qed.

Lemma io_pairs_NoDup i o : NoDup (io_pairs i o).
Proof.
  unfold io_pairs. apply NoDup_bind.
  - intros x1 x2 [a b] _ _ H1 H2.
    apply list_elem_of_bind in H1 as (y1 & Hy1 & _), H2 as (y2 & Hy2 & _).
    apply list_elem_of_singleton in Hy1, Hy2. congruence.
  - intros x _. apply NoDup_bind.
    + intros y1 y2 [a b] _ _ H1 H2. apply list_elem_of_singleton in H1, H2. congruence.
    + intros y _. apply NoDup_singleton.
    + apply NoDup_seq.
  - apply NoDup_seq.
Qed.

Lemma bind_length_const {A B} (f : A -> list B) (l : list A) k :
  (forall x, length (f x) = k) -> length (l ≫= f) = (length l * k)%nat.
Proof.
  intros Hf. induction l as [|x l IH]; [reflexivity|].
  rewrite bind_cons, length_app, IH, Hf. simpl. reflexivity.
Qed.

Lemma io_pairs_length i o : length (io_pairs i o) = (Z.to_nat i * Z.to_nat o)%nat.
Proof.
  unfold io_pairs. rewrite (bind_length_const _ _ (Z.to_nat o)).
  - rewrite length_seq. reflexivity.
  - intros a. rewrite (bind_length_const _ _ 1%nat); [|reflexivity].
    rewrite length_seq. lia.
Qed.

Lemma Network_new_spec i o w :
  exists net, Network_new (Some i) (Some o) w = Ok net
    /\ constructing i o (io_pairs i o) (map w (seq 0 (length (io_pairs i o)))) net.
Proof.
  unfold Network_new, create_nodes. simpl.
  pose proof (create_nodes_fresh i o (Z.to_nat (i + o))) as Hf.
  apply fresh_nodes_constructing in Hf.
  destruct (connect_all_spec i o w (io_pairs i o) [] [] 0%nat _ Hf) as (net' & Hr & Hc).
  - simpl. apply io_pairs_NoDup.
  - intros a b Hab. apply io_pairs_elem in Hab. lia.
  - exists net'. split; [exact Hr | exact Hc].
Qed.

(** C4, as amended: the constructor throws when one of the two sizes is
    [undefined], and returns for every pair of integer sizes, zero and
    negative ones included, with [max(0, input_size + output_size)]
    nodes. *)
Theorem Network_new_guard (w : nat -> Q) :
  (forall i o, i = None \/ o = None ->
     Network_new i o w = Throw "No input or output size given")
  /\ (forall i o : Z, exists net,
        Network_new (Some i) (Some o) w = Ok net
        /\ length (nodes net) = Z.to_nat (i + o)).
Proof.
  split.
  - intros i o [->| ->]; [|destruct i]; reflexivity.
  - intros i o. destruct (Network_new_spec i o w) as (net & Hr & Hc).
    exists net. split; [exact Hr|]. destruct Hc as (-> & _). apply length_seq.
Qed.

(** C4, the claim as stated fails: [new Network(0, 1)] and
    [new Network(2, -1)] return a network (of one node each). *)
Lemma Network_new_nonpositive_sizes :
  (exists net, Network_new (Some 0) (Some 1) (const_draws (1 # 2)) = Ok net
               /\ length (nodes net) = 1%nat)
  /\ (exists net, Network_new (Some 2) (Some (-1)) (const_draws (1 # 2)) = Ok net
                  /\ length (nodes net) = 1%nat).
Proof. split; eexists; (split; [vm_compute; reflexivity | reflexivity]). Qed.

(** C10, as amended: [clone] builds a new network from the two sizes
    alone. The clone has [max(0, input_size + output_size)] nodes, typed as
    the constructor types them (none hidden), one connection from every
    input to every output whose weights are the fresh draws [w 0], [w 1],
    ..., no self-connection and no gate; and any network of the same sizes
    has the same clone, so nothing else of [N] is copied. *)
Theorem clone_from_sizes (N : Network) (w : nat -> Q) :
  input N = input_size N -> output N = output_size N ->
  exists net, clone N w = Ok net
    /\ length (nodes net) = Z.to_nat (input_size N + output_size N)
    /\ nodes net = seq 0 (length (nodes net))
    /\ (forall j, (j < length (nodes net))%nat ->
          type (node_at net j) = initial_type (input_size N) j)
    /\ map (pair_of net) (connections net) = io_pairs (input_size N) (output_size N)
    /\ map (fun c => weight (conn_at net c)) (connections net)
       = map w (seq 0 (length (connections net)))
    /\ selfconns net = [] /\ gates net = []
    /\ (forall N', input N' = input N -> output N' = output N -> clone N' w = Ok net).
Proof.
  intros Hi Ho. unfold clone. rewrite Hi, Ho.
  destruct (Network_new_spec (input_size N) (output_size N) w) as (net & Hr & Hc).
  destruct Hc as (A1&A2&A3&A4&A5&A6&A7&A8&A9&A10&A11).
  assert (Hlen : length (nodes net) = Z.to_nat (input_size N + output_size N)).
  { rewrite A1. apply length_seq. }
  exists net. split_and!; try assumption.
  - rewrite Hlen. exact A1.
  - intros j Hj. apply A3. rewrite <- Hlen. exact Hj.
  - rewrite A5. f_equal. f_equal. rewrite <- A4. rewrite length_map. reflexivity.
  - intros N' Hi' Ho'. unfold clone. rewrite Hi', Ho'. exact Hr.
Qed.

(** A network of five nodes, one of them hidden, whose clone has four
    nodes and no hidden one. *)
Lemma clone_from_sizes_witness :
  length (nodes net_2_1_2) = 5%nat
  /\ exists net, clone net_2_1_2 (const_draws (1 # 3)) = Ok net
    /\ length (nodes net) = Z.to_nat (input_size net_2_1_2 + output_size net_2_1_2)
    /\ nodes net = seq 0 (length (nodes net))
    /\ (forall j, (j < length (nodes net))%nat ->
          type (node_at net j) = initial_type (input_size net_2_1_2) j)
    /\ map (pair_of net) (connections net)
       = io_pairs (input_size net_2_1_2) (output_size net_2_1_2)
    /\ map (fun c => weight (conn_at net c)) (connections net)
       = map (const_draws (1 # 3)) (seq 0 (length (connections net)))
    /\ selfconns net = [] /\ gates net = []
    /\ (forall N', input N' = input net_2_1_2 -> output N' = output net_2_1_2 ->
          clone N' (const_draws (1 # 3)) = Ok net).
Proof.
  split; [reflexivity|].
  apply (clone_from_sizes net_2_1_2 (const_draws (1 # 3))); reflexivity.
Defined.

(** C10, the claim as stated fails: the clone of [new Network(-3, 1)] has
    no node, where [input_size + output_size] is [-2]. *)
Lemma clone_negative_sizes :
  input net_m3_1 = input_size net_m3_1 /\ output net_m3_1 = output_size net_m3_1
  /\ input_size net_m3_1 + output_size net_m3_1 = -2
  /\ exists net, clone net_m3_1 (const_draws (1 # 3)) = Ok net /\ nodes net = [].
Proof.
  split_and!; try (vm_compute; reflexivity).
  eexists. split; vm_compute; reflexivity.
Qed.

(** ** SWAP_NODES *)

(** What the code does: candidates are returned exactly when the early
    test lets three nodes through and at least two nodes are eligible. *)
Lemma possible_SWAP_NODES_iff (mutateOutput : bool) (net : Network) :
  (exists l, possible (SWAP_NODES mutateOutput) net = Ok (Some (CNodes l)))
  <-> 3 <= zlength (nodes net) - input_size net
           - (if mutateOutput then 0 else output_size net)
      /\ (2 <= length (List.filter (eligible mutateOutput net) (nodes net)))%nat.
Proof.
  unfold possible, zlength.
  destruct (Z.ltb_spec
              (Z.of_nat (length (nodes net)) - 1 - input_size net
               - (if mutateOutput then 0 else output_size net)) 2) as [Hlt|Hge].
  - split; [intros [l Hl]; discriminate | intros [H _]; lia].
  - destruct (Z.leb_spec 2
                (Z.of_nat (length (List.filter (eligible mutateOutput net) (nodes net)))))
      as [H2|H2].
    + split; [intros _; split; lia | intros _; eexists; reflexivity].
    + split; [intros [l Hl]; discriminate | intros [_ H]; lia].
Qed.

(** C7, the failing input: [new Network(1, 2)] with output mutation
    allowed has two eligible nodes (its two output nodes), and
    [possible(SWAP_NODES)] reports [false]. *)
Theorem possible_SWAP_NODES_two_eligible :
  List.filter (eligible true net_1_2) (nodes net_1_2) = [1%nat; 2%nat]
  /\ possible (SWAP_NODES true) net_1_2 = Ok None
  /\ mutate (Some (SWAP_NODES true)) (const_draws 0) net_1_2 = Ok net_1_2.
Proof. split_and!; vm_compute; reflexivity. Qed.

(** ** serialize *)

(** C1, the failing input: on [new Network(1, 1)], whose output node has
    an incoming connection, [serialize] ends in a [TypeError]. *)
Theorem serialize_Network_1_1_throws :
  conn_in (node_at net_1_1 1%nat) = [2%nat]
  /\ serialize net_1_1 = Throw "TypeError".
Proof. split; vm_compute; reflexivity. Qed.

(** ** activate *)

Lemma Node_activate_type F v n net m :
  type (node_at (Node_activate F v n net).1 m) = type (node_at net m).
Proof.
  unfold Node_activate. destruct v; simpl; rewrite node_at_upd_node; case_dec; subst;
    reflexivity.
Qed.

Lemma activate_from_ok F ns : forall net0 i arr training rnd k out net,
  (forall n, type (node_at net n) = type (node_at net0 n)) ->
  exists net' out',
    activate_from F ns i (Some arr) training rnd k out net = Ok (net', out')
    /\ length out'
       = (length out
          + length (List.filter (fun n => bool_decide (type (node_at net0 n) = Output)) ns))%nat.
Proof.
  induction ns as [|n ns IH]; intros net0 i arr training rnd k out net Hty.
  - exists net, out. split; [reflexivity | simpl; lia].
  - cbn [activate_from List.filter]. rewrite <- (Hty n).
    destruct (type (node_at net n)) eqn:Ety.
    + pose proof (Node_activate_type F (arr !! i) n net) as Ht.
      destruct (Node_activate F (arr !! i) n net) as [net1 a]. simpl in Ht.
      destruct (IH net0 (S i) arr training rnd k out net1) as (net' & out' & Hr & Hl).
      { intros m. rewrite Ht. apply Hty. }
      exists net', out'. split; [exact Hr|]. rewrite Hl.
      rewrite bool_decide_eq_false_2 by discriminate. reflexivity.
    + match goal with |- context [Node_activate F None n ?x] => set (net1 := x) end.
      assert (Hty1 : forall m, type (node_at net1 m) = type (node_at net0 m)).
      { intros m. unfold net1. destruct training; [|apply Hty].
        rewrite node_at_upd_node. case_dec; subst; apply Hty. }
      pose proof (Node_activate_type F None n net1) as Ht.
      destruct (Node_activate F None n net1) as [net2 a]. simpl in Ht.
      destruct (IH net0 (S i) arr training rnd (if training then S k else k) out net2)
        as (net' & out' & Hr & Hl).
      { intros m. rewrite Ht. apply Hty1. }
      exists net', out'. split; [exact Hr|]. rewrite Hl.
      rewrite bool_decide_eq_false_2 by discriminate. reflexivity.
    + pose proof (Node_activate_type F None n net) as Ht.
      destruct (Node_activate F None n net) as [net1 a]. simpl in Ht.
      destruct (IH net0 (S i) arr training rnd k (out ++ [a]) net1)
        as (net' & out' & Hr & Hl).
      { intros m. rewrite Ht. apply Hty. }
      exists net', out'. split; [exact Hr|]. rewrite Hl, length_app.
      rewrite bool_decide_eq_true_2 by reflexivity. simpl. lia.
    + match goal with |- context [Node_activate F None n ?x] => set (net1 := x) end.
      assert (Hty1 : forall m, type (node_at net1 m) = type (node_at net0 m)).
      { intros m. unfold net1. destruct training; [|apply Hty].
        rewrite node_at_upd_node. case_dec; subst; apply Hty. }
      pose proof (Node_activate_type F None n net1) as Ht.
      destruct (Node_activate F None n net1) as [net2 a]. simpl in Ht.
      destruct (IH net0 (S i) arr training rnd (if training then S k else k) out net2)
        as (net' & out' & Hr & Hl).
      { intros m. rewrite Ht. apply Hty1. }
      exists net', out'. split; [exact Hr|]. rewrite Hl.
      rewrite bool_decide_eq_false_2 by discriminate. reflexivity.
Qed.

(** C3, as the code has it: [activate] makes no check of [input.length].
    For every network and every input array, of whatever length, it
    returns, and its result holds one activation per output node. *)
Theorem activate_any_length (F : Squash -> Q -> Q) (net : Network) (input : list Q)
  (training : bool) (rnd : nat -> Q) :
  exists net' out,
    activate F (Some input) training rnd net = Ok (net', out)
    /\ length out = output_count net.
Proof.
  unfold activate, output_count.
  destruct (activate_from_ok F (nodes net) net 0%nat input training rnd 0%nat [] net)
    as (net' & out & Hr & Hl); [reflexivity|].
  exists net', out. split; [exact Hr | exact Hl].
Qed.

(** C3, the claim as stated fails: [new Network(1, 1)] activated with an
    empty input, and with an input of three entries, returns one output
    value. *)
Lemma activate_wrong_length_returns :
  input_size net_1_1 = 1
  /\ (exists net' v, activate (fun _ x => x) (Some []) false (const_draws 0) net_1_1
                     = Ok (net', [v]))
  /\ (exists net' v, activate (fun _ x => x) (Some [1; 2; 3]%Q) false (const_draws 0) net_1_1
                     = Ok (net', [v])).
Proof. split_and!; [reflexivity | |]; do 2 eexists; vm_compute; reflexivity. Qed.

(** ** The generational loop *)

Lemma insert_by_score_perm x l : Neat.insert_by_score x l ≡ₚ x :: l.
Proof.
  induction l as [|y l IH]; simpl; [reflexivity|].
  destruct (Neat.score_lt x y); [|reflexivity].
  rewrite IH. apply Permutation_swap.
Qed.

Lemma sort_by_score_perm l : Neat.sort_by_score l ≡ₚ l.
Proof.
  induction l as [|x l IH]; simpl; [reflexivity|].
  rewrite insert_by_score_perm, IH. reflexivity.
Qed.







(** The two provenance slots hold one object: the copy of the template
    (four nodes) has gone through the mutation loop twice, the offspring
    once. *)
Lemma evolve_shared_provenance :
  Neat.evolve example_fitness id cantor example_draws provenance_manager
  = Ok provenance_evolved
  /\ map (fun g => length (nodes g)) (Neat.population provenance_evolved.2)
     = [5; 6; 6]%nat.
Proof. split; vm_compute; reflexivity. Qed.

(** ** Selection *)









(** C8, the failing input: with the POWER strategy and a population of one
    evaluated genome, [getParent] reads [population[1].score] and ends in a
    [TypeError]; so does an [evolve] that has to breed from it. *)
Theorem getParent_POWER_singleton_throws :
  Neat.getParent (const_draws 0) singleton_manager = Throw "TypeError"
  /\ Neat.evolve example_fitness id cantor example_draws singleton_manager
     = Throw "TypeError".
Proof. split; vm_compute; reflexivity. Qed.

(** ** Disconnecting two distinct nodes *)

Lemma find_index_Some {A} (p : A -> bool) l i :
  find_index p l = Some i -> exists x, l !! i = Some x /\ p x = true.
Proof.
  revert i. induction l as [|y l IH]; intros i; simpl; [discriminate|].
  destruct (p y) eqn:E.
  - intros [= <-]. exists y. split; [reflexivity | exact E].
  - destruct (find_index p l) as [k|]; simpl; [|discriminate].
    intros [= <-]. apply IH. reflexivity.
Qed.

Lemma find_index_None {A} (p : A -> bool) l x :
  find_index p l = None -> x ∈ l -> p x = false.
Proof.
  induction l as [|y l IH]; simpl; intros H Hx; [inversion Hx|].
  destruct (p y) eqn:E; [discriminate|].
  destruct (find_index p l); [discriminate|].
  apply elem_of_cons in Hx as [->|Hx]; [exact E | apply IH; [reflexivity | exact Hx]].
Qed.

Lemma NoDup_indexOf {A} `{EqDecision A} (l : list A) i x :
  NoDup l -> l !! i = Some x -> indexOf x l = Some i.
Proof.
  intros Hnd Hi. destruct (indexOf x l) as [j|] eqn:E.
  - apply indexOf_Some in E as [E _]. f_equal. eapply NoDup_lookup; eassumption.
  - apply indexOf_None in E. exfalso. apply E. apply list_elem_of_lookup. eauto.
Qed.

Lemma remove_first_delete {A} `{EqDecision A} (l : list A) i x :
  NoDup l -> l !! i = Some x -> remove_first x l = delete i l.
Proof. intros Hnd Hi. unfold remove_first. rewrite (NoDup_indexOf l i x Hnd Hi). reflexivity. Qed.

Lemma removed_graph_eq_r a b c net net1 net' :
  removed a b c net net1 -> graph_eq net1 net' -> removed a b c net net'.
Proof.
  intros (A1&A2&A4&A5&A6&A7&A8&A9&A10&A11&A12&A13&A14&A15)
         (B1&B2&B4&B5&B6&B7&B8&B9&B10&B11&B12&B13&B14&B15).
  unfold removed. split_and!; try congruence; intros x.
  - rewrite B11. apply A11.
  - rewrite B12. apply A12.
Qed.

Lemma removed_graph_eq_l a b c net net1 net' :
  graph_eq net net1 -> removed a b c net1 net' -> removed a b c net net'.
Proof.
  intros (B1&B2&B4&B5&B6&B7&B8&B9&B10&B11&B12&B13&B14&B15)
         (A1&A2&A4&A5&A6&A7&A8&A9&A10&A11&A12&A13&A14&A15).
  unfold removed. split_and!; try congruence; intros x.
  - rewrite A11, B11. reflexivity.
  - rewrite A12, B12. reflexivity.
Qed.

Lemma Node_disconnect_selfconns a b net :
  selfconns (Node_disconnect a b net) = selfconns net.
Proof.
  unfold Node_disconnect. destruct (decide (a = b)); [reflexivity|].
  match goal with |- context [find_index ?p ?l] => destruct (find_index p l) end;
    [|reflexivity].
  match goal with |- context [gater ?x] => destruct (gater x) end; reflexivity.
Qed.

Lemma disconnect_ordinary a b c net net' :
  wf net -> c ∈ connections net -> pair_of net c = (a, b) ->
  disconnect a b net = Ok net' ->
  removed a b c net net' /\ selfconns net' = selfconns net.
Proof.
  intros W Hc Hp Hd.
  pose proof (wf_conn_of net c W Hc) as (Hfn & Htn & Hft & Hout & Hin & Hlt).
  unfold pair_of in Hp. injection Hp as Hf Ht. rewrite Hf, Ht in *.
  pose proof (wf_node_of net a W Hfn) as (Ho1 & Ho2 & _).
  pose proof (wf_node_of net b W Htn) as (_ & _ & Hi1 & Hi2 & _).
  rewrite Forall_forall in Ho1, Hi1.
  unfold disconnect in Hd. rewrite bool_decide_eq_false_2 in Hd by exact Hft.
  cbv beta iota zeta in Hd.
  apply bind_Ok in Hd as (net1 & H1 & Hd). injection Hd as <-.
  (* the connection found in the network's list is [c] *)
  destruct (find_index _ (connections net)) as [i|] eqn:Ei.
  2:{ eapply find_index_None in Ei; [|exact Hc]. simpl in Ei.
      rewrite Hf, Ht, !bool_decide_eq_true_2 in Ei by reflexivity. discriminate. }
  destruct (find_index_Some _ _ _ Ei) as (c' & Hi & Hhit). simpl in Hhit.
  apply andb_true_iff in Hhit as [Hh1 Hh2].
  apply bool_decide_eq_true in Hh1, Hh2.
  assert (c' = c).
  { apply (pair_of_inj net); try assumption.
    - apply list_elem_of_lookup. eauto.
    - unfold pair_of. congruence. }
  subst c'. rewrite Hi in H1. simpl in H1.
  apply bind_Ok in H1 as (netg & Hg & H1). injection H1 as <-.
  assert (Hge : graph_eq net netg /\ selfconns netg = selfconns net).
  { destruct (gater (conn_at net c)).
    - split; [eapply ungate_graph_eq | eapply ungate_selfconns]; exact Hg.
    - injection Hg as <-. split; [apply graph_eq_refl | reflexivity]. }
  destruct Hge as [Hge Hgs].
  pose proof Hge as (G1&G2&G4&G5&G6&G7&G8&G9&G10&G11&G12&G13&G14&G15).
  split.
  2:{ rewrite Node_disconnect_selfconns. exact Hgs. }
  eapply removed_graph_eq_l; [exact Hge|].
  assert (Hnd : NoDup (connections net)) by (destruct W as (_&W2&_); exact W2).
  set (net2 := set_connections (delete i (connections netg)) netg).
  unfold Node_disconnect. destruct (decide (a = b)); [contradiction|].
  change (conn_out (node_at net2 a)) with (conn_out (node_at netg a)).
  rewrite G12.
  destruct (find_index _ (conn_out (node_at net a))) as [i'|] eqn:Ei'.
  2:{ eapply find_index_None in Ei'; [|exact Hout]. simpl in Ei'.
      change (conn_at net2 c) with (conn_at netg c) in Ei'.
      rewrite G9, Ht, bool_decide_eq_true_2 in Ei' by reflexivity. discriminate. }
  destruct (find_index_Some _ _ _ Ei') as (c' & Hi' & Hhit). simpl in Hhit.
  apply bool_decide_eq_true in Hhit. change (conn_at net2 c') with (conn_at netg c') in Hhit.
  rewrite G9 in Hhit.
  assert (c' = c).
  { assert (Hc' : c' ∈ conn_out (node_at net a)) by (apply list_elem_of_lookup; eauto).
    destruct (Ho1 c' Hc') as [Hc1 Hc2].
    apply (pair_of_inj net); try assumption. unfold pair_of. congruence. }
  subst c'. rewrite Hi'. simpl.
  match goal with |- removed _ _ _ _ (match gater (conn_at ?x c) with _ => _ end) =>
    set (net3 := x) end.
  assert (Hrem : removed a b c netg net3).
  { clear Hf Ht Hh1 Hh2 Hhit.
    unfold removed, net3, net2. split_and!; try reflexivity; try (intros x; store_simp).
    - simpl. rewrite G2. symmetry. apply remove_first_delete; assumption.
    - rewrite G12. symmetry. apply remove_first_delete; assumption. }
  destruct (gater (conn_at net3 c)).
  - eapply removed_graph_eq_r; [exact Hrem | apply Node_ungate_graph_eq].
  - exact Hrem.
Qed.

Lemma removed_wf a b c net net' :
  wf net -> c ∈ connections net -> pair_of net c = (a, b) ->
  removed a b c net net' -> wf net'.
Proof.
  intros W Hc Hp (A1&A2&A4&A5&A6&A7&A8&A9&A10&A11&A12&A13&A14&A15).
  pose proof (wf_conn_of net c W Hc) as (Hfn & Htn & Hft & Hout & Hin & Hlt).
  unfold pair_of in Hp. injection Hp as Hf Ht.
  pose proof (fun n => wf_node_of net n W) as Hnode.
  pose proof (fun n => wf_conn_of net n W) as Hconn.
  destruct W as (W1&W2&W3&W4&W5).
  assert (Hel : forall x, x ∈ remove_first c (connections net) <->
                          x ∈ connections net /\ x ≠ c).
  { intros x. apply remove_first_elem_NoDup. exact W2. }
  unfold wf. rewrite A1, A2. split_and!.
  - exact W1.
  - apply remove_first_NoDup. exact W2.
  - apply sublist_NoDup with (map (pair_of net') (connections net)).
    + erewrite map_ext; [exact W3|]. intros x. unfold pair_of. rewrite A8, A9. reflexivity.
    + apply (fmap_sublist (pair_of net')). unfold remove_first. destruct (indexOf c (connections net));
        [apply sublist_delete | reflexivity].
  - apply Forall_forall. intros x Hx. apply Hel in Hx as [Hx Hxc].
    destruct (Hconn x Hx) as (H1&H2&H3&H4&H5&H6).
    unfold wf_conn. rewrite A1, A5, !A8, !A9, A11, A12.
    split_and!; try assumption.
    + case_dec; [|assumption]. apply remove_first_elem_NoDup; [|split; assumption].
      apply (Hnode _ H1).
    + case_dec; [|assumption]. apply remove_first_elem_NoDup; [|split; assumption].
      apply (Hnode _ H2).
  - apply Forall_forall. intros n Hn.
    destruct (Hnode n Hn) as (H1&H2&H3&H4&H5&H6&H7&H8).
    rewrite Forall_forall in H1, H3.
    unfold wf_node. rewrite A2, A4, A5, A11, A12, A13, A8, A9.
    split_and!; try assumption.
    + apply Forall_forall. intros x Hx. rewrite A8.
      destruct (decide (n = a)) as [->|Hna].
      * apply remove_first_elem_NoDup in Hx as [Hx Hxc]; [|exact H2].
        destruct (H1 x Hx). split; [apply Hel; split|]; assumption.
      * destruct (H1 x Hx) as [Hx1 Hx2]. split; [|exact Hx2].
        apply Hel. split; [exact Hx1|]. intros ->. congruence.
    + case_dec; [apply remove_first_NoDup|]; exact H2.
    + apply Forall_forall. intros x Hx. rewrite A9.
      destruct (decide (n = b)) as [->|Hnb].
      * apply remove_first_elem_NoDup in Hx as [Hx Hxc]; [|exact H4].
        destruct (H3 x Hx). split; [apply Hel; split|]; assumption.
      * destruct (H3 x Hx) as [Hx1 Hx2]. split; [|exact Hx2].
        apply Hel. split; [exact Hx1|]. intros ->. congruence.
    + case_dec; [apply remove_first_NoDup|]; exact H4.
Qed.

(** ** What structural edits preserve *)

Lemma stable_refl net : stable net net.
Proof. unfold stable. split_and!; try reflexivity; try lia; intros; split; reflexivity. Qed.

Lemma stable_trans n1 n2 n3 : stable n1 n2 -> stable n2 n3 -> stable n1 n3.
Proof.
  intros (A1&A2&A3&A4&A5&A6&A7&A8&A9&A10) (B1&B2&B3&B4&B5&B6&B7&B8&B9&B10).
  unfold stable. split_and!; try congruence; try lia.
  all: intros c Hc; destruct (A10 c Hc) as [H1 H2]; destruct (B10 c ltac:(lia)) as [H3 H4];
    split; congruence.
Qed.

Lemma graph_eq_stable net net' : graph_eq net net' -> stable net net'.
Proof.
  intros (A1&A2&A4&A5&A6&A7&A8&A9&A10&A11&A12&A13&A14&A15).
  unfold stable. split_and!; try congruence; try lia; intros c _; split; auto.
Qed.

Lemma added_stable a b net net' : added a b (next_conn net) net net' -> stable net net'.
Proof.
  intros (A1&A2&A4&A5&A6&A7&A8&A9&A10&A11&A12&A13&A14&A15).
  unfold stable. split_and!; try congruence; try lia.
  all: intros c Hc; rewrite A8, A9; case_dec; try lia; split; reflexivity.
Qed.

Lemma removed_stable a b c net net' : removed a b c net net' -> stable net net'.
Proof.
  intros (A1&A2&A4&A5&A6&A7&A8&A9&A10&A11&A12&A13&A14&A15).
  unfold stable. split_and!; try congruence; try lia; intros x _; split; auto.
Qed.

Lemma stable_typed_partition net net' :
  stable net net' -> typed_partition net -> typed_partition net'.
Proof.
  intros (A1&A2&A3&A4&A5&A6&A7&A8&A9&A10) (P1&P2&P3&P4).
  unfold typed_partition, zlength in *. rewrite A1, A4, A5.
  split_and!; try assumption. intros i n Hi. rewrite A8. apply P4. exact Hi.
Qed.

Lemma stable_targets_ok net net' :
  wf net -> stable net net' -> targets_ok net ->
  (forall c, c ∈ connections net' ->
     c ∈ connections net \/ type (node_at net' (to (conn_at net' c))) ≠ Input) ->
  targets_ok net'.
Proof.
  intros W (A1&A2&A3&A4&A5&A6&A7&A8&A9&A10) T Hsub.
  unfold targets_ok in *. rewrite Forall_forall in *. intros c Hc.
  destruct (Hsub c Hc) as [Hold|Hnew]; [|exact Hnew].
  pose proof (wf_conn_lt net c W Hold) as Hlt.
  destruct (A10 c Hlt) as [_ Ht]. rewrite Ht, A8. apply T. exact Hold.
Qed.

Lemma stable_selfconns_ok net net' :
  wf net' -> stable net net' -> selfconns_ok net ->
  (forall c, c ∈ selfconns net' ->
     c ∈ selfconns net \/ exists n, n ∈ nodes net' /\ c = conn_self (node_at net' n)) ->
  selfconns_ok net'.
Proof.
  intros W (A1&A2&A3&A4&A5&A6&A7&A8&A9&A10) S Hsub.
  unfold selfconns_ok in *. rewrite Forall_forall in *. intros c Hc.
  destruct (Hsub c Hc) as [Hold|(n & Hn & ->)].
  - destruct (S c Hold) as [Hlt He]. destruct (A10 c Hlt) as [Hf Ht].
    split; [lia | congruence].
  - pose proof (wf_node_of net' n W Hn) as (_&_&_&_&H5&H6&H7&_).
    split; [exact H7 | congruence].
Qed.

(** ** Self-connections *)

Lemma connect_self a w net net' cs :
  connect a a w net = Ok (net', cs) ->
  graph_eq net net' /\ cs = [conn_self (node_at net a)]
  /\ selfconns net' = selfconns net ++ cs /\ gates net' = gates net.
Proof.
  unfold connect, Node_connect. destruct (decide (a = a)) as [_|]; [|contradiction].
  destruct (Qeq_bool _ 0); simpl; destruct (decide (a = a)) as [_|]; try contradiction;
    intros [= <- <-]; (split; [|split; [reflexivity | split; reflexivity]]).
  - match goal with |- graph_eq _ (set_selfconns _ ?x) => apply graph_eq_trans with x end.
    + apply graph_eq_upd_conn. intros cn. split; reflexivity.
    + unfold graph_eq. split_and!; reflexivity.
  - unfold graph_eq. split_and!; reflexivity.
Qed.

Lemma disconnect_self a net net' :
  disconnect a a net = Ok net' ->
  graph_eq net net' /\ selfconns net' `sublist_of` selfconns net.
Proof.
  unfold disconnect. rewrite bool_decide_eq_true_2 by reflexivity. cbv beta iota zeta.
  intros H. apply bind_Ok in H as (net1 & H1 & H). injection H as <-.
  assert (H1' : graph_eq net net1 /\ selfconns net1 `sublist_of` selfconns net).
  { destruct (find_index _ (selfconns net)) as [i|].
    - apply bind_Ok in H1 as (netg & Hg & H1). injection H1 as <-.
      assert (Hge : graph_eq net netg /\ selfconns netg = selfconns net).
      { match type of Hg with
        | match ?g with _ => _ end = _ => destruct g
        end.
        - split; [eapply ungate_graph_eq | eapply ungate_selfconns]; exact Hg.
        - injection Hg as <-. split; [apply graph_eq_refl | reflexivity]. }
      destruct Hge as [Hge Hgs]. split.
      + eapply graph_eq_trans; [exact Hge|]. unfold graph_eq. split_and!; reflexivity.
      + simpl. rewrite Hgs. apply sublist_delete.
    - injection H1 as <-. split; [apply graph_eq_refl | reflexivity]. }
  destruct H1' as [Hge Hsub]. split.
  - eapply graph_eq_trans; [exact Hge|]. unfold Node_disconnect.
    destruct (decide (a = a)) as [_|]; [|contradiction].
    apply graph_eq_upd_conn. intros cn. split; reflexivity.
  - rewrite Node_disconnect_selfconns. exact Hsub.
Qed.

Lemma self_entry net c :
  wf net -> wf_selfconns net -> c ∈ selfconns net ->
  from (conn_at net c) ∈ nodes net
  /\ to (conn_at net c) = from (conn_at net c)
  /\ c = conn_self (node_at net (from (conn_at net c))).
Proof.
  intros W (S1 & S2) Hc. rewrite Forall_forall in S2. destruct (S2 c Hc) as [Hn Hs].
  pose proof (wf_node_of net _ W Hn) as (_&_&_&_&H5&H6&_).
  rewrite Hs in H5, H6. split_and!; [exact Hn | congruence | congruence].
Qed.

Lemma disconnect_self_detached a net net' :
  wf net -> wf_selfconns net -> disconnect a a net = Ok net' ->
  forall c, c ∈ selfconns net' -> from (conn_at net c) ≠ a /\ to (conn_at net c) ≠ a.
Proof.
  intros W S. pose proof S as (S1 & S2).
  unfold disconnect. rewrite bool_decide_eq_true_2 by reflexivity. cbv beta iota zeta.
  intros H. apply bind_Ok in H as (net1 & H1 & H). injection H as <-.
  intros c Hc. rewrite Node_disconnect_selfconns in Hc.
  assert (Hno : c ∈ selfconns net /\ ~ (from (conn_at net c) = a /\ to (conn_at net c) = a)).
  { destruct (find_index _ (selfconns net)) as [i|] eqn:Ei.
    - destruct (find_index_Some _ _ _ Ei) as (c0 & Hi & Hhit). simpl in Hhit.
      apply andb_true_iff in Hhit as [Hh1 Hh2]. apply bool_decide_eq_true in Hh1, Hh2.
      apply bind_Ok in H1 as (netg & Hg & H1). injection H1 as <-.
      assert (Hgs : selfconns netg = selfconns net).
      { match type of Hg with
        | match ?g with _ => _ end = _ => destruct g
        end; [eapply ungate_selfconns; exact Hg | injection Hg as <-; reflexivity]. }
      simpl in Hc. rewrite Hgs in Hc.
      pose proof (proj1 (delete_elem_NoDup (selfconns net) i c0 c S1 Hi) Hc) as [Hc' Hne].
      split; [exact Hc'|]. intros [Hf Ht]. apply Hne.
      destruct (self_entry net c W S Hc') as (_&_&E1).
      assert (Hc0 : c0 ∈ selfconns net) by (apply list_elem_of_lookup; eauto).
      destruct (self_entry net c0 W S Hc0) as (_&_&E2). congruence.
    - injection H1 as <-. split; [exact Hc|]. intros [Hf Ht].
      eapply find_index_None in Ei; [|exact Hc]. simpl in Ei.
      rewrite Hf, Ht, !bool_decide_eq_true_2 in Ei by reflexivity. discriminate. }
  destruct Hno as [Hc' Hno]. destruct (self_entry net c W S Hc') as (_&Ht&_).
  split; intros E; apply Hno; split; congruence.
Qed.

(** ** The loops of [remove] *)

Lemma remove_first_last {A} `{EqDecision A} (l : list A) k x :
  NoDup l -> length l = S k -> l !! k = Some x -> length (remove_first x l) = k.
Proof.
  intros Hnd Hl Hk. rewrite (remove_first_delete l k x Hnd Hk).
  rewrite length_delete by eauto. lia.
Qed.

Lemma remove_in_loop_spec keep_gates node k : forall gs ins net net' gs' ins',
  wf net -> node ∈ nodes net -> length (conn_in (node_at net node)) = k ->
  remove_in_loop k keep_gates node gs ins net = Ok (net', (gs', ins')) ->
  wf net' /\ stable net net' /\ next_conn net' = next_conn net
  /\ selfconns net' = selfconns net
  /\ (forall c, c ∈ connections net' -> c ∈ connections net)
  /\ conn_in (node_at net' node) = []
  /\ conn_out (node_at net' node) = conn_out (node_at net node)
  /\ (forall x, x ∈ ins' -> x ∈ ins \/ (x ∈ nodes net /\ x ≠ node)).
Proof.
  induction k as [|k IH]; intros gs ins net net' gs' ins' W Hn Hlen H; simpl in H.
  - injection H as <- <- <-. split_and!; auto using stable_refl.
    destruct (conn_in (node_at net node)); [reflexivity | discriminate].
  - destruct (conn_in (node_at net node) !! k) as [c|] eqn:Ek.
    2:{ apply lookup_ge_None in Ek. lia. }
    apply bind_Ok in H as (net1 & Hd & H).
    pose proof (wf_node_of net node W Hn) as (_&_&Hi1&Hi2&_).
    rewrite Forall_forall in Hi1.
    assert (Hcin : c ∈ conn_in (node_at net node)) by (apply list_elem_of_lookup; eauto).
    destruct (Hi1 c Hcin) as [Hc Hto].
    pose proof (wf_conn_of net c W Hc) as (Hfn & _ & Hft & _).
    rewrite Hto in Hft.
    assert (Hp : pair_of net c = (from (conn_at net c), node)).
    { unfold pair_of. rewrite Hto. reflexivity. }
    destruct (disconnect_ordinary _ _ c net net1 W Hc Hp Hd) as [Hrem Hs1].
    pose proof (removed_wf _ _ c net net1 W Hc Hp Hrem) as W1.
    pose proof (removed_stable _ _ _ _ _ Hrem) as St1.
    destruct Hrem as (A1&A2&A4&A5&A6&A7&A8&A9&A10&A11&A12&A13&A14&A15).
    apply IH in H as (W'&St'&Hnc&Hs'&Hsub&Hin'&Hout'&Hins); try assumption.
    + split_and!; try assumption; try congruence.
      * eapply stable_trans; eassumption.
      * intros x Hx. apply Hsub in Hx. rewrite A2 in Hx.
        eapply remove_first_elem. exact Hx.
      * rewrite Hout', A12. case_dec; [congruence | reflexivity].
      * intros x Hx. apply Hins in Hx. rewrite A1 in Hx.
        destruct Hx as [Hx|Hx]; [|right; exact Hx].
        apply elem_of_app in Hx as [Hx|Hx]; [left; exact Hx|].
        apply list_elem_of_singleton in Hx. subst x. right. split; assumption.
    + rewrite A1. exact Hn.
    + rewrite A11. case_dec; [|congruence]. apply remove_first_last; assumption.
Qed.

Lemma remove_out_loop_spec keep_gates node k : forall gs outs net net' gs' outs',
  wf net -> node ∈ nodes net -> length (conn_out (node_at net node)) = k ->
  remove_out_loop k keep_gates node gs outs net = Ok (net', (gs', outs')) ->
  wf net' /\ stable net net' /\ next_conn net' = next_conn net
  /\ selfconns net' = selfconns net
  /\ (forall c, c ∈ connections net' -> c ∈ connections net)
  /\ conn_out (node_at net' node) = []
  /\ conn_in (node_at net' node) = conn_in (node_at net node)
  /\ (forall x, x ∈ outs' ->
        x ∈ outs \/ (x ∈ nodes net /\ x ≠ node
                     /\ exists c, c ∈ connections net /\ to (conn_at net c) = x)).
Proof.
  induction k as [|k IH]; intros gs outs net net' gs' outs' W Hn Hlen H; simpl in H.
  - injection H as <- <- <-. split_and!; auto using stable_refl.
    destruct (conn_out (node_at net node)); [reflexivity | discriminate].
  - destruct (conn_out (node_at net node) !! k) as [c|] eqn:Ek.
    2:{ apply lookup_ge_None in Ek. lia. }
    apply bind_Ok in H as (net1 & Hd & H).
    pose proof (wf_node_of net node W Hn) as (Ho1&Ho2&_).
    rewrite Forall_forall in Ho1.
    assert (Hcout : c ∈ conn_out (node_at net node)) by (apply list_elem_of_lookup; eauto).
    destruct (Ho1 c Hcout) as [Hc Hfrom].
    pose proof (wf_conn_of net c W Hc) as (_ & Htn & Hft & _).
    rewrite Hfrom in Hft.
    assert (Hp : pair_of net c = (node, to (conn_at net c))).
    { unfold pair_of. rewrite Hfrom. reflexivity. }
    destruct (disconnect_ordinary _ _ c net net1 W Hc Hp Hd) as [Hrem Hs1].
    pose proof (removed_wf _ _ c net net1 W Hc Hp Hrem) as W1.
    pose proof (removed_stable _ _ _ _ _ Hrem) as St1.
    destruct Hrem as (A1&A2&A4&A5&A6&A7&A8&A9&A10&A11&A12&A13&A14&A15).
    apply IH in H as (W'&St'&Hnc&Hs'&Hsub&Hout'&Hin'&Houts); try assumption.
    + split_and!; try assumption; try congruence.
      * eapply stable_trans; eassumption.
      * intros x Hx. apply Hsub in Hx. rewrite A2 in Hx.
        eapply remove_first_elem. exact Hx.
      * rewrite Hin', A11. case_dec; [congruence | reflexivity].
      * intros x Hx. apply Houts in Hx. rewrite A1 in Hx.
        destruct Hx as [Hx|(Hx1 & Hx2 & c' & Hc' & Hto')].
        -- apply elem_of_app in Hx as [Hx|Hx]; [left; exact Hx|].
           apply list_elem_of_singleton in Hx. subst x. right.
           split_and!; try assumption; [congruence|]. exists c. split; [exact Hc | reflexivity].
        -- right. split_and!; try assumption. exists c'. split.
           ++ rewrite A2 in Hc'. eapply remove_first_elem. exact Hc'.
           ++ rewrite <- A9. exact Hto'.
    + rewrite A1. exact Hn.
    + rewrite A12. case_dec; [|congruence]. apply remove_first_last; assumption.
Qed.

Lemma regate_spec gs : forall cs rnd k net net',
  regate gs cs rnd k net = Ok net' -> graph_eq net net' /\ selfconns net' = selfconns net.
Proof.
  induction gs as [|g gs IH]; intros cs rnd k net net' H; simpl in H.
  - injection H as <-. split; [apply graph_eq_refl | reflexivity].
  - destruct cs as [|c0 cs]; [injection H as <-; split; [apply graph_eq_refl | reflexivity]|].
    destruct (_ !! _) as [c|]; [|discriminate].
    apply bind_Ok in H as (net1 & Hg & H). apply IH in H as [H1 H2].
    split.
    + eapply graph_eq_trans; [eapply gate_graph_eq; exact Hg | exact H1].
    + rewrite H2. eapply gate_selfconns. exact Hg.
Qed.

Lemma ungate_loop_spec node k : forall net net',
  ungate_loop k node net = Ok net' -> graph_eq net net' /\ selfconns net' = selfconns net.
Proof.
  induction k as [|k IH]; intros net net' H; simpl in H.
  - injection H as <-. split; [apply graph_eq_refl | reflexivity].
  - destruct (_ !! _) as [c|]; [|discriminate].
    apply bind_Ok in H as (net1 & Hg & H). apply IH in H as [H1 H2].
    split.
    + eapply graph_eq_trans; [eapply ungate_graph_eq; exact Hg | exact H1].
    + rewrite H2. eapply ungate_selfconns. exact Hg.
Qed.

Lemma reconnect_spec node ps : forall created net net' created',
  wf net ->
  (forall i o, (i, o) ∈ ps -> i ∈ nodes net /\ o ∈ nodes net /\ i ≠ node /\ o ≠ node) ->
  reconnect ps created net = Ok (net', created') ->
  wf net' /\ stable net net'
  /\ (forall c, c ∈ connections net' ->
        c ∈ connections net
        \/ exists i o, (i, o) ∈ ps /\ from (conn_at net' c) = i /\ to (conn_at net' c) = o)
  /\ (forall c, c ∈ selfconns net' ->
        c ∈ selfconns net \/ exists i, (i, i) ∈ ps /\ c = conn_self (node_at net' i))
  /\ conn_in (node_at net' node) = conn_in (node_at net node)
  /\ conn_out (node_at net' node) = conn_out (node_at net node).
Proof.
  induction ps as [|[i o] ps IH]; intros created net net' created' W Hps H; simpl in H.
  - injection H as <- <-. split_and!; auto using stable_refl.
  - destruct (Hps i o ltac:(left)) as (Hi & Ho & Hin & Hon).
    assert (Hps' : forall i0 o0, (i0, o0) ∈ ps ->
               i0 ∈ nodes net /\ o0 ∈ nodes net /\ i0 ≠ node /\ o0 ≠ node).
    { intros i0 o0 H0. apply Hps. right. exact H0. }
    destruct (Node_isProjectingTo i o net) eqn:Eproj.
    + apply IH in H as (W'&St'&Hc'&Hs'&Hin'&Hout'); try assumption.
      split_and!; try assumption.
      * intros c Hc. destruct (Hc' c Hc) as [?|(i0&o0&?&?)]; [left; assumption|].
        right. exists i0, o0. split; [right|]; tauto.
      * intros c Hc. destruct (Hs' c Hc) as [?|(i0&?&?)]; [left; assumption|].
        right. exists i0. split; [right|]; tauto.
    + apply bind_Ok in H as ([net1 cs] & Hconn & H).
      destruct (decide (i = o)) as [->|Hio].
      * destruct (connect_self _ _ _ _ _ Hconn) as (Hge & Hcs & Hsc & _).
        subst cs.
        pose proof (graph_eq_wf _ _ Hge W) as W1.
        pose proof (graph_eq_stable _ _ Hge) as St1.
        pose proof Hge as (G1&G2&G4&G5&G6&G7&G8&G9&G10&G11&G12&G13&G14&G15).
        apply IH in H as (W'&St'&Hc'&Hs'&Hin'&Hout'); try assumption.
        2:{ rewrite G1. exact Hps'. }
        pose proof St' as (B1&B2&B3&B4&B5&B6&B7&B8&B9&B10).
        split_and!; try assumption; try congruence.
        -- eapply stable_trans; eassumption.
        -- intros c Hc. destruct (Hc' c Hc) as [Hold|(i0&o0&?&?)].
           ++ left. congruence.
           ++ right. exists i0, o0. split; [right|]; tauto.
        -- intros c Hc. destruct (Hs' c Hc) as [Hold|(i0&?&?)].
           ++ rewrite Hsc in Hold. apply elem_of_app in Hold as [Hold|Hold];
                [left; exact Hold|].
              apply list_elem_of_singleton in Hold. right. exists o.
              split; [left|]. rewrite B9, G13. exact Hold.
           ++ right. exists i0. split; [right|]; tauto.
      * assert (Hnp : (i, o) ∉ map (pair_of net) (connections net)).
        { intros Hp. apply projecting_iff in Hp; try assumption. congruence. }
        destruct (connect_ordinary i o None net Hio Eproj)
          as (net1' & Hconn' & Hadd & Hsc & _ & _ & _ & _).
        rewrite Hconn in Hconn'. injection Hconn' as <- ->.
        pose proof (added_wf _ _ _ _ W Hi Ho Hio Hnp Hadd) as W1.
        pose proof (added_stable _ _ _ _ Hadd) as St1.
        destruct Hadd as (A1&A2&A4&A5&A6&A7&A8&A9&A10&A11&A12&A13&A14&A15).
        apply IH in H as (W'&St'&Hc'&Hs'&Hin'&Hout'); try assumption.
        2:{ rewrite A1. exact Hps'. }
        pose proof St' as (B1&B2&B3&B4&B5&B6&B7&B8&B9&B10).
        split_and!; try assumption.
        -- eapply stable_trans; eassumption.
        -- intros c Hc. destruct (Hc' c Hc) as [Hold|(i0&o0&?&?)].
           ++ rewrite A2 in Hold. apply elem_of_app in Hold as [Hold|Hold];
                [left; exact Hold|].
              apply list_elem_of_singleton in Hold. subst c. right. exists i, o.
              split; [left|].
              destruct (B10 (next_conn net) ltac:(lia)) as [Hf Ht].
              rewrite Hf, Ht, A8, A9. case_dec; try congruence. split; reflexivity.
           ++ right. exists i0, o0. split; [right|]; tauto.
        -- intros c Hc. destruct (Hs' c Hc) as [Hold|(i0&?&?)].
           ++ left. congruence.
           ++ right. exists i0. split; [right|]; tauto.
        -- rewrite Hin', A11. case_dec; [congruence | reflexivity].
        -- rewrite Hout', A12. case_dec; [congruence | reflexivity].
Qed.

(** ** Removing a node *)

Lemma stable_nodes net net' : stable net net' -> nodes net' = nodes net.
Proof. intros H. apply H. Qed.

Lemma stable_conn_self net net' n :
  stable net net' -> conn_self (node_at net' n) = conn_self (node_at net n).
Proof. intros H. apply H. Qed.

Lemma stable_from net net' c :
  stable net net' -> (c < next_conn net)%nat ->
  from (conn_at net' c) = from (conn_at net c) /\ to (conn_at net' c) = to (conn_at net c).
Proof. intros H. apply H. Qed.

Lemma remove_steps keep_gates node rnd net net' :
  wf net -> remove keep_gates node rnd net = Ok net' ->
  exists idx net7,
    indexOf node (nodes net) = Some idx
    /\ net' = set_nodes (delete idx (nodes net7)) net7
    /\ wf net7 /\ stable net net7
    /\ conn_in (node_at net7 node) = [] /\ conn_out (node_at net7 node) = []
    /\ (forall c, c ∈ connections net7 -> c ∈ connections net
          \/ exists c0, c0 ∈ connections net /\ to (conn_at net c0) = to (conn_at net7 c))
    /\ (forall c, c ∈ selfconns net7 -> c ∈ selfconns net
          \/ exists i, i ∈ nodes net /\ i ≠ node /\ c = conn_self (node_at net7 i))
    /\ (wf_selfconns net -> forall c, c ∈ selfconns net7 ->
          from (conn_at net7 c) ≠ node /\ to (conn_at net7 c) ≠ node).
Proof.
  intros W H. unfold remove in H.
  destruct (indexOf node (nodes net)) as [idx|] eqn:Eidx; [|discriminate].
  assert (Hn : node ∈ nodes net).
  { apply indexOf_Some in Eidx as [E _]. apply list_elem_of_lookup. eauto. }
  apply bind_Ok in H as (net1 & H1 & H).
  apply bind_Ok in H as ([net2 [gs1 inputs]] & H2 & H).
  apply bind_Ok in H as ([net3 [gs2 outputs]] & H3 & H).
  apply bind_Ok in H as ([net4 created] & H4 & H).
  apply bind_Ok in H as (net5 & H5 & H).
  apply bind_Ok in H as (net6 & H6 & H).
  apply bind_Ok in H as (net7 & H7 & H).
  injection H as <-.
  destruct (disconnect_self _ _ _ H1) as [G1 Sub1].
  pose proof (graph_eq_wf _ _ G1 W) as W1.
  pose proof (graph_eq_stable _ _ G1) as St1.
  assert (Hn1 : node ∈ nodes net1) by (rewrite (stable_nodes _ _ St1); exact Hn).
  destruct (remove_in_loop_spec _ _ _ _ _ _ _ _ _ W1 Hn1 eq_refl H2)
    as (W2 & St2 & Nc2 & Sc2 & Cs2 & In2 & Out2 & Ins).
  assert (Hn2 : node ∈ nodes net2) by (rewrite (stable_nodes _ _ St2); exact Hn1).
  destruct (remove_out_loop_spec _ _ _ _ _ _ _ _ _ W2 Hn2 eq_refl H3)
    as (W3 & St3 & Nc3 & Sc3 & Cs3 & Out3 & In3 & Outs).
  assert (Hps : forall i o, (i, o) ∈ (i ← inputs; o ← outputs; [(i, o)]) ->
            i ∈ nodes net3 /\ o ∈ nodes net3 /\ i ≠ node /\ o ≠ node).
  { intros i o Hio. apply list_elem_of_bind in Hio as (i' & Hio & Hi').
    apply list_elem_of_bind in Hio as (o' & Hio & Ho').
    apply list_elem_of_singleton in Hio. injection Hio as -> ->.
    destruct (Ins _ Hi') as [Hi|[Hi Hi2]]; [inversion Hi|].
    destruct (Outs _ Ho') as [Ho|(Ho & Ho2 & _)]; [inversion Ho|].
    rewrite (stable_nodes _ _ St2) in Ho.
    rewrite (stable_nodes _ _ St3), (stable_nodes _ _ St2). tauto. }
  destruct (reconnect_spec node _ _ _ _ _ W3 Hps H4)
    as (W4 & St4 & Cs4 & Sc4 & In4 & Out4).
  destruct (regate_spec _ _ _ _ _ _ H5) as [G5 Sc5].
  destruct (ungate_loop_spec _ _ _ _ H6) as [G6 Sc6].
  destruct (disconnect_self _ _ _ H7) as [G7 Sub7].
  assert (G47 : graph_eq net4 net7).
  { eapply graph_eq_trans; [exact G5|]. eapply graph_eq_trans; [exact G6 | exact G7]. }
  pose proof (graph_eq_wf _ _ G47 W4) as W7.
  pose proof (graph_eq_stable _ _ G47) as St47.
  assert (St13 : stable net1 net3) by (eapply stable_trans; eassumption).
  assert (St03 : stable net net3) by (eapply stable_trans; eassumption).
  assert (St04 : stable net net4) by (eapply stable_trans; eassumption).
  assert (St07 : stable net net7) by (eapply stable_trans; eassumption).
  assert (St37 : stable net3 net7) by (eapply stable_trans; eassumption).
  pose proof G47 as (K1&K2&K4&K5&K6&K7&K8&K9&K10&K11&K12&K13&K14&K15).
  pose proof G1 as (J1&J2&J4&J5&J6&J7&J8&J9&J10&J11&J12&J13&J14&J15).
  assert (Sc7 : forall c, c ∈ selfconns net7 -> c ∈ selfconns net4).
  { intros c Hc. rewrite <- Sc5, <- Sc6. eapply elem_of_sublist; eassumption. }
  exists idx, net7. split_and!; try assumption; try reflexivity.
  - rewrite K11, In4, In3, In2. reflexivity.
  - rewrite K12, Out4, Out3. reflexivity.
  - intros c Hc. rewrite K2 in Hc.
    destruct (Cs4 c Hc) as [Hold|(i & o & Hio & Hf & Ht)].
    + left. rewrite <- J2. auto.
    + right. apply list_elem_of_bind in Hio as (i' & Hio & Hi').
      apply list_elem_of_bind in Hio as (o' & Hio & Ho').
      apply list_elem_of_singleton in Hio. injection Hio as -> ->.
      destruct (Outs _ Ho') as [Ho|(Ho & Ho2 & c0 & Hc0 & Hto)]; [inversion Ho|].
      pose proof (Cs2 _ Hc0) as Hc1.
      exists c0. split; [rewrite <- J2; exact Hc1|].
      rewrite K9, Ht, <- Hto.
      pose proof (wf_conn_lt _ _ W1 Hc1) as Hlt.
      rewrite (proj2 (stable_from _ _ c0 St2 Hlt)). rewrite J9. reflexivity.
  - intros c Hc. apply Sc7 in Hc.
    destruct (Sc4 c Hc) as [Hold|(i & Hio & Hci)].
    + left. rewrite Sc3, Sc2 in Hold. eapply elem_of_sublist; eassumption.
    + right. exists i. destruct (Hps _ _ Hio) as (Hi & _ & Hin & _).
      rewrite (stable_nodes _ _ St03) in Hi.
      split_and!; try assumption. rewrite (stable_conn_self _ _ i St47). exact Hci.
  - intros WS c Hc. apply Sc7 in Hc.
    destruct (Sc4 c Hc) as [Hold|(i & Hio & Hci)].
    + rewrite Sc3, Sc2 in Hold.
      pose proof (disconnect_self_detached _ _ _ W WS H1 c Hold) as Hd.
      assert (Hc0 : c ∈ selfconns net) by (eapply elem_of_sublist; eassumption).
      destruct (self_entry _ _ W WS Hc0) as (Hfn & _ & Hself).
      pose proof (wf_node_of _ _ W Hfn) as (_&_&_&_&_&_&Hlt&_).
      rewrite <- Hself in Hlt.
      destruct (stable_from _ _ c St07 Hlt) as [-> ->]. exact Hd.
    + destruct (Hps _ _ Hio) as (Hi & _ & Hin & _).
      rewrite <- (stable_nodes _ _ St37) in Hi.
      pose proof (wf_node_of _ _ W7 Hi) as (_&_&_&_&Hf&Ht&_).
      rewrite <- (stable_conn_self _ _ i St47) in Hci. subst c.
      rewrite Hf, Ht. split; congruence.
Qed.

Lemma no_adjacent_conn net node c :
  wf net -> conn_in (node_at net node) = [] -> conn_out (node_at net node) = [] ->
  c ∈ connections net -> from (conn_at net c) ≠ node /\ to (conn_at net c) ≠ node.
Proof.
  intros W Hin Hout Hc.
  pose proof (wf_conn_of _ _ W Hc) as (_&_&_&Ho&Hi&_).
  split; intros E; rewrite E in *.
  - rewrite Hout in Ho. inversion Ho.
  - rewrite Hin in Hi. inversion Hi.
Qed.

Lemma delete_node_wf net node idx :
  wf net -> nodes net !! idx = Some node ->
  conn_in (node_at net node) = [] -> conn_out (node_at net node) = [] ->
  wf (set_nodes (delete idx (nodes net)) net).
Proof.
  intros W Hidx Hin Hout.
  pose proof W as (N1 & N2 & N3 & N4 & N5).
  unfold wf. simpl. split_and!; try assumption.
  - apply delete_NoDup. exact N1.
  - rewrite Forall_forall in *. intros c Hc.
    destruct (no_adjacent_conn net node c W Hin Hout Hc) as [Hf Ht].
    destruct (N4 c Hc) as (C1&C2&C3&C4&C5&C6).
    unfold wf_conn. rewrite conn_at_set_nodes, !node_at_set_nodes. simpl.
    split_and!; try assumption;
      apply (delete_elem_NoDup (nodes net) idx node); auto.
  - rewrite Forall_forall in *. intros n Hn.
    apply (delete_elem_NoDup (nodes net) idx node) in Hn as [Hn _]; auto.
    exact (N5 n Hn).
Qed.

(** On a network that satisfies the invariants of the data model, with
    every self-connection listed once in [selfconns], once [remove] has
    returned the node is no longer listed, and no connection left in
    [connections] or in [selfconns] starts or ends at it. *)
Theorem remove_detaches keep_gates node rnd net net' :
  wf net -> wf_selfconns net ->
  remove keep_gates node rnd net = Ok net' ->
  (node ∉ nodes net') /\ detached node net'.
Proof.
  intros W WS H.
  destruct (remove_steps _ _ _ _ _ W H)
    as (idx & net7 & Eidx & -> & W7 & St & Hin & Hout & _ & _ & Hself).
  apply indexOf_Some in Eidx as [Eidx _].
  rewrite <- (stable_nodes _ _ St) in Eidx.
  pose proof W7 as (N1 & _).
  split.
  - simpl. intros Hn.
    apply (delete_elem_NoDup (nodes net7) idx node) in Hn as [_ Hn]; auto.
  - intros c Hc. rewrite conn_at_set_nodes. simpl in Hc.
    apply elem_of_app in Hc as [Hc|Hc].
    + eapply no_adjacent_conn; eassumption.
    + apply Hself; assumption.
Qed.

Lemma remove_detaches_witness :
  4%nat ∈ nodes net_2_1_2
  /\ (4%nat ∉ nodes net_2_1_2_removed) /\ detached 4%nat net_2_1_2_removed.
Proof.
  split; [refine (bool_decide_unpack _ _); vm_compute; exact I|].
  apply (remove_detaches true 4%nat (const_draws (1 # 2)) net_2_1_2 net_2_1_2_removed).
  - refine (bool_decide_unpack _ _); vm_compute; exact I.
  - refine (bool_decide_unpack _ _); vm_compute; exact I.
  - vm_compute. reflexivity.
Defined.

(** ** The invariant under single edits *)

Lemma graph_eq_inv net net' :
  graph_eq net net' ->
  (forall c, c ∈ selfconns net' ->
     c ∈ selfconns net \/ exists n, n ∈ nodes net' /\ c = conn_self (node_at net' n)) ->
  inv net -> inv net'.
Proof.
  intros G Hs (W & T & S & P).
  pose proof (graph_eq_wf _ _ G W) as W'.
  pose proof (graph_eq_stable _ _ G) as St.
  split_and!.
  - exact W'.
  - apply (stable_targets_ok net); try assumption.
    intros c Hc. left. destruct G as (_ & <- & _). exact Hc.
  - apply (stable_selfconns_ok net); assumption.
  - eapply stable_typed_partition; eassumption.
Qed.

Lemma graph_eq_inv_same net net' :
  graph_eq net net' -> selfconns net' = selfconns net -> inv net -> inv net'.
Proof.
  intros G Hs. apply graph_eq_inv; [exact G|]. intros c Hc. left. congruence.
Qed.

Lemma connect_ordinary_inv a b w net net' cs :
  inv net -> a ∈ nodes net -> b ∈ nodes net -> a ≠ b ->
  Node_isProjectingTo a b net = false -> type (node_at net b) ≠ Input ->
  connect a b w net = Ok (net', cs) ->
  inv net' /\ added a b (next_conn net) net net' /\ cs = [next_conn net]
  /\ selfconns net' = selfconns net.
Proof.
  intros (W & T & S & P) Ha Hb Hab Hproj Hty H.
  destruct (connect_ordinary a b w net Hab Hproj) as (net1 & H1 & Hadd & Hsc & _).
  rewrite H in H1. injection H1 as <- ->.
  assert (Hnp : (a, b) ∉ map (pair_of net) (connections net)).
  { intros Hp. apply projecting_iff in Hp; try assumption. congruence. }
  pose proof (added_wf _ _ _ _ W Ha Hb Hab Hnp Hadd) as W'.
  pose proof (added_stable _ _ _ _ Hadd) as St.
  split_and!; try assumption; try reflexivity.
  split_and!.
  - exact W'.
  - apply (stable_targets_ok net); try assumption.
    destruct Hadd as (A1&A2&A4&A5&A6&A7&A8&A9&A10&A11&A12&A13&A14&A15).
    intros c Hc. rewrite A2 in Hc. apply elem_of_app in Hc as [Hc|Hc]; [left; exact Hc|].
    apply list_elem_of_singleton in Hc. subst c. right.
    rewrite A9, A10. case_dec; congruence.
  - apply (stable_selfconns_ok net); try assumption.
    intros c Hc. left. congruence.
  - eapply stable_typed_partition; eassumption.
Qed.

Lemma disconnect_ordinary_inv c net net' :
  inv net -> c ∈ connections net ->
  disconnect (from (conn_at net c)) (to (conn_at net c)) net = Ok net' ->
  inv net'
  /\ removed (from (conn_at net c)) (to (conn_at net c)) c net net'
  /\ selfconns net' = selfconns net.
Proof.
  intros (W & T & S & P) Hc H.
  destruct (disconnect_ordinary _ _ c net net' W Hc eq_refl H) as [Hrem Hsc].
  pose proof (removed_wf _ _ c net net' W Hc eq_refl Hrem) as W'.
  pose proof (removed_stable _ _ _ _ _ Hrem) as St.
  split_and!; try assumption.
  split_and!.
  - exact W'.
  - apply (stable_targets_ok net); try assumption.
    destruct Hrem as (A1&A2&_).
    intros c' Hc'. left. rewrite A2 in Hc'. eapply remove_first_elem. exact Hc'.
  - apply (stable_selfconns_ok net); try assumption.
    intros c' Hc'. left. congruence.
  - eapply stable_typed_partition; eassumption.
Qed.

Lemma connect_self_inv a w net net' cs :
  inv net -> a ∈ nodes net -> connect a a w net = Ok (net', cs) -> inv net'.
Proof.
  intros I Ha H. destruct (connect_self _ _ _ _ _ H) as (G & -> & Hsc & _).
  apply (graph_eq_inv net); try assumption.
  pose proof G as (G1&G2&G4&G5&G6&G7&G8&G9&G10&G11&G12&G13&G14&G15).
  intros c Hc. rewrite Hsc in Hc. apply elem_of_app in Hc as [Hc|Hc]; [left; exact Hc|].
  apply list_elem_of_singleton in Hc. right. exists a. rewrite G1, G13. auto.
Qed.

Lemma disconnect_self_inv a net net' :
  inv net -> disconnect a a net = Ok net' -> inv net'.
Proof.
  intros I H. destruct (disconnect_self _ _ _ H) as [G Sub].
  apply (graph_eq_inv net); try assumption.
  intros c Hc. left. eapply elem_of_sublist; eassumption.
Qed.

(** ** The typed partition under insertion and deletion *)

Lemma typed_partition_delete net idx node :
  typed_partition net -> nodes net !! idx = Some node ->
  type (node_at net node) ≠ Input -> type (node_at net node) ≠ Output ->
  typed_partition (set_nodes (delete idx (nodes net)) net).
Proof.
  intros (P1 & P2 & P3 & P4) Hidx HnI HnO.
  destruct (P4 idx node Hidx) as (Q1 & Q2 & Q3).
  assert (Hlen : (idx < length (nodes net))%nat) by (eapply lookup_lt_Some; eassumption).
  unfold zlength in *.
  assert (Hd : length (delete idx (nodes net)) = (length (nodes net) - 1)%nat).
  { apply length_delete. eauto. }
  assert (B1 : input_size net <= Z.of_nat idx) by (destruct (Z.lt_ge_cases (Z.of_nat idx) (input_size net)); [tauto | assumption]).
  assert (B2 : Z.of_nat idx < Z.of_nat (length (nodes net)) - output_size net)
    by (destruct (Z.lt_ge_cases (Z.of_nat idx) (Z.of_nat (length (nodes net)) - output_size net)); [assumption | tauto]).
  unfold typed_partition, zlength. simpl. rewrite Hd.
  split_and!; try assumption; try lia.
  intros i n Hi. rewrite node_at_set_nodes.
  destruct (Nat.lt_ge_cases i idx) as [Hlt|Hge].
  - rewrite list_lookup_delete_lt in Hi by exact Hlt.
    destruct (P4 i n Hi) as (R1 & R2 & R3).
    split_and!; try assumption. intros. lia.
  - rewrite list_lookup_delete_ge in Hi by exact Hge.
    destruct (P4 (S i) n Hi) as (R1 & R2 & R3).
    split_and!; intros; try lia; [apply R2 | apply R3]; lia.
Qed.

Lemma typed_partition_insert net net' p node :
  typed_partition net ->
  input_size net <= p <= zlength (nodes net) - output_size net ->
  nodes net' = splice_insert p node (nodes net) ->
  input_size net' = input_size net -> output_size net' = output_size net ->
  (forall n, n ∈ nodes net -> type (node_at net' n) = type (node_at net n)) ->
  type (node_at net' node) = Hidden ->
  typed_partition net'.
Proof.
  intros (P1 & P2 & P3 & P4) Hp Hnodes Hi Ho Hty Hnew.
  unfold zlength in *.
  assert (Hl : nodes net' = take (Z.to_nat p) (nodes net) ++ node :: drop (Z.to_nat p) (nodes net)).
  { rewrite Hnodes. unfold splice_insert.
    destruct (Z.ltb_spec p 0); [lia|]. rewrite Z.min_l by lia. reflexivity. }
  assert (Hlen : length (nodes net') = S (length (nodes net))).
  { rewrite Hl, length_app, length_take. simpl. rewrite length_drop. lia. }
  unfold typed_partition, zlength. rewrite Hi, Ho, Hlen.
  split_and!; try assumption; try lia.
  intros i n Hin. rewrite Hl in Hin.
  apply lookup_app_Some in Hin as [Hin|[Hge Hin]].
  - apply lookup_take_Some in Hin as [Hin Hlt].
    destruct (P4 i n Hin) as (R1 & R2 & R3).
    assert (Hn : n ∈ nodes net) by (apply list_elem_of_lookup; eauto).
    rewrite (Hty n Hn). split_and!; try assumption. intros. lia.
  - rewrite length_take in Hge, Hin.
    rewrite Nat.min_l in Hge, Hin by lia.
    destruct (i - Z.to_nat p)%nat as [|k] eqn:Ek; simpl in Hin.
    + injection Hin as <-. rewrite Hnew. split_and!; intros; try lia; discriminate.
    + rewrite lookup_drop in Hin.
      destruct (P4 _ n Hin) as (R1 & R2 & R3).
      assert (Hn : n ∈ nodes net) by (apply list_elem_of_lookup; eauto).
      rewrite (Hty n Hn). split_and!; intros; try lia; [apply R2 | apply R3]; lia.
Qed.

Lemma delete_node_inv net node idx :
  inv net -> nodes net !! idx = Some node ->
  conn_in (node_at net node) = [] -> conn_out (node_at net node) = [] ->
  type (node_at net node) ≠ Input -> type (node_at net node) ≠ Output ->
  inv (set_nodes (delete idx (nodes net)) net).
Proof.
  intros (W & T & S & P) Hidx Hin Hout HnI HnO. split_and!.
  - apply (delete_node_wf net node); assumption.
  - exact T.
  - exact S.
  - apply (typed_partition_delete net idx node); assumption.
Qed.

Lemma remove_inv keep_gates node rnd net net' :
  inv net -> type (node_at net node) ≠ Input -> type (node_at net node) ≠ Output ->
  remove keep_gates node rnd net = Ok net' -> inv net'.
Proof.
  intros (W & T & S & P) HnI HnO H.
  destruct (remove_steps _ _ _ _ _ W H)
    as (idx & net7 & Eidx & -> & W7 & St & Hin & Hout & Hcs & Hss & _).
  apply indexOf_Some in Eidx as [Eidx _].
  rewrite <- (stable_nodes _ _ St) in Eidx.
  pose proof St as (B1&B2&B3&B4&B5&B6&B7&B8&B9&B10).
  apply (delete_node_inv net7 node); try assumption; try (rewrite B8; assumption).
  split_and!.
  - exact W7.
  - apply (stable_targets_ok net); try assumption.
    intros c Hc. destruct (Hcs c Hc) as [Hold|(c0 & Hc0 & Hto)]; [left; exact Hold|].
    right. rewrite <- Hto, B8. unfold targets_ok in T. rewrite Forall_forall in T.
    apply T. exact Hc0.
  - apply (stable_selfconns_ok net); try assumption.
    intros c Hc. destruct (Hss c Hc) as [Hold|(i & Hi & _ & Hci)]; [left; exact Hold|].
    right. exists i. rewrite B1. auto.
  - eapply stable_typed_partition; eassumption.
Qed.

Lemma splice_insert_perm {A} (p : Z) (x : A) l : splice_insert p x l ≡ₚ x :: l.
Proof.
  unfold splice_insert.
  set (k := Z.to_nat _). rewrite <- Permutation_middle, take_drop. reflexivity.
Qed.

Lemma splice_insert_elem {A} (p : Z) (x y : A) l :
  y ∈ splice_insert p x l <-> y = x \/ y ∈ l.
Proof. rewrite splice_insert_perm. apply elem_of_cons. Qed.

Lemma Node_new_spec ty net :
  let n := next_node net in
  let c := next_conn net in
  let net2 := (Node_new ty net).2 in
  (Node_new ty net).1 = n
  /\ nodes net2 = nodes net /\ connections net2 = connections net
  /\ selfconns net2 = selfconns net /\ gates net2 = gates net
  /\ next_node net2 = S n /\ next_conn net2 = S c
  /\ input_size net2 = input_size net /\ output_size net2 = output_size net
  /\ node_at net2 n = mkNode ty 0 LOGISTIC 0 0 1 None [] [] [] c
  /\ conn_at net2 c = mkConnection n n 0 None
  /\ (forall m, m ≠ n -> node_at net2 m = node_at net m)
  /\ (forall c', c' ≠ c -> conn_at net2 c' = conn_at net c').
Proof.
  unfold Node_new, Connection_new. simpl. split_and!; try reflexivity.
  - unfold node_at. simpl. apply lookup_total_insert_eq.
  - unfold conn_at. simpl. apply lookup_total_insert_eq.
  - intros m Hm. unfold node_at. simpl. apply lookup_total_insert_ne. congruence.
  - intros c' Hc'. unfold conn_at. simpl. apply lookup_total_insert_ne. congruence.
Qed.

(** ** Creating a node *)

(** A node that has just been created and listed joins a well-formed
    network without disturbing it. *)
Lemma new_node_wf net net' :
  wf net ->
  (forall m, m ∈ nodes net' <-> m = next_node net \/ m ∈ nodes net) ->
  NoDup (nodes net') ->
  connections net' = connections net ->
  next_conn net' = S (next_conn net) -> next_node net' = S (next_node net) ->
  (forall m, m ≠ next_node net -> node_at net' m = node_at net m) ->
  (forall c, c ≠ next_conn net -> conn_at net' c = conn_at net c) ->
  conn_in (node_at net' (next_node net)) = [] ->
  conn_out (node_at net' (next_node net)) = [] ->
  conn_self (node_at net' (next_node net)) = next_conn net ->
  from (conn_at net' (next_conn net)) = next_node net ->
  to (conn_at net' (next_conn net)) = next_node net ->
  wf net'.
Proof.
  intros W Hin Hnd Hcs Hnc Hnn Hnode0 Hconn0 Ci Co Cs Cf Ct.
  pose proof W as (N1 & N2 & N3 & N4 & N5).
  rewrite Forall_forall in N4, N5.
  assert (Hfresh : next_node net ∉ nodes net).
  { intros Hn. apply N5 in Hn. destruct Hn as (_&_&_&_&_&_&_&Hn). lia. }
  assert (Hnode : forall n, n ∈ nodes net -> node_at net' n = node_at net n).
  { intros n Hn. apply Hnode0. intros ->. exact (Hfresh Hn). }
  assert (Hconn : forall c, (c < next_conn net)%nat -> conn_at net' c = conn_at net c).
  { intros c Hc. apply Hconn0. lia. }
  unfold wf. split_and!.
  - exact Hnd.
  - rewrite Hcs. exact N2.
  - rewrite Hcs. erewrite map_ext_in; [exact N3|]. simpl. intros c Hc.
    apply list_elem_of_In in Hc.
    unfold pair_of. rewrite Hconn; [reflexivity|].
    apply (wf_conn_lt net); assumption.
  - rewrite Forall_forall, Hcs. intros c Hc.
    destruct (N4 c Hc) as (C1&C2&C3&C4&C5&C6).
    unfold wf_conn. rewrite (Hconn c C6), (Hnode _ C1), (Hnode _ C2).
    split_and!; try assumption; try (apply Hin; right; assumption). lia.
  - rewrite Forall_forall. intros n Hn. apply Hin in Hn as [->|Hn].
    + unfold wf_node. rewrite Ci, Co, Cs, Cf, Ct.
      split_and!; try constructor; try reflexivity; lia.
    + destruct (N5 n Hn) as (D1&D2&D3&D4&D5&D6&D7&D8).
      unfold wf_node. rewrite (Hnode n Hn), (Hconn _ D7).
      rewrite !Forall_forall. rewrite Forall_forall in D1, D3.
      split_and!; try assumption; try lia.
      * intros c Hc. destruct (D1 c Hc) as [Hc1 Hc2].
        rewrite (Hconn c (wf_conn_lt _ _ W Hc1)), Hcs. auto.
      * intros c Hc. destruct (D3 c Hc) as [Hc1 Hc2].
        rewrite (Hconn c (wf_conn_lt _ _ W Hc1)), Hcs. auto.
Qed.

Lemma insert_node_inv net net2 node p :
  inv net -> Node_new Hidden net = (node, net2) ->
  input_size net <= p <= zlength (nodes net) - output_size net ->
  let net4 := set_nodes (splice_insert p node (nodes net2)) net2 in
  inv net4
  /\ node ∈ nodes net4
  /\ (forall n, n ∈ nodes net -> n ∈ nodes net4 /\ n ≠ node /\ node_at net4 n = node_at net n)
  /\ conn_in (node_at net4 node) = [] /\ conn_out (node_at net4 node) = []
  /\ type (node_at net4 node) = Hidden
  /\ connections net4 = connections net
  /\ (forall c, (c < next_conn net)%nat -> conn_at net4 c = conn_at net c).
Proof.
  intros (W & T & S & P) E Hp net4.
  pose proof (Node_new_spec Hidden net) as H. rewrite E in H. simpl in H.
  destruct H as (-> & H1 & H2 & H3 & H4 & H5 & H6 & H7 & H8 & H9 & H10 & H11 & H12).
  pose proof W as (N1 & N2 & N3 & N4 & N5).
  rewrite Forall_forall in N4, N5.
  assert (Hlt : forall n, n ∈ nodes net -> (n < next_node net)%nat).
  { intros n Hn. apply (N5 n Hn). }
  assert (Hfresh : next_node net ∉ nodes net).
  { intros Hn. apply Hlt in Hn. lia. }
  assert (Hnode : forall n, n ∈ nodes net -> node_at net4 n = node_at net n).
  { intros n Hn. unfold net4. rewrite node_at_set_nodes. apply H11.
    intros ->. exact (Hfresh Hn). }
  assert (Hconn : forall c, (c < next_conn net)%nat -> conn_at net4 c = conn_at net c).
  { intros c Hc. unfold net4. rewrite conn_at_set_nodes. apply H12. lia. }
  assert (Hnew : node_at net4 (next_node net)
                 = mkNode Hidden 0 LOGISTIC 0 0 1 None [] [] [] (next_conn net)).
  { unfold net4. rewrite node_at_set_nodes. exact H9. }
  assert (Hnewc : conn_at net4 (next_conn net)
                  = mkConnection (next_node net) (next_node net) 0 None).
  { unfold net4. rewrite conn_at_set_nodes. exact H10. }
  assert (Hin : forall n, n ∈ nodes net4 <-> n = next_node net \/ n ∈ nodes net).
  { intros n. unfold net4. simpl. rewrite H1. apply splice_insert_elem. }
  assert (W4 : wf net4).
  { apply (new_node_wf net); try assumption;
      try (rewrite Hnew; reflexivity); try (rewrite Hnewc; reflexivity).
    unfold net4. simpl. rewrite H1, splice_insert_perm. apply NoDup_cons; auto. }
  split_and!.
  - split_and!.
    + exact W4.
    + unfold targets_ok in *. rewrite Forall_forall in *.
      unfold net4 at 1. simpl. rewrite H2. intros c Hc.
      destruct (N4 c Hc) as (C1&C2&C3&C4&C5&C6).
      rewrite (Hconn c C6), (Hnode _ C2). apply T. exact Hc.
    + unfold selfconns_ok in *. rewrite Forall_forall in *.
      unfold net4 at 1. simpl. rewrite H3. intros c Hc.
      destruct (S c Hc) as [S1 S2]. rewrite (Hconn c S1).
      split; [|exact S2]. unfold net4. simpl. rewrite H6. lia.
    + apply (typed_partition_insert net net4 p (next_node net)); try assumption.
      * unfold net4. simpl. rewrite H1. reflexivity.
      * intros n Hn. rewrite (Hnode n Hn). reflexivity.
      * rewrite Hnew. reflexivity.
  - apply Hin. left. reflexivity.
  - intros n Hn. split_and!.
    + apply Hin. right. exact Hn.
    + intros ->. exact (Hfresh Hn).
    + apply Hnode. exact Hn.
  - rewrite Hnew. reflexivity.
  - rewrite Hnew. reflexivity.
  - rewrite Hnew. reflexivity.
  - unfold net4. simpl. exact H2.
  - exact Hconn.
Qed.

(** ** The invariant under mutation *)

Lemma zrange_elem lo hi x : x ∈ zrange lo hi -> lo <= x < hi.
Proof.
  unfold zrange. intros H. apply list_elem_of_fmap in H as (k & -> & Hk).
  apply list_elem_of_In, in_seq in Hk. lia.
Qed.

Lemma at_Z_Some {A} (l : list A) i x :
  at_Z l i = Some x -> 0 <= i /\ l !! Z.to_nat i = Some x.
Proof.
  unfold at_Z. destruct (Z.ltb_spec i 0); [discriminate|]. intros E. split; [lia | exact E].
Qed.

Lemma sample_Some {A} (r : Q) (l : list A) x : sample r l = Some x -> x ∈ l.
Proof. unfold sample. intros H. apply list_elem_of_lookup. eauto. Qed.

Lemma pair_candidates_spec ijs net : forall l a ob,
  pair_candidates ijs net = Ok l -> (a, ob) ∈ l ->
  exists i j, (i, j) ∈ ijs /\ at_Z (nodes net) i = Some a /\ at_Z (nodes net) j = ob
    /\ forall b, ob = Some b -> Node_isProjectingTo a b net = false.
Proof.
  induction ijs as [|[i j] ijs IH]; intros l a ob H Hin; simpl in H.
  - injection H as <-. inversion Hin.
  - destruct (at_Z (nodes net) i) as [n1|] eqn:E1; [|discriminate].
    apply bind_Ok in H as (rest & Hr & H). injection H as <-.
    assert (Hrest : (a, ob) ∈ rest ->
              exists i0 j0, (i0, j0) ∈ (i, j) :: ijs /\ at_Z (nodes net) i0 = Some a
                /\ at_Z (nodes net) j0 = ob
                /\ forall b, ob = Some b -> Node_isProjectingTo a b net = false).
    { intros Hx. destruct (IH _ _ _ Hr Hx) as (i0 & j0 & H0 & H1).
      exists i0, j0. split; [right; exact H0 | exact H1]. }
    destruct (at_Z (nodes net) j) as [t|] eqn:E2.
    + destruct (Node_isProjectingTo n1 t net) eqn:Ep; [auto|].
      apply elem_of_cons in Hin as [Hin|Hin]; [|auto].
      injection Hin as -> ->. exists i, j. split_and!; try assumption; [left|].
      intros b Hb. injection Hb as <-. exact Ep.
    + apply elem_of_cons in Hin as [Hin|Hin]; [|auto].
      injection Hin as -> ->. exists i, j. split_and!; try assumption; [left|].
      intros b Hb. discriminate.
Qed.

Lemma self_candidates_spec idxs net : forall l n,
  self_candidates idxs net = Ok l -> n ∈ l -> n ∈ nodes net.
Proof.
  induction idxs as [|i idxs IH]; intros l n H Hin; simpl in H.
  - injection H as <-. inversion Hin.
  - destruct (at_Z (nodes net) i) as [m|] eqn:E1; [|discriminate].
    apply bind_Ok in H as (rest & Hr & H). injection H as <-.
    destruct (Qeq_bool _ _); [|eauto].
    apply elem_of_cons in Hin as [->|Hin]; [|eauto].
    apply at_Z_Some in E1 as [_ E1]. apply list_elem_of_lookup. eauto.
Qed.

Lemma not_projecting_in_nil a b net :
  wf net -> a ∈ nodes net -> a ≠ b -> conn_in (node_at net b) = [] ->
  Node_isProjectingTo a b net = false.
Proof.
  intros W Ha Hab Hin. destruct (Node_isProjectingTo a b net) eqn:E; [|reflexivity].
  apply projecting_iff in E; try assumption.
  apply list_elem_of_fmap in E as (c & Hp & Hc).
  pose proof (wf_conn_of _ _ W Hc) as (_&_&_&_&Hi&_).
  unfold pair_of in Hp. injection Hp as Hf Ht. rewrite <- Ht, Hin in Hi. inversion Hi.
Qed.

Lemma not_projecting_out_nil a b net :
  a ≠ b -> conn_out (node_at net a) = [] -> Node_isProjectingTo a b net = false.
Proof.
  intros Hab Hout. unfold Node_isProjectingTo. rewrite Hout. simpl.
  rewrite bool_decide_eq_false_2 by exact Hab. reflexivity.
Qed.

Lemma connect_positions_inv net i j a b w net' cs :
  inv net -> at_Z (nodes net) i = Some a -> at_Z (nodes net) j = Some b ->
  i ≠ j -> input_size net <= j -> Node_isProjectingTo a b net = false ->
  connect a b w net = Ok (net', cs) -> inv net'.
Proof.
  intros I Hi Hj Hij Hjs Hp H.
  pose proof I as (W & T & S & P).
  apply at_Z_Some in Hi as [Hi0 Hi]. apply at_Z_Some in Hj as [Hj0 Hj].
  assert (Ha : a ∈ nodes net) by (apply list_elem_of_lookup; eauto).
  assert (Hb : b ∈ nodes net) by (apply list_elem_of_lookup; eauto).
  assert (Hab : a ≠ b).
  { intros ->. destruct W as (N1 & _).
    pose proof (NoDup_lookup _ _ _ _ N1 Hi Hj). lia. }
  destruct P as (_ & _ & _ & P4). destruct (P4 _ _ Hj) as (_ & R2 & _).
  apply (connect_ordinary_inv a b w net net' cs I Ha Hb Hab Hp (R2 ltac:(lia)) H).
Qed.

Lemma mutate_ADD_NODE_inv ra rnd net net' :
  inv net -> mutate (Some (ADD_NODE ra)) rnd net = Ok net' -> inv net'.
Proof.
  intros I H. pose proof I as (W & T & S & P).
  unfold mutate in H.
  destruct (sample (rnd 0%nat) (connections net)) as [c|] eqn:Es; [|discriminate].
  apply sample_Some in Es.
  cbv zeta in H.
  apply bind_Ok in H as (net1 & Hd & H).
  destruct (Node_new Hidden net1) as [node net2] eqn:EN.
  set (net3 := if ra then upd_node node _ net2 else net2) in H.
  set (p := Z.min _ _) in H.
  set (net4 := set_nodes _ net3) in H.
  set (a := from (conn_at net c)) in *. set (b := to (conn_at net c)) in *.
  destruct (disconnect_ordinary_inv c net net1 I Es Hd) as (I1 & Hrem & Hsc1).
  pose proof (wf_conn_of _ _ W Es) as (Ha & Hb & Hab & _).
  fold a b in Ha, Hb, Hab.
  assert (Htb : type (node_at net b) ≠ Input).
  { unfold targets_ok in T. rewrite Forall_forall in T. apply (T c Es). }
  destruct Hrem as (A1&A2&A4&A5&A6&A7&A8&A9&A10&A11&A12&A13&A14&A15).
  pose proof I1 as (W1 & T1 & S1 & P1).
  pose proof (Node_new_spec Hidden net1) as HN. rewrite EN in HN. simpl in HN.
  destruct HN as (Hnode & H1 & H2 & H3 & H4 & H5 & H6 & H7 & H8 & _).
  assert (Hn3 : nodes net3 = nodes net1) by (unfold net3; destruct ra; exact H1).
  assert (Ho3 : output_size net3 = output_size net1) by (unfold net3; destruct ra; exact H8).
  assert (Hp : input_size net1 <= p <= zlength (nodes net1) - output_size net1).
  { unfold p. rewrite Hn3, Ho3.
    assert (Hb1 : b ∈ nodes net1) by (rewrite A1; exact Hb).
    destruct (indexOf_elem _ _ Hb1) as [k Hk]. unfold indexOfZ. rewrite Hk.
    apply indexOf_Some in Hk as [Hk _].
    destruct P1 as (Q1 & Q2 & Q3 & Q4). destruct (Q4 k b Hk) as (R1 & _ & _).
    assert (input_size net1 <= Z.of_nat k).
    { destruct (Z.lt_ge_cases (Z.of_nat k) (input_size net1)) as [Hlt|Hge]; [|lia].
      apply R1 in Hlt. rewrite A10 in Hlt. contradiction. }
    lia. }
  destruct (insert_node_inv net1 net2 node p I1 EN Hp)
    as (I4 & Hin4 & Hold4 & Ci4 & Co4 & Ty4 & Cs4 & Cat4).
  set (net4' := set_nodes (splice_insert p node (nodes net2)) net2) in *.
  assert (G4 : graph_eq net4' net4 /\ selfconns net4 = selfconns net4').
  { unfold net4, net3. destruct ra.
    - split; [|reflexivity].
      apply (graph_eq_upd_node node (Node_mutate_activation (rnd 1%nat)) net4').
      intros nd. split_and!; reflexivity.
    - split; [apply graph_eq_refl | reflexivity]. }
  destruct G4 as [G4 Hs4].
  pose proof (graph_eq_inv_same _ _ G4 Hs4 I4) as I4'.
  pose proof G4 as (G1&G2&G4a&G5&G6&G7&G8&G9&G10&G11&G12&G13&G14&G15).
  assert (Ha4 : a ∈ nodes net4) by (rewrite G1; apply Hold4; rewrite A1; exact Ha).
  assert (Hb4 : b ∈ nodes net4) by (rewrite G1; apply Hold4; rewrite A1; exact Hb).
  assert (Hn4 : node ∈ nodes net4) by (rewrite G1; exact Hin4).
  assert (Han : a ≠ node) by (apply Hold4; rewrite A1; exact Ha).
  assert (Hbn : b ≠ node) by (apply Hold4; rewrite A1; exact Hb).
  assert (Htb4 : type (node_at net4 b) ≠ Input).
  { rewrite G10. destruct (Hold4 b) as (_ & _ & ->); [rewrite A1; exact Hb|].
    rewrite A10. exact Htb. }
  apply bind_Ok in H as ([net5 cs1] & Hc1 & H).
  apply bind_Ok in H as ([net6 cs2] & Hc2 & H).
  assert (Hp1 : Node_isProjectingTo a node net4 = false).
  { apply not_projecting_in_nil; try assumption; [apply I4'|].
    rewrite G11. exact Ci4. }
  assert (Htn : type (node_at net4 node) ≠ Input) by (rewrite G10, Ty4; discriminate).
  destruct (connect_ordinary_inv a node None net4 net5 cs1 I4' Ha4 Hn4 Han Hp1 Htn Hc1)
    as (I5 & Hadd5 & _ & _).
  destruct Hadd5 as (B1&B2&B4&B5&B6&B7&B8&B9&B10&B11&B12&B13&B14&B15).
  assert (Hp2 : Node_isProjectingTo node b net5 = false).
  { apply not_projecting_out_nil; [congruence|].
    rewrite B12. case_dec; [congruence|]. rewrite G12. exact Co4. }
  assert (Htb5 : type (node_at net5 b) ≠ Input) by (rewrite B10; exact Htb4).
  assert (Hn5 : node ∈ nodes net5) by (rewrite B1; exact Hn4).
  assert (Hb5 : b ∈ nodes net5) by (rewrite B1; exact Hb4).
  destruct (connect_ordinary_inv node b None net5 net6 cs2 I5 Hn5 Hb5
              ltac:(congruence) Hp2 Htb5 Hc2) as (I6 & _).
  destruct (gater (conn_at net6 c)) as [g|].
  - destruct (if Qle_bool _ _ then _ else _) as [c'|]; [|discriminate].
    apply (graph_eq_inv_same net6); [eapply gate_graph_eq | eapply gate_selfconns | ];
      eassumption.
  - injection H as <-. exact I6.
Qed.

Lemma or_false_Some {A} (l : list A) (k : list A -> Candidates) p :
  or_false l k = Some p -> p = k l /\ l ≠ [].
Proof. destruct l; [discriminate|]. intros E. injection E as <-. split; [reflexivity | discriminate]. Qed.

Lemma filter_elem {A} (f : A -> bool) (l : list A) x :
  x ∈ List.filter f l -> x ∈ l /\ f x = true.
Proof. intros H. apply list_elem_of_In, filter_In in H as [H1 H2]. split; [apply list_elem_of_In; exact H1 | exact H2]. Qed.

Lemma mutate_SUB_NODE_inv kg rnd net net' :
  inv net -> mutate (Some (SUB_NODE kg)) rnd net = Ok net' -> inv net'.
Proof.
  intros I H. unfold mutate in H. apply bind_Ok in H as (p & Hp & H).
  unfold possible in Hp. injection Hp as <-.
  destruct (or_false _ _) as [[l| |]|] eqn:E; try (injection H as <-; exact I).
  apply or_false_Some in E as [E _]. injection E as ->.
  destruct (sample _ _) as [n|] eqn:Es; [|discriminate].
  apply sample_Some, filter_elem in Es as [Hn Ht].
  apply andb_true_iff in Ht as [Ht1 Ht2].
  apply negb_true_iff, bool_decide_eq_false in Ht1, Ht2.
  eapply remove_inv; eassumption.
Qed.

Lemma mutate_connect_inv (back : bool) rnd net net' :
  inv net -> mutate (Some (if back then ADD_BACK_CONN else ADD_CONN)) rnd net = Ok net' ->
  inv net'.
Proof.
  intros I H.
  assert (H' : (p ← possible (if back then ADD_BACK_CONN else ADD_CONN) net;
           match p with
           | Some (CPairs l) =>
               match sample (rnd 0%nat) l with
               | Some (a, Some b) => '(net', _) ← connect a b None net; Ok net'
               | _ => Throw "TypeError"
               end
           | _ => Ok net
           end) = Ok net') by (destruct back; exact H).
  clear H. apply bind_Ok in H' as (p & Hp & H).
  assert (Hps : exists ijs ps, pair_candidates ijs net = Ok ps /\ p = or_false ps CPairs
            /\ forall i j, (i, j) ∈ ijs -> i ≠ j /\ input_size net <= j).
  { destruct back; unfold possible in Hp; apply bind_Ok in Hp as (ps & Hps & Hp);
      injection Hp as <-; eexists _, ps; (split; [exact Hps|]); (split; [reflexivity|]);
      intros i j Hij; apply list_elem_of_bind in Hij as (i' & Hij & Hi');
      apply list_elem_of_bind in Hij as (j' & Hij & Hj');
      apply list_elem_of_singleton in Hij; injection Hij as -> ->;
      apply zrange_elem in Hi', Hj'; lia. }
  destruct Hps as (ijs & ps & Hps & -> & Hij).
  destruct (or_false _ _) as [[| l |]|] eqn:E; try (injection H as <-; exact I).
  apply or_false_Some in E as [E _]. injection E as ->.
  destruct (sample _ _) as [[a [b|]]|] eqn:Es; try discriminate.
  apply sample_Some in Es.
  destruct (pair_candidates_spec _ _ _ _ _ Hps Es) as (i & j & Hin & Hi & Hj & Hproj).
  destruct (Hij i j Hin) as [Hne Hge].
  apply bind_Ok in H as ([net1 cs] & Hc & H). injection H as <-.
  apply (connect_positions_inv net i j a b None net1 cs I Hi Hj Hne Hge (Hproj b eq_refl) Hc).
Qed.

Lemma mutate_disconnect_inv (back : bool) rnd net net' :
  inv net -> mutate (Some (if back then SUB_BACK_CONN else SUB_CONN)) rnd net = Ok net' ->
  inv net'.
Proof.
  intros I H.
  assert (H' : (p ← Ok (or_false (List.filter (removable back net) (connections net)) CConns);
           match p with
           | Some (CConns l) =>
               match sample (rnd 0%nat) l with
               | Some c => disconnect (from (conn_at net c)) (to (conn_at net c)) net
               | None => Throw "TypeError"
               end
           | _ => Ok net
           end) = Ok net') by (destruct back; exact H).
  clear H. apply bind_Ok in H' as (p & Hp & H). injection Hp as <-.
  destruct (or_false _ _) as [[| | l]|] eqn:E; try (injection H as <-; exact I).
  apply or_false_Some in E as [E _]. injection E as ->.
  destruct (sample _ _) as [c|] eqn:Es; [|discriminate].
  apply sample_Some, filter_elem in Es as [Hc _].
  apply (disconnect_ordinary_inv c net net' I Hc H).
Qed.

Lemma upd_node_inv n f net :
  (forall nd, type (f nd) = type nd /\ conn_in (f nd) = conn_in nd
              /\ conn_out (f nd) = conn_out nd /\ conn_self (f nd) = conn_self nd) ->
  inv net -> inv (upd_node n f net).
Proof.
  intros Hf. apply graph_eq_inv_same; [apply graph_eq_upd_node; exact Hf | reflexivity].
Qed.

Lemma mutate_inv method rnd net net' :
  inv net -> mutate (Some method) rnd net = Ok net' -> inv net'.
Proof.
  intros I H. destruct method.
  - eapply mutate_ADD_NODE_inv; eassumption.
  - eapply mutate_SUB_NODE_inv; eassumption.
  - apply (mutate_connect_inv false rnd net net' I H).
  - apply (mutate_disconnect_inv false rnd net net' I H).
  - unfold mutate in H. destruct (sample _ _) as [c|]; [|discriminate].
    injection H as <-.
    apply (graph_eq_inv_same net); [|reflexivity|exact I].
    apply graph_eq_upd_conn. intros cn. split; reflexivity.
  - unfold mutate in H. destruct (at_Z _ _) as [n|]; [|discriminate].
    injection H as <-. apply upd_node_inv; [|exact I].
    intros nd. split_and!; reflexivity.
  - unfold mutate in H. apply bind_Ok in H as (p & _ & H).
    destruct p as [cands|]; [|injection H as <-; exact I].
    destruct (sample _ _) as [n|]; [|discriminate].
    injection H as <-. apply upd_node_inv; [|exact I].
    intros nd. split_and!; reflexivity.
  - unfold mutate in H. apply bind_Ok in H as (p & Hp & H).
    unfold possible in Hp. apply bind_Ok in Hp as (ns & Hns & Hp). injection Hp as <-.
    destruct (or_false _ _) as [[l| |]|] eqn:E; try (injection H as <-; exact I).
    apply or_false_Some in E as [E _]. injection E as ->.
    destruct (sample _ _) as [n|] eqn:Es; [|discriminate].
    apply sample_Some in Es.
    apply bind_Ok in H as ([net1 cs] & Hc & H). injection H as <-.
    eapply connect_self_inv; [exact I | | exact Hc].
    eapply self_candidates_spec; eassumption.
  - unfold mutate in H. apply bind_Ok in H as (p & _ & H).
    destruct p as [cands|]; [|injection H as <-; exact I].
    destruct (sample _ _) as [c|] eqn:Es; [|discriminate].
    apply sample_Some in Es.
    pose proof I as (_ & _ & S & _). unfold selfconns_ok in S.
    rewrite Forall_forall in S. destruct (S c Es) as [_ Hft].
    rewrite Hft in H. eapply disconnect_self_inv; eassumption.
  - unfold mutate in H. apply bind_Ok in H as (p & _ & H).
    destruct p as [[| |l]|]; try (injection H as <-; exact I).
    destruct (at_Z _ _) as [n|]; [|discriminate].
    destruct (sample _ _) as [c|]; [|discriminate].
    apply (graph_eq_inv_same net); [eapply gate_graph_eq | eapply gate_selfconns | ];
      eassumption.
  - unfold mutate in H. apply bind_Ok in H as (p & _ & H).
    destruct p as [cands|]; [|injection H as <-; exact I].
    destruct (sample _ _) as [c|]; [|discriminate].
    apply (graph_eq_inv_same net); [eapply ungate_graph_eq | eapply ungate_selfconns | ];
      eassumption.
  - apply (mutate_connect_inv true rnd net net' I H).
  - apply (mutate_disconnect_inv true rnd net net' I H).
  - unfold mutate in H. apply bind_Ok in H as (p & _ & H).
    destruct p as [[l| |]|]; try (injection H as <-; exact I).
    destruct (sample _ _) as [n1|]; [|discriminate].
    destruct (sample _ _) as [n2|]; [|discriminate].
    injection H as <-.
    apply upd_node_inv; [intros nd; split_and!; reflexivity|].
    apply upd_node_inv; [intros nd; split_and!; reflexivity|]. exact I.
Qed.

Lemma Network_new_inv i o w net :
  0 <= i -> 0 <= o -> Network_new (Some i) (Some o) w = Ok net -> inv net.
Proof.
  intros Hi Ho H.
  destruct (Network_new_spec i o w) as (net0 & H0 & C). rewrite H in H0.
  injection H0 as <-.
  destruct C as (C1 & C2 & C3 & C4 & C5 & C6 & C7 & C8 & C9 & C10 & C11).
  split_and!.
  - exact C2.
  - unfold targets_ok. rewrite Forall_forall. intros c Hc.
    assert (Hp : pair_of net c ∈ io_pairs i o).
    { rewrite <- C4. apply list_elem_of_fmap. exists c. split; [reflexivity | exact Hc]. }
    unfold pair_of in Hp. apply io_pairs_elem in Hp as (_ & Hge & Hlt).
    rewrite C3 by lia. unfold initial_type.
    destruct (Z.ltb_spec (Z.of_nat (to (conn_at net c))) i); [lia | discriminate].
  - unfold selfconns_ok. rewrite C6. constructor.
  - unfold typed_partition, zlength. rewrite C1, C8, C9, length_seq.
    split_and!; try lia.
    intros k n Hk. apply lookup_seq in Hk as [-> Hk]. simpl.
    rewrite C3 by exact Hk. unfold initial_type.
    destruct (Z.ltb_spec (Z.of_nat k) i); split_and!; intros; try lia;
      try reflexivity; discriminate.
Qed.

Lemma reachable_inv net : reachable net -> inv net.
Proof.
  induction 1 as [i o w net Hi Ho H | method rnd net net' _ IH H].
  - exact (Network_new_inv i o w net Hi Ho H).
  - exact (mutate_inv method rnd net net' IH H).
Qed.



Lemma reachable_mutate_all steps : forall net net',
  reachable net -> mutate_all steps net = Ok net' -> reachable net'.
Proof.
  induction steps as [|[method rnd] steps IH]; intros net net' R H; simpl in H.
  - injection H as <-. exact R.
  - apply bind_Ok in H as (net1 & H1 & H).
    apply (IH net1); [|exact H]. exact (reachable_mutate method rnd net net1 R H1).
Qed.

Lemma reachable_net_2_1_2 : reachable net_2_1_2.
Proof.
  apply (reachable_mutate (ADD_NODE false) (const_draws (1 # 2)) net_2_2).
  - apply (reachable_new 2 2 (const_draws (1 # 2))); [lia | lia | vm_compute; reflexivity].
  - vm_compute. reflexivity.
Qed.


(** ** remove, where a self-connection is listed more than once *)

(** C9, the failing input: a network that the constructor and six
    mutations produce, in which the self-connection of the hidden node is
    listed three times. [remove] strikes two of the three entries; the
    third stays in [selfconns], from and to the node that is gone. *)
Theorem remove_leaves_self_connection :
  reachable net_self_thrice
  /\ 4%nat ∈ nodes net_self_thrice
  /\ selfconns net_self_thrice = [8; 8; 8]%nat
  /\ remove true 4%nat (const_draws (1 # 2)) net_self_thrice = Ok net_self_removed
  /\ (4%nat ∉ nodes net_self_removed)
  /\ selfconns net_self_removed = [8%nat]
  /\ pair_of net_self_removed 8%nat = (4%nat, 4%nat)
  /\ ~ detached 4%nat net_self_removed.
Proof.
  split_and!; try (vm_compute; reflexivity).
  - apply (reachable_mutate_all
             [(ADD_SELF_CONN, const_draws 0); (MOD_WEIGHT (-1) 1, last_lowest);
              (ADD_SELF_CONN, const_draws 0); (MOD_WEIGHT (-1) 1, last_lowest);
              (ADD_SELF_CONN, const_draws 0)] net_2_1_2);
      [exact reachable_net_2_1_2 | vm_compute; reflexivity].
  - refine (bool_decide_unpack _ _); vm_compute; exact I.
  - refine (bool_decide_unpack _ _); vm_compute; exact I.
  - intros D. destruct (D 8%nat) as [D1 _]; [|apply D1; vm_compute; reflexivity].
    refine (bool_decide_unpack _ _); vm_compute; exact I.
Qed.

(** ** Crossover *)













(** *** The indices [cross_over] assigns *)

Lemma imap_pair_snd {A} (l : list A) : forall f : nat -> nat,
  (imap (fun i x => (f i, x)) l).*2 = l.
Proof.
  induction l as [|x l IH]; intros f; simpl; [reflexivity|].
  f_equal. apply (IH (f ∘ S)).
Qed.

Lemma set_indices_fold (l : list (nat * nat)) : forall net,
  NoDup l.*2 ->
  let net' := fold_left (fun net '(i, n) => upd_node n (set_index (Some i)) net) l net in
  nodes net' = nodes net /\ connections net' = connections net
  /\ selfconns net' = selfconns net
  /\ (forall c, conn_at net' c = conn_at net c)
  /\ (forall n, n ∉ l.*2 -> node_at net' n = node_at net n)
  /\ (forall i n, (i, n) ∈ l -> index (node_at net' n) = Some i).
Proof.
  induction l as [|[i0 n0] l IH]; intros net Hnd; simpl.
  - split_and!; try reflexivity. intros i n Hin. inversion Hin.
  - simpl in Hnd. apply NoDup_cons in Hnd as [Hn0 Hnd].
    destruct (IH (upd_node n0 (set_index (Some i0)) net) Hnd)
      as (H1 & H2 & H3 & H4 & H5 & H6).
    split_and!; try assumption.
    + intros n Hn. apply not_elem_of_cons in Hn as [Hne Hn].
      rewrite (H5 n Hn). apply node_at_upd_node_ne. congruence.
    + intros i n Hin. apply elem_of_cons in Hin as [Hin|Hin]; [|apply H6; exact Hin].
      injection Hin as -> ->. rewrite (H5 n0 Hn0), node_at_upd_node_eq. reflexivity.
Qed.

Lemma set_indices_spec net :
  NoDup (nodes net) ->
  nodes (set_indices net) = nodes net
  /\ connections (set_indices net) = connections net
  /\ selfconns (set_indices net) = selfconns net
  /\ (forall c, conn_at (set_indices net) c = conn_at net c)
  /\ (forall i n, nodes net !! i = Some n -> index (node_at (set_indices net) n) = Some i).
Proof.
  intros Hnd. unfold set_indices.
  assert (Hsnd : (imap pair (nodes net)).*2 = nodes net) by apply (imap_pair_snd _ id).
  destruct (set_indices_fold (imap pair (nodes net)) net) as (H1 & H2 & H3 & H4 & _ & H6).
  { rewrite Hsnd. exact Hnd. }
  split_and!; try assumption.
  intros i n Hi. apply H6. apply elem_of_lookup_imap. exists i, n. auto.
Qed.

Lemma push_node_wf net nd :
  wf net -> Forall (fun c => (c < next_conn net)%nat) (selfconns net) ->
  let n := (Node_new Hidden net).1 in
  let off2 := upd_node n (fun x => set_type (type nd)
                                     (set_squash (squash nd) (set_bias (bias nd) x)))
                (Node_new Hidden net).2 in
  let net' := set_nodes (nodes off2 ++ [n]) off2 in
  wf net' /\ nodes net' = nodes net ++ [next_node net]
  /\ connections net' = connections net /\ selfconns net' = selfconns net
  /\ Forall (fun c => (c < next_conn net')%nat) (selfconns net').
Proof.
  intros W Hsc.
  pose proof (Node_new_spec Hidden net) as HN. cbv zeta in HN.
  destruct (Node_new Hidden net) as [n0 net2]. cbn [fst snd] in *.
  destruct HN as (-> & H1 & H2 & H3 & H4 & H5 & H6 & H7 & H8 & H9 & H10 & H11 & H12).
  cbv zeta.
  pose proof W as (N1 & N2 & N3 & N4 & N5).
  rewrite Forall_forall in N5.
  assert (Hfresh : next_node net ∉ nodes net).
  { intros Hn. apply N5 in Hn. destruct Hn as (_&_&_&_&_&_&_&Hn). lia. }
  split_and!.
  - apply (new_node_wf net); try assumption; cbn [nodes connections next_conn next_node set_nodes upd_node set_node_store]; try assumption.
    + intros m. rewrite H1, elem_of_app, list_elem_of_singleton. tauto.
    + rewrite H1. apply NoDup_app. split_and!; [exact N1 | | apply NoDup_singleton].
      intros x Hx Hx'. apply list_elem_of_singleton in Hx'. subst x. exact (Hfresh Hx).
    + intros m Hm. rewrite node_at_set_nodes, node_at_upd_node_ne by congruence.
      apply H11. exact Hm.
    + rewrite node_at_set_nodes, node_at_upd_node_eq. simpl. rewrite H9. reflexivity.
    + rewrite node_at_set_nodes, node_at_upd_node_eq. simpl. rewrite H9. reflexivity.
    + rewrite node_at_set_nodes, node_at_upd_node_eq. simpl. rewrite H9. reflexivity.
    + rewrite conn_at_set_nodes, conn_at_upd_node, H10. reflexivity.
    + rewrite conn_at_set_nodes, conn_at_upd_node, H10. reflexivity.
  - simpl. rewrite H1. reflexivity.
  - simpl. exact H2.
  - simpl. exact H3.
  - simpl. rewrite H3, H6. eapply Forall_impl; [exact Hsc|]. simpl. intros. lia.
Qed.

(** *** The nodes of the offspring *)




(** *** The connections of the offspring *)

Lemma connect_self_frame a w net net' cs :
  connect a a w net = Ok (net', cs) ->
  forall c, c ≠ conn_self (node_at net a) -> conn_at net' c = conn_at net c.
Proof.
  unfold connect, Node_connect. destruct (decide (a = a)) as [_|]; [|contradiction].
  destruct (Qeq_bool _ 0); simpl; destruct (decide (a = a)) as [_|]; try contradiction;
    intros [= <- <-] c Hc; rewrite conn_at_set_selfconns; [|reflexivity].
  apply conn_at_upd_conn_ne. congruence.
Qed.

Lemma connect_self_total a w net :
  exists net', connect a a w net = Ok (net', [conn_self (node_at net a)]).
Proof.
  unfold connect, Node_connect. destruct (decide (a = a)) as [_|]; [|contradiction].
  destruct (Qeq_bool _ 0); simpl; destruct (decide (a = a)) as [_|]; try contradiction;
    eexists; reflexivity.
Qed.

Lemma gate_total n c net : n ∈ nodes net -> exists net', gate n c net = Ok net'.
Proof.
  intros Hn. unfold gate. destruct (indexOf_elem _ _ Hn) as [i ->].
  destruct (gater (conn_at net c)); eexists; reflexivity.
Qed.

Lemma gate_weight n c net net' :
  gate n c net = Ok net' -> forall c', weight (conn_at net' c') = weight (conn_at net c').
Proof.
  unfold gate. destruct (indexOf n (nodes net)); [|discriminate].
  destruct (gater (conn_at net c)); intros [= <-] c'; [reflexivity|].
  unfold Node_gate. rewrite conn_at_set_gates, conn_at_upd_conn, conn_at_upd_node.
  destruct (decide _) as [->|]; reflexivity.
Qed.

(** The gating step of [cross_over] for one gene. *)
Lemma regate_gene_total (gg : option (option nat)) size c off :
  Z.of_nat (length (nodes off)) = size ->
  exists off', match gg with
               | Some (Some gi) =>
                   if Z.of_nat gi <? size then
                     match nodes off !! gi with
                     | Some gn => gate gn c off
                     | None => Throw "This node is not part of the network!"
                     end
                   else Ok off
               | _ => Ok off
               end = Ok off'
    /\ graph_eq off off' /\ selfconns off' = selfconns off
    /\ forall c', weight (conn_at off' c') = weight (conn_at off c').
Proof.
  intros Hsize.
  assert (Hrefl : exists off', Ok off = Ok off' /\ graph_eq off off'
            /\ selfconns off' = selfconns off
            /\ forall c', weight (conn_at off' c') = weight (conn_at off c')).
  { exists off. split_and!; try reflexivity. apply graph_eq_refl. }
  destruct gg as [[gi|]|]; try exact Hrefl.
  destruct (Z.ltb_spec (Z.of_nat gi) size); [|exact Hrefl].
  destruct (nodes off !! gi) as [gn|] eqn:E.
  2:{ apply lookup_ge_None in E. lia. }
  assert (Hgn : gn ∈ nodes off) by (apply list_elem_of_lookup; eauto).
  destruct (gate_total gn c off Hgn) as [off' Hg].
  exists off'. split_and!; [exact Hg | eapply gate_graph_eq | eapply gate_selfconns
                           | eapply gate_weight]; eassumption.
Qed.

Lemma rbind_Ok {A B} (x : A) (k : A -> result B) : (Ok x ≫= k) = k x.
Proof. reflexivity. Qed.

Lemma Permutation_of_eq {A} (l l' : list A) : l = l' -> l ≡ₚ l'.
Proof. intros ->. reflexivity. Qed.

Lemma conn_triple_ext off off' c :
  nodes off' = nodes off ->
  from (conn_at off' c) = from (conn_at off c) ->
  to (conn_at off' c) = to (conn_at off c) ->
  weight (conn_at off' c) = weight (conn_at off c) ->
  conn_triple off' c = conn_triple off c.
Proof. intros H1 H2 H3 H4. unfold conn_triple. rewrite H1, H2, H3, H4. reflexivity. Qed.

Lemma instantiate_step size g genes off f t :
  wf off -> Z.of_nat (length (nodes off)) = size ->
  Forall (fun c => (c < next_conn off)%nat) (selfconns off) ->
  g_from g = Some f -> g_to g = Some t ->
  (f < length (nodes off))%nat -> (t < length (nodes off))%nat ->
  (Some f, Some t) ∉ map triple_pair (connection_set off) ->
  exists off3, instantiate (g :: genes) size off = instantiate genes size off3
    /\ wf off3 /\ nodes off3 = nodes off
    /\ Forall (fun c => (c < next_conn off3)%nat) (selfconns off3)
    /\ connection_set off3 ≡ₚ connection_set off ++ [gene_triple g].
Proof.
  intros W Hsize Hbound Hf Ht Hfl Htl Hfresh.
  pose proof W as (N1 & N2 & N3 & N4 & N5).
  rewrite Forall_forall in Hbound.
  destruct (lookup_lt_is_Some_2 _ _ Hfl) as [nf Enf].
  destruct (lookup_lt_is_Some_2 _ _ Htl) as [nt Ent].
  assert (Hnf : nf ∈ nodes off) by (apply list_elem_of_lookup; eauto).
  assert (Hnt : nt ∈ nodes off) by (apply list_elem_of_lookup; eauto).
  pose proof (NoDup_indexOf _ _ _ N1 Enf) as Inf.
  pose proof (NoDup_indexOf _ _ _ N1 Ent) as Int.
  assert (Hnew : forall c, c ∈ connections off ++ selfconns off ->
            from (conn_at off c) = nf -> to (conn_at off c) = nt -> False).
  { intros c Hc Hcf Hct. apply Hfresh. apply list_elem_of_fmap.
    exists (conn_triple off c). split.
    - unfold triple_pair, conn_triple. simpl. rewrite Hcf, Hct, Inf, Int. reflexivity.
    - apply list_elem_of_fmap. exists c. auto. }
  cbn [instantiate]. rewrite Hf, Ht.
  replace (Z.of_nat t <? size) with true by (symmetry; apply Z.ltb_lt; lia).
  replace (Z.of_nat f <? size) with true by (symmetry; apply Z.ltb_lt; lia).
  cbn [andb]. rewrite Enf, Ent.
  destruct (decide (nf = nt)) as [<-|Hne].
  - (* a self-connection gene *)
    assert (t = f) by congruence. subst t.
    destruct (connect_self_total nf None off) as [off1 Hc1].
    set (c := conn_self (node_at off nf)) in *.
    destruct (connect_self _ _ _ _ _ Hc1) as (G1 & _ & Hsc1 & _).
    pose proof (connect_self_frame _ _ _ _ _ Hc1) as Hframe1. fold c in Hframe1.
    rewrite Hc1, rbind_Ok. cbv beta iota zeta.
    set (off2 := upd_conn c (set_weight (g_weight g)) off1).
    assert (G2 : graph_eq off1 off2).
    { apply graph_eq_upd_conn. intros cn. split; reflexivity. }
    pose proof (graph_eq_trans _ _ _ G1 G2) as G02.
    assert (Hsize2 : Z.of_nat (length (nodes off2)) = size).
    { destruct G02 as (-> & _). exact Hsize. }
    destruct (regate_gene_total (g_gater g) size c off2 Hsize2) as (off3 & Hg & G3 & S3 & W3).
    rewrite Hg, rbind_Ok. exists off3. split; [reflexivity|].
    pose proof (graph_eq_trans _ _ _ G02 G3) as G03.
    pose proof G03 as (K1&K2&K4&K5&K6&K7&K8&K9&K10&K11&K12&K13&K14&K15).
    pose proof (wf_node_of _ _ W Hnf) as (_&_&_&_&Dfrom&Dto&Dlt&_). fold c in Dfrom, Dto, Dlt.
    assert (Hc_new : c ∉ connections off ++ selfconns off).
    { intros Hc. exact (Hnew c Hc Dfrom Dto). }
    assert (Hs3 : selfconns off3 = selfconns off ++ [c]).
    { rewrite S3. unfold off2. simpl. exact Hsc1. }
    split_and!.
    + eapply graph_eq_wf; eassumption.
    + exact K1.
    + rewrite Forall_forall, Hs3, K5. intros x Hx.
      apply elem_of_app in Hx as [Hx|Hx]; [apply Hbound; exact Hx|].
      apply list_elem_of_singleton in Hx. subst x. exact Dlt.
    + unfold connection_set. rewrite Hs3, K2, app_assoc, map_app. simpl.
      apply Permutation_app.
      * apply Permutation_of_eq. apply map_ext_in. intros x Hx. apply list_elem_of_In in Hx.
        assert (x ≠ c) by (intros ->; exact (Hc_new Hx)).
        apply conn_triple_ext; try congruence.
        rewrite W3. unfold off2. rewrite conn_at_upd_conn_ne by congruence.
        rewrite Hframe1 by assumption. reflexivity.
      * apply Permutation_of_eq. f_equal.
        unfold conn_triple, gene_triple.
        rewrite K1, K8, K9, Dfrom, Dto, Inf, W3, Hf, Ht. unfold off2.
        rewrite conn_at_upd_conn_eq. reflexivity.
  - (* an ordinary gene *)
    assert (Hproj : Node_isProjectingTo nf nt off = false).
    { destruct (Node_isProjectingTo nf nt off) eqn:E; [|reflexivity]. exfalso.
      apply projecting_iff in E; try assumption.
      apply list_elem_of_fmap in E as (c & Hp & Hc). unfold pair_of in Hp.
      injection Hp as Hp1 Hp2.
      apply (Hnew c); [apply elem_of_app; left; exact Hc | congruence | congruence]. }
    destruct (connect_ordinary nf nt None off Hne Hproj)
      as (off1 & Hc1 & Hadd & Hsc1 & _ & _ & _ & Hframe1).
    set (c := next_conn off) in *.
    assert (Hnp : (nf, nt) ∉ map (pair_of off) (connections off)).
    { intros Hp. apply projecting_iff in Hp; try assumption. congruence. }
    pose proof (added_wf _ _ _ _ W Hnf Hnt Hne Hnp Hadd) as W1.
    rewrite Hc1, rbind_Ok. cbv beta iota zeta.
    set (off2 := upd_conn c (set_weight (g_weight g)) off1).
    assert (G2 : graph_eq off1 off2).
    { apply graph_eq_upd_conn. intros cn. split; reflexivity. }
    destruct Hadd as (A1&A2&A4&A5&A6&A7&A8&A9&A10&A11&A12&A13&A14&A15).
    assert (Hsize2 : Z.of_nat (length (nodes off2)) = size).
    { destruct G2 as (-> & _). rewrite A1. exact Hsize. }
    destruct (regate_gene_total (g_gater g) size c off2 Hsize2) as (off3 & Hg & G3 & S3 & W3).
    rewrite Hg, rbind_Ok. exists off3. split; [reflexivity|].
    pose proof (graph_eq_trans _ _ _ G2 G3) as G13.
    pose proof G13 as (K1&K2&K4&K5&K6&K7&K8&K9&K10&K11&K12&K13&K14&K15).
    assert (Hs3 : selfconns off3 = selfconns off).
    { rewrite S3. unfold off2. simpl. exact Hsc1. }
    assert (Hold : forall x, x ∈ connections off ++ selfconns off -> (x < c)%nat).
    { intros x Hx. apply elem_of_app in Hx as [Hx|Hx];
        [apply (wf_conn_lt off); assumption | apply Hbound; exact Hx]. }
    assert (Hext : forall x, x ∈ connections off ++ selfconns off ->
              conn_triple off3 x = conn_triple off x).
    { intros x Hx. apply Hold in Hx.
      apply conn_triple_ext.
      - congruence.
      - rewrite K8, A8. case_dec; [lia | reflexivity].
      - rewrite K9, A9. case_dec; [lia | reflexivity].
      - rewrite W3. unfold off2. rewrite conn_at_upd_conn_ne by lia.
        rewrite Hframe1 by lia. reflexivity. }
    split_and!.
    + eapply graph_eq_wf; eassumption.
    + congruence.
    + rewrite Forall_forall, Hs3, K5, A5. intros x Hx. apply Hbound in Hx. lia.
    + unfold connection_set. rewrite Hs3, K2, A2, !map_app. simpl.
      rewrite (map_ext_in (conn_triple off3) (conn_triple off) (connections off)).
      2:{ intros x Hx. apply list_elem_of_In in Hx. apply Hext, elem_of_app. auto. }
      rewrite (map_ext_in (conn_triple off3) (conn_triple off) (selfconns off)).
      2:{ intros x Hx. apply list_elem_of_In in Hx. apply Hext, elem_of_app. auto. }
      replace (conn_triple off3 c) with (gene_triple g).
      2:{ unfold conn_triple, gene_triple.
          rewrite K1, A1, K8, K9, A8, A9, W3, Hf, Ht. unfold off2.
          rewrite conn_at_upd_conn_eq. case_dec; congruence. }
      rewrite <- !app_assoc. apply Permutation_app_head.
      apply (Permutation_app_comm [gene_triple g]).
Qed.

Lemma instantiate_spec size genes : forall off,
  wf off -> Z.of_nat (length (nodes off)) = size ->
  Forall (fun c => (c < next_conn off)%nat) (selfconns off) ->
  Forall (fun g => exists f t, g_from g = Some f /\ g_to g = Some t
                     /\ Z.of_nat f < size /\ Z.of_nat t < size) genes ->
  NoDup (map triple_pair (connection_set off ++ map gene_triple genes)) ->
  exists off', instantiate genes size off = Ok off' /\ nodes off' = nodes off
    /\ connection_set off' ≡ₚ connection_set off ++ map gene_triple genes.
Proof.
  induction genes as [|g genes IH]; intros off W Hsize Hbound Hg Hnd.
  - exists off. split_and!; try reflexivity. simpl. rewrite app_nil_r. reflexivity.
  - apply Forall_cons in Hg as [(f & t & Hf & Ht & Hfl & Htl) Hg].
    assert (Hfresh : (Some f, Some t) ∉ map triple_pair (connection_set off)).
    { rewrite map_app in Hnd. apply NoDup_app in Hnd as (_ & Hd & _).
      intros Hin. apply (Hd _ Hin). simpl.
      unfold triple_pair at 1, gene_triple at 1. simpl. rewrite Hf, Ht. left. }
    destruct (instantiate_step size g genes off f t W Hsize Hbound Hf Ht
                ltac:(lia) ltac:(lia) Hfresh)
      as (off3 & E & W3 & Hn3 & Hb3 & Hcs3).
    destruct (IH off3 W3 ltac:(rewrite Hn3; exact Hsize) Hb3 Hg) as (off' & E' & Hn' & Hcs').
    { rewrite Hcs3, <- app_assoc. exact Hnd. }
    exists off'. split_and!.
    + rewrite E. exact E'.
    + congruence.
    + rewrite Hcs', Hcs3, <- app_assoc. reflexivity.
Qed.

Lemma connection_set_positions net tr :
  wf net -> wf_selfconns net -> tr ∈ connection_set net ->
  exists f t, tr.1.1 = Some f /\ tr.1.2 = Some t
    /\ (f < length (nodes net))%nat /\ (t < length (nodes net))%nat.
Proof.
  intros W WS Htr. apply list_elem_of_fmap in Htr as (c & -> & Hc).
  assert (Hft : from (conn_at net c) ∈ nodes net /\ to (conn_at net c) ∈ nodes net).
  { apply elem_of_app in Hc as [Hc|Hc].
    - pose proof (wf_conn_of _ _ W Hc) as (H1 & H2 & _). auto.
    - destruct (self_entry _ _ W WS Hc) as (H1 & H2 & _). rewrite H2. auto. }
  destruct Hft as [Hf Ht].
  destruct (indexOf_elem _ _ Hf) as [f Ef]. destruct (indexOf_elem _ _ Ht) as [t Et].
  exists f, t. unfold conn_triple. simpl. split_and!; try assumption.
  - apply indexOf_Some in Ef as [Ef _]. eapply lookup_lt_Some; eassumption.
  - apply indexOf_Some in Et as [Et _]. eapply lookup_lt_Some; eassumption.
Qed.

Lemma indexOf_inj {A} `{EqDecision A} (l : list A) x y :
  x ∈ l -> indexOf x l = indexOf y l -> x = y.
Proof.
  intros Hx E. destruct (indexOf_elem _ _ Hx) as [i Hi]. rewrite Hi in E.
  apply indexOf_Some in Hi as [Hi _]. symmetry in E. apply indexOf_Some in E as [E _].
  congruence.
Qed.

Lemma conn_pair_inj net c1 c2 :
  wf net -> wf_selfconns net ->
  c1 ∈ connections net ++ selfconns net -> c2 ∈ connections net ++ selfconns net ->
  triple_pair (conn_triple net c1) = triple_pair (conn_triple net c2) -> c1 = c2.
Proof.
  intros W WS H1 H2 E. unfold triple_pair, conn_triple in E. simpl in E.
  injection E as Ef Et.
  assert (Hin : forall c, c ∈ connections net ++ selfconns net ->
            from (conn_at net c) ∈ nodes net /\ to (conn_at net c) ∈ nodes net).
  { intros c Hc. apply elem_of_app in Hc as [Hc|Hc].
    - pose proof (wf_conn_of _ _ W Hc) as (Q1 & Q2 & _). auto.
    - destruct (self_entry _ _ W WS Hc) as (Q1 & Q2 & _). rewrite Q2. auto. }
  destruct (Hin c1 H1) as [F1 T1].
  apply indexOf_inj in Ef; [|exact F1]. apply indexOf_inj in Et; [|exact T1].
  apply elem_of_app in H1 as [H1|H1]; apply elem_of_app in H2 as [H2|H2].
  - apply (pair_of_inj net); try assumption. unfold pair_of. congruence.
  - pose proof (wf_conn_of _ _ W H1) as (_ & _ & Hne & _).
    destruct (self_entry _ _ W WS H2) as (_ & Q2 & _). congruence.
  - pose proof (wf_conn_of _ _ W H2) as (_ & _ & Hne & _).
    destruct (self_entry _ _ W WS H1) as (_ & Q2 & _). congruence.
  - destruct (self_entry _ _ W WS H1) as (_ & _ & Q1).
    destruct (self_entry _ _ W WS H2) as (_ & _ & Q2). congruence.
Qed.

Lemma all_conns_NoDup net :
  wf net -> wf_selfconns net -> NoDup (connections net ++ selfconns net).
Proof.
  intros W WS. apply NoDup_app. pose proof W as (_ & N2 & _). pose proof WS as [S1 _].
  split_and!; try assumption.
  intros c H1 H2.
  pose proof (wf_conn_of _ _ W H1) as (_ & _ & Hne & _).
  destruct (self_entry _ _ W WS H2) as (_ & Q2 & _). congruence.
Qed.

Lemma connection_set_NoDup net :
  wf net -> wf_selfconns net -> NoDup (map triple_pair (connection_set net)).
Proof.
  intros W WS. unfold connection_set. rewrite map_map.
  apply NoDup_fmap_2_strong.
  - intros c1 c2 H1 H2 E. apply (conn_pair_inj net); assumption.
  - apply all_conns_NoDup; assumption.
Qed.


Lemma gene_of_triple net c :
  wf net -> wf_selfconns net -> c ∈ connections net ++ selfconns net ->
  gene_triple (gene_of (set_indices net) c) = conn_triple net c.
Proof.
  intros W WS Hc. pose proof W as (N1 & _).
  destruct (set_indices_spec net N1) as (H1 & H2 & H3 & H4 & H5).
  assert (Hin : from (conn_at net c) ∈ nodes net /\ to (conn_at net c) ∈ nodes net).
  { apply elem_of_app in Hc as [Hc|Hc].
    - pose proof (wf_conn_of _ _ W Hc) as (Q1 & Q2 & _). auto.
    - destruct (self_entry _ _ W WS Hc) as (Q1 & Q2 & _). rewrite Q2. auto. }
  destruct Hin as [Hf Ht].
  destruct (indexOf_elem _ _ Hf) as [f Ef]. destruct (indexOf_elem _ _ Ht) as [t Et].
  unfold gene_triple, gene_of, conn_triple. simpl. rewrite H4, Ef, Et.
  apply indexOf_Some in Ef as [Ef _]. apply indexOf_Some in Et as [Et _].
  rewrite (H5 _ _ Ef), (H5 _ _ Et). reflexivity.
Qed.

Lemma zrange_length lo hi : length (zrange lo hi) = Z.to_nat (hi - lo).
Proof. unfold zrange. rewrite length_map, length_seq. reflexivity. Qed.



(** *** Cantor's pairing tells pairs apart *)

Lemma triangle_step (s : nat) :
  (S s * (S s + 1) / 2 = s * (s + 1) / 2 + S s)%nat.
Proof.
  replace (S s * (S s + 1))%nat with (s * (s + 1) + S s * 2)%nat by lia.
  apply Nat.div_add. lia.
Qed.

Lemma triangle_mono (s s' : nat) :
  (s < s')%nat -> (s * (s + 1) / 2 + s < s' * (s' + 1) / 2)%nat.
Proof.
  induction 1 as [|s' _ IH].
  - rewrite triangle_step. lia.
  - rewrite triangle_step. lia.
Qed.

Lemma cantor_inj a b a' b' : cantor a b = cantor a' b' -> a = a' /\ b = b'.
Proof.
  unfold cantor. intros E.
  assert (Hs : (a + b = a' + b')%nat).
  { destruct (Nat.lt_trichotomy (a + b) (a' + b')) as [H|[H|H]]; [|exact H|];
      apply triangle_mono in H; lia. }
  rewrite Hs in E. lia.
Qed.



(** The self-connection entry that [remove] can leave behind (see
    [remove_leaves_self_connection]) is lost as well, under an id that
    tells all ordered pairs apart: [net_self_removed], which [SUB_NODE]
    produces from [net_self_thrice], is well formed but for that entry of
    [selfconns], and its offspring with itself has the four ordinary
    connections only. *)
Lemma cross_over_self_stale_entry :
  mutate (Some (SUB_NODE true)) (const_draws (1 # 2)) net_self_thrice = Ok net_self_removed
  /\ wf net_self_removed /\ ~ wf_selfconns net_self_removed
  /\ exists offspring,
       cross_over cantor net_self_removed net_self_removed true example_cross_draws
       = Ok offspring
       /\ length (connection_set offspring) = 4%nat
       /\ length (connection_set net_self_removed) = 5%nat.
Proof.
  split_and!.
  - vm_compute. reflexivity.
  - refine (bool_decide_unpack _ _); vm_compute; exact I.
  - refine (bool_decide_unpack _ _); vm_compute; exact I.
  - eexists. split_and!; vm_compute; reflexivity.
Qed.

(** * Further properties of the interface *)

(** ** connect and disconnect *)

Lemma Node_disconnect_gates a b net : gates (Node_disconnect a b net) = gates net.
Proof.
  unfold Node_disconnect. destruct (decide (a = b)); [reflexivity|].
  match goal with |- context [find_index ?p ?l] => destruct (find_index p l) end;
    [|reflexivity].
  match goal with |- context [gater ?x] => destruct (gater x) end; reflexivity.
Qed.

Lemma Node_disconnect_weight a b net x :
  a ≠ b -> weight (conn_at (Node_disconnect a b net) x) = weight (conn_at net x).
Proof.
  intros Hab. unfold Node_disconnect. destruct (decide (a = b)); [contradiction|].
  match goal with |- context [find_index ?p ?l] => destruct (find_index p l) end;
    [|reflexivity].
  match goal with |- context [gater ?y] => destruct (gater y) end.
  - unfold Node_ungate. rewrite conn_at_upd_conn. destruct (decide _) as [->|]; reflexivity.
  - reflexivity.
Qed.

Lemma disconnect_ordinary_ungated a b c net :
  wf net -> c ∈ connections net -> pair_of net c = (a, b) ->
  gater (conn_at net c) = None ->
  disconnect a b net
  = Ok (Node_disconnect a b (set_connections (remove_first c (connections net)) net)).
Proof.
  intros W Hc Hp Hg.
  pose proof (wf_conn_of net c W Hc) as (Hfn & Htn & Hft & Hout & Hin & Hlt).
  unfold pair_of in Hp. injection Hp as Hf Ht. rewrite Hf, Ht in *.
  unfold disconnect. rewrite bool_decide_eq_false_2 by exact Hft.
  cbv beta iota zeta.
  destruct (find_index _ (connections net)) as [i|] eqn:Ei.
  2:{ eapply find_index_None in Ei; [|exact Hc]. simpl in Ei.
      rewrite Hf, Ht, !bool_decide_eq_true_2 in Ei by reflexivity. discriminate. }
  destruct (find_index_Some _ _ _ Ei) as (c' & Hi & Hhit). simpl in Hhit.
  apply andb_true_iff in Hhit as [Hh1 Hh2].
  apply bool_decide_eq_true in Hh1, Hh2.
  assert (c' = c).
  { apply (pair_of_inj net); try assumption.
    - apply list_elem_of_lookup. eauto.
    - unfold pair_of. congruence. }
  subst c'. rewrite Hi. simpl. rewrite Hg. rewrite !rbind_Ok.
  assert (Hnd : NoDup (connections net)) by (destruct W as (_&W2&_); exact W2).
  rewrite (remove_first_delete _ _ _ Hnd Hi). reflexivity.
Qed.

Lemma remove_first_snoc {A} `{EqDecision A} (l : list A) x :
  x ∉ l -> remove_first x (l ++ [x]) = l.
Proof.
  intros Hx. unfold remove_first.
  assert (E : indexOf x (l ++ [x]) = Some (length l)).
  { induction l as [|y l IH]; simpl.
    - destruct (decide (x = x)); [reflexivity | congruence].
    - apply not_elem_of_cons in Hx as [Hne Hx].
      destruct (decide (x = y)); [congruence|]. rewrite (IH Hx). reflexivity. }
  rewrite E. clear E Hx. induction l as [|y l IH]; simpl; [reflexivity|].
  f_equal. exact IH.
Qed.

(** X1 (connect, disconnect). Connecting two distinct nodes that were not
    connected and disconnecting them again gives back the network's lists:
    the nodes, the connections, the self-connections, the gates, and every
    node's incoming and outgoing connections are what they were. *)
Theorem connect_disconnect_roundtrip a b w net net1 cs :
  wf net -> a ∈ nodes net -> b ∈ nodes net -> a ≠ b ->
  connect a b w net = Ok (net1, cs) ->
  exists net2, disconnect a b net1 = Ok net2
    /\ nodes net2 = nodes net /\ connections net2 = connections net
    /\ selfconns net2 = selfconns net /\ gates net2 = gates net
    /\ (forall n, conn_in (node_at net2 n) = conn_in (node_at net n))
    /\ (forall n, conn_out (node_at net2 n) = conn_out (node_at net n))
    /\ (forall c, c ∈ connections net ->
          from (conn_at net2 c) = from (conn_at net c)
          /\ to (conn_at net2 c) = to (conn_at net c)
          /\ weight (conn_at net2 c) = weight (conn_at net c)).
Proof.
  intros W Ha Hb Hab Hc.
  assert (Hproj : Node_isProjectingTo a b net = false).
  { destruct (Node_isProjectingTo a b net) eqn:E; [|reflexivity].
    unfold connect, Node_connect in Hc. destruct (decide (a = b)); [contradiction|].
    rewrite E in Hc. discriminate. }
  destruct (connect_ordinary a b w net Hab Hproj)
    as (net1' & Hc' & Hadd & Hsc & Hgs & _ & Hgater & Hframe).
  rewrite Hc in Hc'. injection Hc' as <- ->.
  assert (Hnp : (a, b) ∉ map (pair_of net) (connections net)).
  { intros Hp. apply projecting_iff in Hp; try assumption. congruence. }
  pose proof (added_wf _ _ _ _ W Ha Hb Hab Hnp Hadd) as W1.
  pose proof Hadd as (A1&A2&A4&A5&A6&A7&A8&A9&A10&A11&A12&A13&A14&A15).
  set (c := next_conn net) in *.
  assert (Hc1 : c ∈ connections net1).
  { rewrite A2. apply elem_of_app. right. left. }
  assert (Hp1 : pair_of net1 c = (a, b)).
  { unfold pair_of. rewrite A8, A9. case_dec; congruence. }
  pose proof (disconnect_ordinary_ungated a b c net1 W1 Hc1 Hp1 Hgater) as Hd.
  eexists. split; [exact Hd|].
  destruct (disconnect_ordinary a b c net1 _ W1 Hc1 Hp1 Hd) as [Hrem Hsc2].
  destruct Hrem as (R1&R2&R4&R5&R6&R7&R8&R9&R10&R11&R12&R13&R14&R15).
  assert (Hfresh : forall l, Forall (fun x => x ∈ connections net) l -> c ∉ l).
  { intros l Hl Hin. rewrite Forall_forall in Hl. apply Hl in Hin.
    apply (wf_conn_lt net) in Hin; [|exact W]. unfold c in Hin. lia. }
  split_and!.
  - congruence.
  - rewrite R2, A2. apply remove_first_snoc. apply Hfresh.
    apply Forall_forall. auto.
  - congruence.
  - rewrite Node_disconnect_gates. simpl. exact Hgs.
  - intros n. rewrite R11, A11. destruct (decide (n = b)) as [->|]; [|reflexivity].
    apply remove_first_snoc. apply Hfresh.
    pose proof (wf_node_of _ _ W Hb) as (_&_&Hi&_).
    eapply Forall_impl; [exact Hi|]. simpl. tauto.
  - intros n. rewrite R12, A12. destruct (decide (n = a)) as [->|]; [|reflexivity].
    apply remove_first_snoc. apply Hfresh.
    pose proof (wf_node_of _ _ W Ha) as (Ho&_).
    eapply Forall_impl; [exact Ho|]. simpl. tauto.
  - intros x Hx. apply (wf_conn_lt net) in Hx; [|exact W].
    assert (Hne : x ≠ c) by (unfold c; lia).
    rewrite R8, R9, A8, A9. case_dec; try congruence.
    split_and!; try reflexivity.
    rewrite Node_disconnect_weight by exact Hab. rewrite conn_at_set_connections.
    rewrite Hframe by exact Hne. reflexivity.
Qed.

Lemma connect_disconnect_roundtrip_witness :
  exists net2, disconnect 2%nat 3%nat net_2_2_linked.1 = Ok net2
    /\ nodes net2 = nodes net_2_2 /\ connections net2 = connections net_2_2
    /\ selfconns net2 = selfconns net_2_2 /\ gates net2 = gates net_2_2
    /\ (forall n, conn_in (node_at net2 n) = conn_in (node_at net_2_2 n))
    /\ (forall n, conn_out (node_at net2 n) = conn_out (node_at net_2_2 n))
    /\ (forall c, c ∈ connections net_2_2 ->
          from (conn_at net2 c) = from (conn_at net_2_2 c)
          /\ to (conn_at net2 c) = to (conn_at net_2_2 c)
          /\ weight (conn_at net2 c) = weight (conn_at net_2_2 c)).
Proof.
  apply (connect_disconnect_roundtrip 2%nat 3%nat None net_2_2 net_2_2_linked.1
           net_2_2_linked.2).
  - refine (bool_decide_unpack _ _); vm_compute; exact I.
  - refine (bool_decide_unpack _ _); vm_compute; exact I.
  - refine (bool_decide_unpack _ _); vm_compute; exact I.
  - lia.
  - vm_compute. reflexivity.
Defined.

(** X2 (disconnect). Disconnecting two distinct nodes that no connection
    joins is not an error and changes nothing. *)
Theorem disconnect_unconnected a b net :
  wf net -> a ∈ nodes net -> a ≠ b ->
  (a, b) ∉ map (pair_of net) (connections net) ->
  disconnect a b net = Ok net.
Proof.
  intros W Ha Hab Hnp.
  unfold disconnect. rewrite bool_decide_eq_false_2 by exact Hab.
  cbv beta iota zeta.
  destruct (find_index _ (connections net)) as [i|] eqn:Ei.
  { destruct (find_index_Some _ _ _ Ei) as (c & Hi & Hhit). simpl in Hhit.
    apply andb_true_iff in Hhit as [Hh1 Hh2].
    apply bool_decide_eq_true in Hh1, Hh2. exfalso. apply Hnp.
    apply list_elem_of_fmap. exists c. split; [unfold pair_of; congruence|].
    apply list_elem_of_lookup. eauto. }
  rewrite rbind_Ok. f_equal.
  unfold Node_disconnect. destruct (decide (a = b)); [contradiction|].
  destruct (find_index _ (conn_out (node_at net a))) as [i|] eqn:Ei'; [|reflexivity].
  destruct (find_index_Some _ _ _ Ei') as (c & Hi & Hhit). simpl in Hhit.
  apply bool_decide_eq_true in Hhit. exfalso. apply Hnp.
  pose proof (wf_node_of _ _ W Ha) as (Ho & _). rewrite Forall_forall in Ho.
  destruct (Ho c) as [Hc Hf]; [apply list_elem_of_lookup; eauto|].
  apply list_elem_of_fmap. exists c. split; [unfold pair_of; congruence | exact Hc].
Qed.

Lemma disconnect_unconnected_witness : disconnect 2%nat 3%nat net_2_2 = Ok net_2_2.
Proof.
  apply (disconnect_unconnected 2%nat 3%nat net_2_2).
  - refine (bool_decide_unpack _ _); vm_compute; exact I.
  - refine (bool_decide_unpack _ _); vm_compute; exact I.
  - lia.
  - refine (bool_decide_unpack _ _); vm_compute; exact I.
Defined.

(** ** gate and ungate; remove *)

(** X3 (gate). [gate] throws exactly when the gating node is not a node of
    the network; a connection that already has a gater is left as it is,
    and one that has none gets the node as its gater, joins the end of
    [gates] and of the node's gated list, while the graph stays the same. *)
Theorem gate_cases n c net :
  (throws (gate n c net) <-> n ∉ nodes net)
  /\ (n ∈ nodes net -> is_Some (gater (conn_at net c)) -> gate n c net = Ok net)
  /\ (n ∈ nodes net -> gater (conn_at net c) = None ->
      exists net', gate n c net = Ok net'
        /\ gates net' = gates net ++ [c]
        /\ gater (conn_at net' c) = Some n
        /\ conn_gated (node_at net' n) = conn_gated (node_at net n) ++ [c]
        /\ weight (conn_at net' c) = weight (conn_at net c)
        /\ graph_eq net net' /\ selfconns net' = selfconns net).
Proof.
  split_and!.
  - unfold gate. split.
    + intros [m Hm] Hn. destruct (indexOf_elem _ _ Hn) as [i Hi]. rewrite Hi in Hm.
      destruct (gater (conn_at net c)); discriminate.
    + intros Hn. apply indexOf_None in Hn. rewrite Hn. eexists. reflexivity.
  - intros Hn [g Hg]. unfold gate. destruct (indexOf_elem _ _ Hn) as [i ->].
    rewrite Hg. reflexivity.
  - intros Hn Hg. destruct (gate_total n c net Hn) as [net' H].
    exists net'. split; [exact H|].
    pose proof (gate_graph_eq _ _ _ _ H) as G.
    pose proof (gate_selfconns _ _ _ _ H) as S.
    pose proof (gate_weight _ _ _ _ H c) as Wt.
    unfold gate in H. destruct (indexOf n (nodes net)); [|discriminate].
    rewrite Hg in H. injection H as <-.
    split_and!; try assumption.
    + reflexivity.
    + unfold Node_gate. rewrite conn_at_set_gates, conn_at_upd_conn_eq. reflexivity.
    + unfold Node_gate. rewrite node_at_set_gates, node_at_upd_conn, node_at_upd_node_eq.
      reflexivity.
Qed.

(** X4 (gate, ungate). [ungate] throws when the connection is not listed
    in [gates]; gating a connection that has no gater and removing the gate
    again gives back the list of gates, the node's gated list and the
    ungated connection. *)
Theorem gate_ungate_roundtrip n c net :
  n ∈ nodes net -> gater (conn_at net c) = None ->
  c ∉ gates net -> c ∉ conn_gated (node_at net n) ->
  ungate c net = Throw "This connection is not gated!"
  /\ exists net1 net2, gate n c net = Ok net1 /\ ungate c net1 = Ok net2
       /\ gates net2 = gates net
       /\ (forall c', conn_at net2 c' = conn_at net c')
       /\ (forall m, node_at net2 m = node_at net m)
       /\ nodes net2 = nodes net /\ connections net2 = connections net
       /\ selfconns net2 = selfconns net.
Proof.
  intros Hn Hg Hc Hcg. split.
  { unfold ungate. apply indexOf_None in Hc. rewrite Hc. reflexivity. }
  unfold gate. destruct (indexOf_elem _ _ Hn) as [i ->]. rewrite Hg.
  eexists. eexists. split; [reflexivity|].
  unfold ungate. cbn [gates set_gates].
  assert (E : indexOf c (gates (Node_gate n c net) ++ [c]) = Some (length (gates net))).
  { change (gates (Node_gate n c net)) with (gates net). clear -Hc.
    induction (gates net) as [|y l IH]; simpl.
    - destruct (decide (c = c)); [reflexivity | congruence].
    - apply not_elem_of_cons in Hc as [Hne Hc].
      destruct (decide (c = y)); [congruence|]. rewrite (IH Hc). reflexivity. }
  rewrite E. cbv zeta.
  match goal with |- context [gater ?x] => assert (Eg : gater x = Some n) end.
  { rewrite !conn_at_set_gates. unfold Node_gate. rewrite conn_at_upd_conn_eq. reflexivity. }
  rewrite Eg.
  split; [reflexivity|].
  split_and!.
  - cbn [gates set_gates Node_ungate Node_gate upd_conn upd_node set_conn_store set_node_store].
    clear. induction (gates net) as [|y l IH]; simpl; [reflexivity | f_equal; exact IH].
  - intros c'. unfold Node_ungate, Node_gate. store_simp. clear Eg E.
    destruct (conn_at net c') as [f t w g]. simpl in Hg. subst g. reflexivity.
  - intros m. unfold Node_ungate, Node_gate. store_simp.
    clear Eg E.
    destruct (node_at net m) as [ty bi sq ac st ma ix ci co cg cs]. simpl in *.
    unfold set_conn_gated. simpl. rewrite (remove_first_snoc _ _ Hcg). reflexivity.
  - reflexivity.
  - reflexivity.
  - reflexivity.
Qed.

Lemma gate_ungate_roundtrip_witness :
  ungate 4%nat net_2_2 = Throw "This connection is not gated!"
  /\ exists net1 net2, gate 2%nat 4%nat net_2_2 = Ok net1 /\ ungate 4%nat net1 = Ok net2
       /\ gates net2 = gates net_2_2
       /\ (forall c', conn_at net2 c' = conn_at net_2_2 c')
       /\ (forall m, node_at net2 m = node_at net_2_2 m)
       /\ nodes net2 = nodes net_2_2 /\ connections net2 = connections net_2_2
       /\ selfconns net2 = selfconns net_2_2.
Proof.
  apply (gate_ungate_roundtrip 2%nat 4%nat net_2_2).
  - refine (bool_decide_unpack _ _); vm_compute; exact I.
  - vm_compute. reflexivity.
  - refine (bool_decide_unpack _ _); vm_compute; exact I.
  - refine (bool_decide_unpack _ _); vm_compute; exact I.
Defined.

(** X5 (remove). [remove] keeps the invariants of the data model: the
    network it leaves is well formed, its node list is the old one without
    the removed node (the others in their order), and no node changes its
    type. *)
Theorem remove_keeps_wf keep_gates node rnd net net' :
  wf net -> remove keep_gates node rnd net = Ok net' ->
  wf net'
  /\ (exists idx, nodes net !! idx = Some node /\ nodes net' = delete idx (nodes net))
  /\ length (nodes net') = (length (nodes net) - 1)%nat
  /\ (forall m, m ∈ nodes net' <-> m ∈ nodes net /\ m ≠ node)
  /\ (forall m, type (node_at net' m) = type (node_at net m))
  /\ input_size net' = input_size net /\ output_size net' = output_size net.
Proof.
  intros W H.
  destruct (remove_steps _ _ _ _ _ W H)
    as (idx & net7 & Eidx & -> & W7 & St & Hin & Hout & _).
  apply indexOf_Some in Eidx as [Eidx _].
  pose proof St as (B1&B2&B3&B4&B5&B6&B7&B8&B9&B10).
  pose proof W as (N1 & _).
  split_and!.
  - apply (delete_node_wf net7 node); try assumption. rewrite B1. exact Eidx.
  - exists idx. simpl. rewrite B1. auto.
  - simpl. rewrite B1. apply length_delete. eauto.
  - intros m. simpl. rewrite B1. apply delete_elem_NoDup; assumption.
  - intros m. rewrite node_at_set_nodes. apply B8.
  - exact B4.
  - exact B5.
Qed.

Lemma remove_keeps_wf_witness :
  wf net_2_1_2_removed
  /\ (exists idx, nodes net_2_1_2 !! idx = Some 4%nat
                  /\ nodes net_2_1_2_removed = delete idx (nodes net_2_1_2))
  /\ length (nodes net_2_1_2_removed) = (length (nodes net_2_1_2) - 1)%nat
  /\ (forall m, m ∈ nodes net_2_1_2_removed <-> m ∈ nodes net_2_1_2 /\ m ≠ 4%nat)
  /\ (forall m, type (node_at net_2_1_2_removed m) = type (node_at net_2_1_2 m))
  /\ input_size net_2_1_2_removed = input_size net_2_1_2
  /\ output_size net_2_1_2_removed = output_size net_2_1_2.
Proof.
  apply (remove_keeps_wf true 4%nat (const_draws (1 # 2)) net_2_1_2 net_2_1_2_removed).
  - refine (bool_decide_unpack _ _); vm_compute; exact I.
  - vm_compute. reflexivity.
Defined.

(** ** mutate: what each method does *)

(** X6 (mutate, possible). A mutation that [possible] reports as
    impossible is a no-op: for every method whose case asks [possible],
    [mutate] returns the network as it was. *)
Theorem mutate_impossible_noop method rnd net :
  guarded method = true -> possible method net = Ok None ->
  mutate (Some method) rnd net = Ok net.
Proof.
  intros Hg Hp. destruct method; try discriminate Hg;
    unfold mutate; rewrite Hp; reflexivity.
Qed.

Lemma mutate_impossible_noop_witness :
  mutate (Some (SUB_NODE true)) (const_draws 0) net_2_2 = Ok net_2_2.
Proof.
  apply (mutate_impossible_noop (SUB_NODE true) (const_draws 0) net_2_2).
  - reflexivity.
  - vm_compute. reflexivity.
Defined.

(** X7 (mutate). The three cases that do not ask [possible] fail with a
    [TypeError] when there is nothing to mutate: [ADD_NODE] and
    [MOD_WEIGHT] on a network without a connection, [MOD_BIAS] on a
    network whose nodes are all input nodes. *)
Theorem mutate_unguarded_throws rnd net :
  connections net = [] ->
  (forall ra, mutate (Some (ADD_NODE ra)) rnd net = Throw "TypeError")
  /\ (selfconns net = [] ->
      forall mn mx, mutate (Some (MOD_WEIGHT mn mx)) rnd net = Throw "TypeError")
  /\ (zlength (nodes net) = input_size net ->
      forall mn mx, mutate (Some (MOD_BIAS mn mx)) rnd net = Throw "TypeError").
Proof.
  intros Hc. split_and!.
  - intros ra. unfold mutate, sample. rewrite Hc. reflexivity.
  - intros Hs mn mx. unfold mutate, sample. rewrite Hc, Hs. reflexivity.
  - intros Hl mn mx. unfold mutate, random_noninput.
    rewrite Hl, Z.sub_diag.
    assert (E : Qfloor (rnd 0%nat * inject_Z 0 + inject_Z (input_size net)) = input_size net).
    { rewrite <- (Qfloor_Z (input_size net)) at 2. apply Qfloor_comp.
      change (inject_Z 0) with 0%Q. ring. }
    rewrite E. unfold at_Z. rewrite <- Hl.
    destruct (Z.ltb_spec (zlength (nodes net)) 0); [reflexivity|].
    unfold zlength. rewrite Nat2Z.id.
    rewrite (proj2 (lookup_ge_None (nodes net) (length (nodes net)))) by lia.
    reflexivity.
Qed.

Lemma mutate_unguarded_throws_witness :
  (forall ra, mutate (Some (ADD_NODE ra)) (const_draws (1 # 2)) net_1_0 = Throw "TypeError")
  /\ (selfconns net_1_0 = [] ->
      forall mn mx,
        mutate (Some (MOD_WEIGHT mn mx)) (const_draws (1 # 2)) net_1_0 = Throw "TypeError")
  /\ (zlength (nodes net_1_0) = input_size net_1_0 ->
      forall mn mx,
        mutate (Some (MOD_BIAS mn mx)) (const_draws (1 # 2)) net_1_0 = Throw "TypeError").
Proof.
  apply (mutate_unguarded_throws (const_draws (1 # 2)) net_1_0).
  vm_compute. reflexivity.
Defined.

(** X8 (mutate, ADD_NODE). On a network that satisfies the invariant,
    [ADD_NODE] picks a connection from [a] to [b], removes it, creates one
    hidden node, places it at the position of [b] or at the start of the
    output block, whichever comes first, and appends the two connections
    from [a] to the new node and from the new node to [b]; no other node
    changes its type and [selfconns] stays as it was. *)
Theorem mutate_ADD_NODE_splits ra rnd net net' :
  inv net -> mutate (Some (ADD_NODE ra)) rnd net = Ok net' ->
  exists c node c1 c2,
    c ∈ connections net /\ (node ∉ nodes net)
    /\ nodes net'
       = splice_insert
           (Z.min (indexOfZ (to (conn_at net c)) (nodes net))
                  (zlength (nodes net) - output_size net))
           node (nodes net)
    /\ type (node_at net' node) = Hidden
    /\ connections net' = remove_first c (connections net) ++ [c1; c2]
    /\ pair_of net' c1 = (from (conn_at net c), node)
    /\ pair_of net' c2 = (node, to (conn_at net c))
    /\ (forall m, m ∈ nodes net -> type (node_at net' m) = type (node_at net m))
    /\ selfconns net' = selfconns net.
Proof.
  intros I H. pose proof I as (W & T & S & P).
  unfold mutate in H.
  destruct (sample (rnd 0%nat) (connections net)) as [c|] eqn:Es; [|discriminate].
  apply sample_Some in Es.
  cbv zeta in H.
  apply bind_Ok in H as (net1 & Hd & H).
  destruct (Node_new Hidden net1) as [node net2] eqn:EN.
  set (net3 := if ra then upd_node node _ net2 else net2) in H.
  set (p := Z.min _ _) in H.
  set (net4 := set_nodes _ net3) in H.
  set (a := from (conn_at net c)) in *. set (b := to (conn_at net c)) in *.
  destruct (disconnect_ordinary_inv c net net1 I Es Hd) as (I1 & Hrem & Hsc1).
  pose proof (wf_conn_of _ _ W Es) as (Ha & Hb & Hab & _).
  fold a b in Ha, Hb, Hab.
  assert (Htb : type (node_at net b) ≠ Input).
  { unfold targets_ok in T. rewrite Forall_forall in T. apply (T c Es). }
  destruct Hrem as (A1&A2&A4&A5&A6&A7&A8&A9&A10&A11&A12&A13&A14&A15).
  pose proof I1 as (W1 & T1 & S1 & P1).
  pose proof (Node_new_spec Hidden net1) as HN. rewrite EN in HN. simpl in HN.
  destruct HN as (Hnode & H1 & H2 & H3 & H4 & H5 & H6 & H7 & H8 & _).
  pose proof H as Hwhole.
  assert (Hn3 : nodes net3 = nodes net1) by (unfold net3; destruct ra; exact H1).
  assert (Ho3 : output_size net3 = output_size net1) by (unfold net3; destruct ra; exact H8).
  assert (Hp : input_size net1 <= p <= zlength (nodes net1) - output_size net1).
  { unfold p. rewrite Hn3, Ho3.
    assert (Hb1 : b ∈ nodes net1) by (rewrite A1; exact Hb).
    destruct (indexOf_elem _ _ Hb1) as [k Hk]. unfold indexOfZ. rewrite Hk.
    apply indexOf_Some in Hk as [Hk _].
    destruct P1 as (Q1 & Q2 & Q3 & Q4). destruct (Q4 k b Hk) as (R1 & _ & _).
    assert (input_size net1 <= Z.of_nat k).
    { destruct (Z.lt_ge_cases (Z.of_nat k) (input_size net1)) as [Hlt|Hge]; [|lia].
      apply R1 in Hlt. rewrite A10 in Hlt. contradiction. }
    lia. }
  destruct (insert_node_inv net1 net2 node p I1 EN Hp)
    as (I4 & Hin4 & Hold4 & Ci4 & Co4 & Ty4 & Cs4 & Cat4).
  set (net4' := set_nodes (splice_insert p node (nodes net2)) net2) in *.
  assert (G4 : graph_eq net4' net4 /\ selfconns net4 = selfconns net4').
  { unfold net4, net3. destruct ra.
    - split; [|reflexivity].
      apply (graph_eq_upd_node node (Node_mutate_activation (rnd 1%nat)) net4').
      intros nd. split_and!; reflexivity.
    - split; [apply graph_eq_refl | reflexivity]. }
  destruct G4 as [G4 Hs4].
  pose proof (graph_eq_inv_same _ _ G4 Hs4 I4) as I4'.
  pose proof G4 as (G1&G2&G4a&G5&G6&G7&G8&G9&G10&G11&G12&G13&G14&G15).
  assert (Ha4 : a ∈ nodes net4) by (rewrite G1; apply Hold4; rewrite A1; exact Ha).
  assert (Hb4 : b ∈ nodes net4) by (rewrite G1; apply Hold4; rewrite A1; exact Hb).
  assert (Hn4 : node ∈ nodes net4) by (rewrite G1; exact Hin4).
  assert (Han : a ≠ node) by (apply Hold4; rewrite A1; exact Ha).
  assert (Hbn : b ≠ node) by (apply Hold4; rewrite A1; exact Hb).
  assert (Htb4 : type (node_at net4 b) ≠ Input).
  { rewrite G10. destruct (Hold4 b) as (_ & _ & ->); [rewrite A1; exact Hb|].
    rewrite A10. exact Htb. }
  apply bind_Ok in H as ([net5 cs1] & Hc1 & H).
  apply bind_Ok in H as ([net6 cs2] & Hc2 & H).
  assert (Hp1 : Node_isProjectingTo a node net4 = false).
  { apply not_projecting_in_nil; try assumption; [apply I4'|].
    rewrite G11. exact Ci4. }
  assert (Htn : type (node_at net4 node) ≠ Input) by (rewrite G10, Ty4; discriminate).
  destruct (connect_ordinary_inv a node None net4 net5 cs1 I4' Ha4 Hn4 Han Hp1 Htn Hc1)
    as (I5 & Hadd5 & _ & Hsc5).
  destruct Hadd5 as (B1&B2&B4&B5&B6&B7&B8&B9&B10&B11&B12&B13&B14&B15).
  assert (Hp2 : Node_isProjectingTo node b net5 = false).
  { apply not_projecting_out_nil; [congruence|].
    rewrite B12. case_dec; [congruence|]. rewrite G12. exact Co4. }
  assert (Htb5 : type (node_at net5 b) ≠ Input) by (rewrite B10; exact Htb4).
  assert (Hn5 : node ∈ nodes net5) by (rewrite B1; exact Hn4).
  assert (Hb5 : b ∈ nodes net5) by (rewrite B1; exact Hb4).
  destruct (connect_ordinary_inv node b None net5 net6 cs2 I5 Hn5 Hb5
              ltac:(congruence) Hp2 Htb5 Hc2) as (I6 & Hadd6 & _ & Hsc6).
  destruct Hadd6 as (D1&D2&D4&D5&D6&D7&D8&D9&D10&D11&D12&D13&D14&D15).
  assert (Hfin : graph_eq net6 net' /\ selfconns net' = selfconns net6).
  { destruct (gater (conn_at net6 c)) as [g|].
    - destruct (if Qle_bool _ _ then _ else _) as [c'|]; [|discriminate].
      split; [eapply gate_graph_eq | eapply gate_selfconns]; eassumption.
    - injection H as <-. split; [apply graph_eq_refl | reflexivity]. }
  destruct Hfin as [Gfin Hs6].
  pose proof Gfin as (F1&F2&F4&F5&F6&F7&F8&F9&F10&F11&F12&F13&F14&F15).
  assert (Hnew : node ∉ nodes net).
  { intros Hn. rewrite <- A1 in Hn. destruct (Hold4 node Hn) as (_ & Hne & _). congruence. }
  exists c, node, (next_conn net4), (next_conn net5).
  split_and!; try assumption.
  - rewrite F1, D1, B1, G1. unfold net4'. simpl. rewrite H1.
    unfold p. rewrite Hn3, Ho3, A1, A7. reflexivity.
  - rewrite F10, D10, B10, G10. exact Ty4.
  - rewrite F2, D2, B2, G2, Cs4, A2, <- app_assoc. reflexivity.
  - unfold pair_of. rewrite F8, F9, D8, D9, B8, B9. rewrite B5.
    case_dec; try lia; try congruence; reflexivity.
  - unfold pair_of. rewrite F8, F9, D8, D9. case_dec; try congruence; reflexivity.
  - intros m Hm. rewrite F10, D10, B10, G10.
    destruct (Hold4 m) as (_ & _ & ->); [rewrite A1; exact Hm|]. apply A10.
  - rewrite Hs6, Hsc6, Hsc5, Hs4. unfold net4'. simpl. rewrite H3. exact Hsc1.
Qed.

Lemma mutate_ADD_NODE_splits_witness :
  exists c node c1 c2,
    c ∈ connections net_2_2 /\ (node ∉ nodes net_2_2)
    /\ nodes net_2_1_2
       = splice_insert
           (Z.min (indexOfZ (to (conn_at net_2_2 c)) (nodes net_2_2))
                  (zlength (nodes net_2_2) - output_size net_2_2))
           node (nodes net_2_2)
    /\ type (node_at net_2_1_2 node) = Hidden
    /\ connections net_2_1_2 = remove_first c (connections net_2_2) ++ [c1; c2]
    /\ pair_of net_2_1_2 c1 = (from (conn_at net_2_2 c), node)
    /\ pair_of net_2_1_2 c2 = (node, to (conn_at net_2_2 c))
    /\ (forall m, m ∈ nodes net_2_2 ->
          type (node_at net_2_1_2 m) = type (node_at net_2_2 m))
    /\ selfconns net_2_1_2 = selfconns net_2_2.
Proof.
  apply (mutate_ADD_NODE_splits false (const_draws (1 # 2)) net_2_2 net_2_1_2).
  - apply (Network_new_inv 2 2 (const_draws (1 # 2))); [lia | lia | vm_compute; reflexivity].
  - vm_compute. reflexivity.
Defined.

Lemma remove_first_nonempty {A} `{EqDecision A} (l : list A) x :
  (1 < length l)%nat -> remove_first x l ≠ [].
Proof.
  intros Hl. unfold remove_first. destruct (indexOf x l) as [i|] eqn:E.
  - apply indexOf_Some in E as [E _]. intros Hd. apply (f_equal length) in Hd.
    rewrite length_delete in Hd by eauto. simpl in Hd. lia.
  - intros ->. simpl in Hl. lia.
Qed.

(** X9 (mutate, SUB_CONN and SUB_BACK_CONN). Either nothing changes, or
    exactly one connection leaves the network, and it is one whose source
    keeps an outgoing and whose target keeps an incoming connection;
    [SUB_CONN] takes a connection that points forward in the node list,
    [SUB_BACK_CONN] one that points backward. *)
Theorem mutate_SUB_CONN_keeps_degree (back : bool) rnd net net' :
  wf net ->
  mutate (Some (if back then SUB_BACK_CONN else SUB_CONN)) rnd net = Ok net' ->
  net' = net
  \/ exists c, c ∈ connections net
       /\ connections net' = remove_first c (connections net)
       /\ nodes net' = nodes net
       /\ conn_out (node_at net' (from (conn_at net c))) ≠ []
       /\ conn_in (node_at net' (to (conn_at net c))) ≠ []
       /\ (if back
           then indexOfZ (to (conn_at net c)) (nodes net)
                < indexOfZ (from (conn_at net c)) (nodes net)
           else indexOfZ (from (conn_at net c)) (nodes net)
                < indexOfZ (to (conn_at net c)) (nodes net))
       /\ wf net'.
Proof.
  intros W H.
  assert (H' : (p ← Ok (or_false (List.filter (removable back net) (connections net)) CConns);
           match p with
           | Some (CConns l) =>
               match sample (rnd 0%nat) l with
               | Some c => disconnect (from (conn_at net c)) (to (conn_at net c)) net
               | None => Throw "TypeError"
               end
           | _ => Ok net
           end) = Ok net') by (destruct back; exact H).
  clear H. apply bind_Ok in H' as (p & Hp & H). injection Hp as <-.
  destruct (or_false _ _) as [[| | l]|] eqn:E; try (injection H as <-; left; reflexivity).
  apply or_false_Some in E as [E _]. injection E as ->.
  destruct (sample _ _) as [c|] eqn:Es; [|discriminate].
  apply sample_Some, filter_elem in Es as [Hc Hrm].
  right. exists c.
  destruct (disconnect_ordinary _ _ c net net' W Hc eq_refl H) as [Hrem _].
  pose proof (removed_wf _ _ c net net' W Hc eq_refl Hrem) as W'.
  destruct Hrem as (A1&A2&A4&A5&A6&A7&A8&A9&A10&A11&A12&A13&A14&A15).
  unfold removable in Hrm.
  apply andb_true_iff in Hrm as [Hrm Hpos]. apply andb_true_iff in Hrm as [Hout Hin].
  apply Z.ltb_lt in Hout, Hin. unfold zlength in Hout, Hin.
  split_and!; try assumption.
  - rewrite A12. case_dec; [|congruence]. apply remove_first_nonempty. lia.
  - rewrite A11. case_dec; [|congruence]. apply remove_first_nonempty. lia.
  - destruct back; apply Z.ltb_lt in Hpos; exact Hpos.
Qed.

Lemma mutate_SUB_CONN_keeps_degree_witness :
  net_2_1_2_sub_conn = net_2_1_2
  \/ exists c, c ∈ connections net_2_1_2
       /\ connections net_2_1_2_sub_conn = remove_first c (connections net_2_1_2)
       /\ nodes net_2_1_2_sub_conn = nodes net_2_1_2
       /\ conn_out (node_at net_2_1_2_sub_conn (from (conn_at net_2_1_2 c))) ≠ []
       /\ conn_in (node_at net_2_1_2_sub_conn (to (conn_at net_2_1_2 c))) ≠ []
       /\ indexOfZ (from (conn_at net_2_1_2 c)) (nodes net_2_1_2)
          < indexOfZ (to (conn_at net_2_1_2 c)) (nodes net_2_1_2)
       /\ wf net_2_1_2_sub_conn.
Proof.
  apply (mutate_SUB_CONN_keeps_degree false (const_draws (1 # 2)) net_2_1_2
           net_2_1_2_sub_conn).
  - refine (bool_decide_unpack _ _); vm_compute; exact I.
  - vm_compute. reflexivity.
Defined.

(** X10 (mutate, ADD_CONN and ADD_BACK_CONN). Either nothing changes, or
    exactly one connection is appended, between two nodes that were not
    connected: for [ADD_CONN] from a node in front of the output block to
    a later node that is not in the input block, for [ADD_BACK_CONN] from
    a node behind the input block to an earlier one behind the input
    block. The network stays well formed. *)
Theorem mutate_ADD_CONN_adds_one (back : bool) rnd net net' :
  wf net ->
  mutate (Some (if back then ADD_BACK_CONN else ADD_CONN)) rnd net = Ok net' ->
  net' = net
  \/ exists (i j : nat) a b,
       nodes net !! i = Some a /\ nodes net !! j = Some b
       /\ (if back
           then (j < i)%nat /\ input_size net <= Z.of_nat j
           else (i < j)%nat /\ input_size net <= Z.of_nat j
                /\ Z.of_nat i < zlength (nodes net) - output_size net)
       /\ ((a, b) ∉ map (pair_of net) (connections net))
       /\ connections net' = connections net ++ [next_conn net]
       /\ pair_of net' (next_conn net) = (a, b)
       /\ nodes net' = nodes net /\ selfconns net' = selfconns net
       /\ wf net'.
Proof.
  intros W H.
  assert (H' : (p ← possible (if back then ADD_BACK_CONN else ADD_CONN) net;
           match p with
           | Some (CPairs l) =>
               match sample (rnd 0%nat) l with
               | Some (a, Some b) => '(net', _) ← connect a b None net; Ok net'
               | _ => Throw "TypeError"
               end
           | _ => Ok net
           end) = Ok net') by (destruct back; exact H).
  clear H. apply bind_Ok in H' as (p & Hp & H).
  assert (Hps : exists ijs ps, pair_candidates ijs net = Ok ps /\ p = or_false ps CPairs
            /\ forall i j, (i, j) ∈ ijs ->
                 if back then j < i /\ input_size net <= j
                 else i < j /\ input_size net <= j
                      /\ i < zlength (nodes net) - output_size net).
  { destruct back; unfold possible in Hp; apply bind_Ok in Hp as (ps & Hps & Hp);
      injection Hp as <-; eexists _, ps; (split; [exact Hps|]); (split; [reflexivity|]);
      intros i j Hij; apply list_elem_of_bind in Hij as (i' & Hij & Hi');
      apply list_elem_of_bind in Hij as (j' & Hij & Hj');
      apply list_elem_of_singleton in Hij; injection Hij as -> ->;
      apply zrange_elem in Hi', Hj'; lia. }
  destruct Hps as (ijs & ps & Hps & -> & Hij).
  destruct (or_false _ _) as [[| l |]|] eqn:E; try (injection H as <-; left; reflexivity).
  apply or_false_Some in E as [E _]. injection E as ->.
  destruct (sample _ _) as [[a [b|]]|] eqn:Es; try discriminate.
  apply sample_Some in Es.
  destruct (pair_candidates_spec _ _ _ _ _ Hps Es) as (i & j & Hin & Hi & Hj & Hproj).
  specialize (Hij i j Hin). specialize (Hproj b eq_refl).
  apply bind_Ok in H as ([net1 cs] & Hc & H). injection H as <-.
  apply at_Z_Some in Hi as [Hi0 Hi]. apply at_Z_Some in Hj as [Hj0 Hj].
  assert (Ha : a ∈ nodes net) by (apply list_elem_of_lookup; eauto).
  assert (Hb : b ∈ nodes net) by (apply list_elem_of_lookup; eauto).
  assert (Hab : a ≠ b).
  { intros ->. destruct W as (N1 & _).
    pose proof (NoDup_lookup _ _ _ _ N1 Hi Hj). destruct back; lia. }
  destruct (connect_ordinary a b None net Hab Hproj)
    as (net1' & Hc' & Hadd & Hsc & _).
  rewrite Hc in Hc'. injection Hc' as <- ->.
  assert (Hnp : (a, b) ∉ map (pair_of net) (connections net)).
  { intros Hp'. apply projecting_iff in Hp'; try assumption. congruence. }
  pose proof (added_wf _ _ _ _ W Ha Hb Hab Hnp Hadd) as W1.
  destruct Hadd as (A1&A2&A4&A5&A6&A7&A8&A9&A10&A11&A12&A13&A14&A15).
  right. exists (Z.to_nat i), (Z.to_nat j), a, b.
  split_and!; try assumption.
  - rewrite !Z2Nat.id by assumption. destruct back; split_and!; lia.
  - unfold pair_of. rewrite A8, A9. case_dec; congruence.
Qed.

Lemma mutate_ADD_CONN_adds_one_witness :
  net_2_1_2_add_conn = net_2_1_2
  \/ exists (i j : nat) a b,
       nodes net_2_1_2 !! i = Some a /\ nodes net_2_1_2 !! j = Some b
       /\ ((i < j)%nat /\ input_size net_2_1_2 <= Z.of_nat j
           /\ Z.of_nat i < zlength (nodes net_2_1_2) - output_size net_2_1_2)
       /\ ((a, b) ∉ map (pair_of net_2_1_2) (connections net_2_1_2))
       /\ connections net_2_1_2_add_conn = connections net_2_1_2 ++ [next_conn net_2_1_2]
       /\ pair_of net_2_1_2_add_conn (next_conn net_2_1_2) = (a, b)
       /\ nodes net_2_1_2_add_conn = nodes net_2_1_2
       /\ selfconns net_2_1_2_add_conn = selfconns net_2_1_2
       /\ wf net_2_1_2_add_conn.
Proof.
  apply (mutate_ADD_CONN_adds_one false (const_draws (1 # 2)) net_2_1_2
           net_2_1_2_add_conn).
  - refine (bool_decide_unpack _ _); vm_compute; exact I.
  - vm_compute. reflexivity.
Defined.

(** X11 (mutate, SWAP_NODES). Either nothing changes, or two different
    eligible nodes exchange their bias and their squash function, and
    nothing else in the network changes. *)
Theorem mutate_SWAP_NODES_swaps mo rnd net net' :
  mutate (Some (SWAP_NODES mo)) rnd net = Ok net' ->
  net' = net
  \/ exists n1 n2,
       n1 ≠ n2 /\ n1 ∈ nodes net /\ n2 ∈ nodes net
       /\ eligible mo net n1 = true /\ eligible mo net n2 = true
       /\ node_at net' n1
          = set_squash (squash (node_at net n2))
              (set_bias (bias (node_at net n2)) (node_at net n1))
       /\ node_at net' n2
          = set_squash (squash (node_at net n1))
              (set_bias (bias (node_at net n1)) (node_at net n2))
       /\ (forall m, m ≠ n1 -> m ≠ n2 -> node_at net' m = node_at net m)
       /\ (forall c, conn_at net' c = conn_at net c)
       /\ nodes net' = nodes net /\ connections net' = connections net
       /\ selfconns net' = selfconns net /\ gates net' = gates net.
Proof.
  intros H. unfold mutate in H. apply bind_Ok in H as (p & Hp & H).
  destruct p as [[l| |]|]; try (injection H as <-; left; reflexivity).
  assert (Hl : l = List.filter (eligible mo net) (nodes net)).
  { unfold possible in Hp. destruct (_ <? 2); [discriminate|].
    destruct (2 <=? _); [|discriminate]. injection Hp as <-. reflexivity. }
  destruct (sample (rnd 0%nat) l) as [n1|] eqn:E1; [|discriminate].
  destruct (sample (rnd 1%nat) _) as [n2|] eqn:E2; [|discriminate].
  injection H as <-.
  apply sample_Some in E1. apply sample_Some, filter_elem in E2 as [E2 Hne].
  apply negb_true_iff, bool_decide_eq_false in Hne.
  rewrite Hl in E1, E2. apply filter_elem in E1 as [M1 L1]. apply filter_elem in E2 as [M2 L2].
  right. exists n1, n2. split_and!; try assumption; try reflexivity.
  - congruence.
  - rewrite node_at_upd_node_ne by congruence. rewrite node_at_upd_node_eq. reflexivity.
  - rewrite node_at_upd_node_eq. rewrite node_at_upd_node_ne by congruence. reflexivity.
  - intros m Hm1 Hm2. rewrite !node_at_upd_node_ne by congruence. reflexivity.
Qed.

Lemma mutate_SWAP_NODES_swaps_witness :
  net_2_1_2_swapped = net_2_1_2
  \/ exists n1 n2,
       n1 ≠ n2 /\ n1 ∈ nodes net_2_1_2 /\ n2 ∈ nodes net_2_1_2
       /\ eligible true net_2_1_2 n1 = true /\ eligible true net_2_1_2 n2 = true
       /\ node_at net_2_1_2_swapped n1
          = set_squash (squash (node_at net_2_1_2 n2))
              (set_bias (bias (node_at net_2_1_2 n2)) (node_at net_2_1_2 n1))
       /\ node_at net_2_1_2_swapped n2
          = set_squash (squash (node_at net_2_1_2 n1))
              (set_bias (bias (node_at net_2_1_2 n1)) (node_at net_2_1_2 n2))
       /\ (forall m, m ≠ n1 -> m ≠ n2 ->
             node_at net_2_1_2_swapped m = node_at net_2_1_2 m)
       /\ (forall c, conn_at net_2_1_2_swapped c = conn_at net_2_1_2 c)
       /\ nodes net_2_1_2_swapped = nodes net_2_1_2
       /\ connections net_2_1_2_swapped = connections net_2_1_2
       /\ selfconns net_2_1_2_swapped = selfconns net_2_1_2
       /\ gates net_2_1_2_swapped = gates net_2_1_2.
Proof.
  apply (mutate_SWAP_NODES_swaps true (const_draws (1 # 2)) net_2_1_2 net_2_1_2_swapped).
  vm_compute. reflexivity.
Defined.

(** X12 (mutate). The methods that only change a weight, a bias, a squash
    function or a gate ([MOD_WEIGHT], [MOD_BIAS], [MOD_ACTIVATION],
    [ADD_GATE], [SUB_GATE], [SWAP_NODES]) leave the graph alone: the same
    nodes and connections in the same order, the same endpoints, node
    types, adjacency lists and self-connections. *)
Theorem mutate_parametric_keeps_graph method rnd net net' :
  parametric method = true -> mutate (Some method) rnd net = Ok net' ->
  graph_eq net net' /\ selfconns net' = selfconns net.
Proof.
  intros Hpar H.
  assert (Hrefl : graph_eq net net /\ selfconns net = selfconns net)
    by (split; [apply graph_eq_refl | reflexivity]).
  destruct method; try discriminate Hpar; unfold mutate in H.
  - destruct (sample _ _) as [c|]; [|discriminate]. injection H as <-.
    split; [|reflexivity]. apply graph_eq_upd_conn. intros cn. split; reflexivity.
  - destruct (at_Z _ _) as [n|]; [|discriminate]. injection H as <-.
    split; [|reflexivity]. apply graph_eq_upd_node. intros nd. split_and!; reflexivity.
  - apply bind_Ok in H as (p & _ & H).
    destruct p as [cands|]; [|injection H as <-; exact Hrefl].
    destruct (sample _ _) as [n|]; [|discriminate]. injection H as <-.
    split; [|reflexivity]. apply graph_eq_upd_node. intros nd. split_and!; reflexivity.
  - apply bind_Ok in H as (p & _ & H).
    destruct p as [[| |l]|]; try (injection H as <-; exact Hrefl).
    destruct (at_Z _ _) as [n|]; [|discriminate].
    destruct (sample _ _) as [c|]; [|discriminate].
    split; [eapply gate_graph_eq | eapply gate_selfconns]; eassumption.
  - apply bind_Ok in H as (p & _ & H).
    destruct p as [cands|]; [|injection H as <-; exact Hrefl].
    destruct (sample _ _) as [c|]; [|discriminate].
    split; [eapply ungate_graph_eq | eapply ungate_selfconns]; eassumption.
  - apply bind_Ok in H as (p & _ & H).
    destruct p as [[l| |]|]; try (injection H as <-; exact Hrefl).
    destruct (sample _ _) as [n1|]; [|discriminate].
    destruct (sample _ _) as [n2|]; [|discriminate].
    injection H as <-. split; [|reflexivity].
    eapply graph_eq_trans; apply graph_eq_upd_node; intros nd; split_and!; reflexivity.
Qed.

Lemma mutate_parametric_keeps_graph_witness :
  graph_eq net_2_1_2 net_2_1_2_swapped
  /\ selfconns net_2_1_2_swapped = selfconns net_2_1_2.
Proof.
  apply (mutate_parametric_keeps_graph (SWAP_NODES true) (const_draws (1 # 2))
           net_2_1_2 net_2_1_2_swapped).
  - reflexivity.
  - vm_compute. reflexivity.
Defined.

(** X13 (constructor, mutate). Every network obtained from the constructor
    (with sizes that are not negative) by mutations that return satisfies
    the invariants of the data model: its nodes are listed once, every
    connection joins two distinct nodes of the network, no ordered pair is
    connected twice, the adjacency lists of the nodes agree with the list
    of connections, no connection ends at an input node, and every entry
    of [selfconns] joins a node to itself. *)
Theorem reachable_well_formed net :
  reachable net -> wf net /\ targets_ok net /\ selfconns_ok net.
Proof.
  intros H. apply reachable_inv in H as (W & T & S & _). auto.
Qed.

Lemma reachable_well_formed_witness :
  wf net_2_1_2 /\ targets_ok net_2_1_2 /\ selfconns_ok net_2_1_2.
Proof.
  apply (reachable_well_formed net_2_1_2).
  apply (reachable_mutate (ADD_NODE false) (const_draws (1 # 2)) net_2_2).
  - apply (reachable_new 2 2 (const_draws (1 # 2))); [lia | lia | vm_compute; reflexivity].
  - vm_compute. reflexivity.
Defined.

Lemma filter_none {A} (f : A -> bool) (l : list A) :
  (forall x, In x l -> f x = false) -> List.filter f l = [].
Proof.
  induction l as [|x l IH]; intros H; simpl; [reflexivity|].
  rewrite (H x) by (left; reflexivity). apply IH. intros y Hy. apply H. right. exact Hy.
Qed.

Lemma pair_candidates_all_projecting ijs net :
  (forall i j, (i, j) ∈ ijs ->
     exists a b, at_Z (nodes net) i = Some a /\ at_Z (nodes net) j = Some b
                 /\ Node_isProjectingTo a b net = true) ->
  pair_candidates ijs net = Ok [].
Proof.
  induction ijs as [|[i j] ijs IH]; intros H; simpl; [reflexivity|].
  destruct (H i j ltac:(left)) as (a & b & -> & -> & ->).
  rewrite IH; [reflexivity|]. intros i' j' Hin. apply H. right. exact Hin.
Qed.

(** X14 (constructor, possible). A newly constructed network connects
    every input node to every output node and has nothing else: [possible]
    reports [ADD_CONN], [SUB_NODE], [SUB_SELF_CONN] and [SUB_GATE] as
    impossible on it. *)
Theorem fresh_network_saturated (i o : Z) (w : nat -> Q) (net : Network) :
  0 <= i -> 0 <= o -> Network_new (Some i) (Some o) w = Ok net ->
  possible ADD_CONN net = Ok None
  /\ (forall kg, possible (SUB_NODE kg) net = Ok None)
  /\ possible SUB_SELF_CONN net = Ok None
  /\ possible SUB_GATE net = Ok None.
Proof.
  intros Hi Ho H.
  destruct (Network_new_spec i o w) as (net0 & H0 & C). rewrite H in H0.
  injection H0 as <-.
  destruct C as (C1 & C2 & C3 & C4 & C5 & C6 & C7 & C8 & C9 & C10 & C11).
  assert (Hlen : zlength (nodes net) = i + o).
  { unfold zlength. rewrite C1, length_seq. lia. }
  assert (Hat : forall k, 0 <= k < i + o -> at_Z (nodes net) k = Some (Z.to_nat k)).
  { intros k Hk. unfold at_Z. destruct (Z.ltb_spec k 0); [lia|].
    rewrite C1. apply lookup_seq. split; [reflexivity | lia]. }
  split_and!.
  - unfold possible. rewrite Hlen, C8, C9.
    rewrite pair_candidates_all_projecting; [reflexivity|].
    intros a b Hab. apply list_elem_of_bind in Hab as (a' & Hab & Ha').
    apply list_elem_of_bind in Hab as (b' & Hab & Hb').
    apply list_elem_of_singleton in Hab. injection Hab as -> ->.
    apply zrange_elem in Ha', Hb'.
    exists (Z.to_nat a'), (Z.to_nat b'). rewrite !Hat by lia. split_and!; try reflexivity.
    apply projecting_iff; try assumption.
    + rewrite C1. apply list_elem_of_In, in_seq. lia.
    + lia.
    + rewrite C4. apply io_pairs_elem. lia.
  - intros kg. unfold possible.
    replace (List.filter _ (nodes net)) with (@nil nat); [reflexivity|].
    symmetry. apply filter_none. intros n Hn.
    rewrite C1 in Hn. apply in_seq in Hn.
    rewrite C3 by lia. unfold initial_type. destruct (_ <? _); reflexivity.
  - unfold possible, zlength. rewrite C6. reflexivity.
  - unfold possible, zlength. rewrite C7. reflexivity.
Qed.

Lemma fresh_network_saturated_witness :
  possible ADD_CONN net_2_2 = Ok None
  /\ (forall kg, possible (SUB_NODE kg) net_2_2 = Ok None)
  /\ possible SUB_SELF_CONN net_2_2 = Ok None
  /\ possible SUB_GATE net_2_2 = Ok None.
Proof.
  apply (fresh_network_saturated 2 2 (const_draws (1 # 2)) net_2_2);
    [lia | lia | vm_compute; reflexivity].
Defined.

Lemma set_indices_frame net :
  nodes (set_indices net) = nodes net
  /\ input_size (set_indices net) = input_size net
  /\ output_size (set_indices net) = output_size net
  /\ (forall n, conn_in (node_at (set_indices net) n) = conn_in (node_at net n)).
Proof.
  unfold set_indices. generalize (imap pair (nodes net)). intros l.
  revert net. induction l as [|[i n] l IH]; intros net; simpl.
  - split_and!; reflexivity.
  - destruct (IH (upd_node n (set_index (Some i)) net)) as (H1 & H2 & H3 & H4).
    split_and!; try assumption.
    intros m. rewrite H4, node_at_upd_node. case_dec; subst; reflexivity.
Qed.

Lemma zrange_In lo hi x : lo <= x < hi -> x ∈ zrange lo hi.
Proof.
  intros H. unfold zrange. apply list_elem_of_fmap. exists (Z.to_nat (x - lo)).
  split; [lia|]. apply list_elem_of_In, in_seq. lia.
Qed.

Lemma serialize_nodes_cases idxs net : forall stream,
  (Exists (fun k => blocked net k = true) idxs
   /\ serialize_nodes idxs net stream = Throw "TypeError")
  \/ (Forall (fun k => blocked net k = false) idxs
      /\ exists c, serialize_nodes idxs net stream = Ok c
                   /\ length c = (length stream + 6 * length idxs)%nat).
Proof.
  induction idxs as [|k idxs IH]; intros stream.
  - right. split; [constructor|]. exists stream. split; [reflexivity | simpl; lia].
  - simpl. destruct (blocked net k) eqn:Eb; pose proof Eb as Eb0; unfold blocked in Eb0.
    + left. split; [left; exact Eb|].
      destruct (at_Z (nodes net) k) as [n|]; [|reflexivity].
      destruct (conn_in (node_at net n)); [discriminate | reflexivity].
    + destruct (at_Z (nodes net) k) as [n|]; [|discriminate].
      destruct (conn_in (node_at net n)) eqn:E; [|discriminate].
      match goal with |- context [serialize_nodes idxs net ?s] =>
        destruct (IH s) as [[H1 H2]|[H1 (c & H2 & H3)]] end.
      * left. split; [right; exact H1 | exact H2].
      * right. split; [constructor; [exact Eb | exact H1]|].
        exists c. split; [exact H2|]. rewrite H3, !length_app. simpl. lia.
Qed.

(** X15 (serialize). [serialize] ends in a [TypeError] exactly when some
    position from [input_size] up to the end of [nodes] holds no node or a
    node with an incoming connection; otherwise it returns one activation
    and one state per node and a stream of two numbers plus six per node
    from [input_size] on. *)
Theorem serialize_cases (net : Network) :
  let lo := input_size net in
  let len := zlength (nodes net) in
  ((exists k, lo <= k < len /\ blocked net k = true)
   /\ serialize net = Throw "TypeError")
  \/ ((forall k, lo <= k < len -> blocked net k = false)
      /\ exists a s c, serialize net = Ok (a, s, c)
           /\ length a = length (nodes net) /\ length s = length (nodes net)
           /\ zlength c = 2 + 6 * Z.max 0 (len - lo)).
Proof.
  intros lo len. unfold serialize.
  destruct (set_indices_frame net) as (H1 & H2 & H3 & H4).
  assert (Hb : forall k, blocked (set_indices net) k = blocked net k).
  { intros k. unfold blocked. rewrite H1. destruct (at_Z _ k); [|reflexivity].
    rewrite H4. reflexivity. }
  rewrite H1, H2.
  match goal with |- context [serialize_nodes ?i ?n ?s] =>
    destruct (serialize_nodes_cases i n s) as [[E1 E2]|[E1 (c & E2 & E3)]] end.
  - left. split.
    + apply Exists_exists in E1 as (k & Hk & Hkb). exists k. split.
      * apply zrange_elem in Hk. exact Hk.
      * rewrite <- Hb. exact Hkb.
    + rewrite E2. reflexivity.
  - right. split.
    + intros k Hk. rewrite <- Hb. rewrite Forall_forall in E1. apply E1.
      apply zrange_In. exact Hk.
    + rewrite E2. simpl. do 3 eexists. split; [reflexivity|].
      rewrite !length_map. split_and!; try reflexivity.
      unfold zlength. rewrite E3, zrange_length. simpl. fold lo len. lia.
Qed.

Lemma connect_shape a b w net net' cs :
  connect a b w net = Ok (net', cs) ->
  nodes net' = nodes net /\ input net' = input net /\ output net' = output net.
Proof.
  unfold connect, Node_connect. intros H.
  destruct (decide (a = b)) as [->|Hne].
  - destruct (Qeq_bool _ 0); simpl in H; injection H as <- <-; split_and!; reflexivity.
  - destruct (Node_isProjectingTo a b net); [discriminate|].
    simpl in H. injection H as <- <-. split_and!; reflexivity.
Qed.

Lemma gate_shape n c net net' :
  gate n c net = Ok net' ->
  nodes net' = nodes net /\ input net' = input net /\ output net' = output net.
Proof.
  intros H. apply gate_graph_eq in H. unfold graph_eq in H. tauto.
Qed.






(** ** The population manager, further *)

Lemma score_lt_true_ge x y : Neat.score_lt x y = true -> score_ge y x.
Proof.
  unfold Neat.score_lt, score_ge.
  destruct (score x) as [a|], (score y) as [b|]; try discriminate.
  intros H. apply negb_true_iff in H.
  destruct (Qlt_le_dec a b) as [Hlt|Hle]; [apply Qlt_le_weak; exact Hlt|].
  apply Qle_bool_iff in Hle. congruence.
Qed.

Lemma score_lt_false_ge x y :
  is_Some (score x) -> is_Some (score y) -> Neat.score_lt x y = false -> score_ge x y.
Proof.
  unfold Neat.score_lt, score_ge. intros [a ->] [b ->] H.
  apply negb_false_iff, Qle_bool_iff in H. exact H.
Qed.

Lemma score_ge_trans x y z : score_ge x y -> score_ge y z -> score_ge x z.
Proof.
  unfold score_ge.
  destruct (score x), (score y), (score z); try tauto.
  intros H1 H2. eapply Qle_trans; eassumption.
Qed.

Lemma insert_by_score_sorted x l :
  is_Some (score x) -> Forall (fun g => is_Some (score g)) l ->
  StronglySorted score_ge l -> StronglySorted score_ge (Neat.insert_by_score x l).
Proof.
  intros Hx. induction l as [|y l IH]; intros Hl Hs; simpl.
  - constructor; constructor.
  - apply Forall_cons in Hl as [Hy Hl]. apply StronglySorted_inv in Hs as [Hs Hyl].
    destruct (Neat.score_lt x y) eqn:E.
    + constructor; [apply IH; assumption|].
      rewrite insert_by_score_perm. constructor; [|exact Hyl].
      apply score_lt_true_ge. exact E.
    + pose proof (score_lt_false_ge x y Hx Hy E) as Hxy.
      constructor; [constructor; assumption|].
      constructor; [exact Hxy|].
      eapply Forall_impl; [exact Hyl|]. intros z Hz. simpl in Hz.
      eapply score_ge_trans; eassumption.
Qed.

Lemma sort_by_score_sorted l :
  Forall (fun g => is_Some (score g)) l -> StronglySorted score_ge (Neat.sort_by_score l).
Proof.
  induction l as [|x l IH]; intros Hl; simpl; [constructor|].
  apply Forall_cons in Hl as [Hx Hl].
  apply insert_by_score_sorted; [exact Hx | | apply IH; exact Hl].
  unfold Neat.sort_by_score in *. rewrite sort_by_score_perm. exact Hl.
Qed.

(** X17 (Neat sort). On a population whose genomes all carry a score,
    [sort] leaves a rearrangement of the same genomes in which every genome
    scores at least as high as each genome behind it. *)
Theorem sort_descending (m : Neat.t) :
  Forall (fun g => is_Some (score g)) (Neat.population m) ->
  StronglySorted score_ge (Neat.population (Neat.sort m))
  /\ Neat.population (Neat.sort m) ≡ₚ Neat.population m.
Proof.
  intros H. simpl. split; [apply sort_by_score_sorted; exact H | apply sort_by_score_perm].
Qed.

Lemma sort_descending_witness :
  StronglySorted score_ge (Neat.population (Neat.sort scored_manager))
  /\ Neat.population (Neat.sort scored_manager) ≡ₚ Neat.population scored_manager.
Proof.
  apply (sort_descending scored_manager).
  refine (bool_decide_unpack _ _); vm_compute; exact I.
Defined.



Lemma mutate_rounds_efficient m rs rm rounds : forall j genome,
  Neat.efficientMutation m = true ->
  Neat.mutate_rounds m rs rm j rounds genome = Ok genome.
Proof.
  induction rounds as [|rounds IH]; intros j genome He; simpl; [reflexivity|].
  rewrite He. simpl. apply IH. exact He.
Qed.

Lemma mutate_from_efficient m d genomes : forall i,
  Neat.efficientMutation m = true -> Neat.mutate_from m d i genomes = Ok genomes.
Proof.
  induction genomes as [|g genomes IH]; intros i He; simpl; [reflexivity|].
  rewrite mutate_rounds_efficient by exact He.
  destruct (Qle_bool _ _); simpl; rewrite IH by exact He; reflexivity.
Qed.

(** X19 (Neat mutate). With the option [efficientMutation] on, [mutate]
    changes no genome, whatever the mutation rate and amount: the method
    it selects is never applied. *)
Theorem mutate_efficient_noop (d : Neat.EvolveDraws) (m : Neat.t) :
  Neat.efficientMutation m = true -> Neat.mutate d m = Ok m.
Proof.
  intros He. unfold Neat.mutate. rewrite mutate_from_efficient by exact He.
  simpl. destruct m; reflexivity.
Qed.

Lemma mutate_efficient_noop_witness :
  Neat.mutate example_draws efficient_manager = Ok efficient_manager.
Proof.
  apply (mutate_efficient_noop example_draws efficient_manager). reflexivity.
Defined.

(** X20 (Neat selectMutationMethod). A method that [selectMutationMethod]
    returns is one of the manager's mutation methods, and it is not
    [ADD_NODE] for a genome with [maxNodes] nodes or more, not [ADD_CONN]
    at [maxConns] connections or more, not [ADD_GATE] at [maxGates] gates
    or more. *)
Theorem selectMutationMethod_within_caps (m : Neat.t) (genome : Network) (r : Q)
  (method : Method) :
  Neat.selectMutationMethod m genome r = Neat.chose method ->
  method ∈ Neat.mutation m
  /\ (forall kg cap, method = ADD_NODE kg -> Neat.maxNodes m = Some cap ->
        (length (nodes genome) < cap)%nat)
  /\ (forall cap, method = ADD_CONN -> Neat.maxConns m = Some cap ->
        (length (connections genome) < cap)%nat)
  /\ (forall cap, method = ADD_GATE -> Neat.maxGates m = Some cap ->
        (length (gates genome) < cap)%nat).
Proof.
  unfold Neat.selectMutationMethod. intros H.
  destruct (sample r (Neat.mutation m)) as [current|] eqn:Es; [|discriminate].
  apply sample_Some in Es.
  assert (Hov : forall n cap, Neat.over n (Some cap) = false -> (n < cap)%nat).
  { intros n cap Ho. simpl in Ho. apply Nat.leb_gt in Ho. exact Ho. }
  destruct current;
    try (injection H as <-; split_and!; [exact Es | discriminate ..]).
  - destruct (Neat.over _ _) eqn:Eo; [discriminate|]. injection H as <-.
    split_and!; [exact Es | | discriminate ..].
    intros kg cap _ Ec. rewrite Ec in Eo. apply Hov. exact Eo.
  - destruct (Neat.over _ _) eqn:Eo; [discriminate|]. injection H as <-.
    split_and!; [exact Es | discriminate | | discriminate].
    intros cap _ Ec. rewrite Ec in Eo. apply Hov. exact Eo.
  - destruct (Neat.over _ _) eqn:Eo; [discriminate|]. injection H as <-.
    split_and!; [exact Es | discriminate | discriminate |].
    intros cap _ Ec. rewrite Ec in Eo. apply Hov. exact Eo.
Qed.

Lemma selectMutationMethod_within_caps_witness :
  Neat.selectMutationMethod capped_manager net_2_2 0 = Neat.chose (ADD_NODE false)
  /\ Neat.maxNodes capped_manager = Some 5%nat
  /\ (length (nodes net_2_2) < 5)%nat.
Proof.
  split; [vm_compute; reflexivity|]. split; [reflexivity|].
  destruct (selectMutationMethod_within_caps capped_manager net_2_2 0 (ADD_NODE false))
    as (_ & H & _); [vm_compute; reflexivity|].
  exact (H false 5%nat eq_refl eq_refl).
Defined.

Lemma StronglySorted_head {A} (R : A -> A -> Prop) (l : list A) x y :
  StronglySorted R l -> l !! 0%nat = Some x -> y ∈ l -> x = y \/ R x y.
Proof.
  intros Hs Hx Hy. destruct l as [|x' l]; [discriminate|].
  injection Hx as ->. apply StronglySorted_inv in Hs as [_ Hs].
  apply elem_of_cons in Hy as [->|Hy]; [left; reflexivity|].
  right. rewrite Forall_forall in Hs. apply Hs. exact Hy.
Qed.

(** X21 (Neat evolve). For a fitness function, applied genome by genome,
    that does not read the [score] field, the genome [evolve] returns
    carries the fitness of the
    first genome of the new population, and no genome of the new
    population has a higher fitness; every score in the new population is
    reset. *)
Theorem evolve_returns_best fitness json_copy innovationID (d : Neat.EvolveDraws)
  (m : Neat.t) (fittest : Network) (m' : Neat.t) :
  (forall s g, fitness (set_score s g) = fitness g) ->
  Neat.evolve fitness json_copy innovationID d m = Ok (fittest, m') ->
  exists best, Neat.population m' !! 0%nat = Some best
    /\ score fittest = Some (fitness best)
    /\ forall g, g ∈ Neat.population m' ->
         (fitness g <= fitness best)%Q /\ score g = None.
Proof.
  intros Hfit H. unfold Neat.evolve in H.
  destruct (_ <? _)%nat; [discriminate|].
  destruct (last (Neat.population m)) as [g0|]; [|discriminate].
  set (m1 := match score g0 with None => _ | Some _ => m end) in H.
  set (m2 := Neat.sort m1) in H.
  apply bind_Ok in H as ([offspring m3] & _ & H).
  apply bind_Ok in H as (shared' & _ & H).
  apply bind_Ok in H as (offspring' & _ & H).
  destruct (_ <? _)%nat; [discriminate|].
  simpl in H.
  match type of H with
  | context [map (fun g => set_score (Some (fitness g)) g) ?l] => set (pop6 := l) in H
  end.
  simpl in H.
  set (scored := map (fun g => set_score (Some (fitness g)) g) pop6) in H.
  set (pop7 := Neat.sort_by_score (Neat.sort_by_score scored)) in H.
  assert (Hsc : Forall (fun g => score g = Some (fitness g)) scored).
  { apply Forall_forall. intros g Hg. apply list_elem_of_fmap in Hg as (g1 & -> & _).
    simpl. rewrite Hfit. reflexivity. }
  assert (Hperm : pop7 ≡ₚ scored).
  { unfold pop7. rewrite !sort_by_score_perm. reflexivity. }
  assert (Hsc7 : Forall (fun g => score g = Some (fitness g)) pop7).
  { rewrite Hperm. exact Hsc. }
  assert (Hsorted : StronglySorted score_ge pop7).
  { apply sort_by_score_sorted. rewrite sort_by_score_perm.
    eapply Forall_impl; [exact Hsc|]. intros g Hg. simpl in Hg. rewrite Hg. eauto. }
  destruct (pop7 !! 0%nat) as [best|] eqn:Eb; [|discriminate].
  injection H as <- <-. simpl.
  exists (set_score None best). split_and!.
  - rewrite list_lookup_fmap, Eb. reflexivity.
  - rewrite Hfit. rewrite Forall_forall in Hsc7. apply Hsc7.
    apply list_elem_of_lookup_2 in Eb. exact Eb.
  - intros g Hg. apply list_elem_of_fmap in Hg as (g1 & -> & Hg1).
    split; [|reflexivity]. rewrite !Hfit.
    rewrite Forall_forall in Hsc7.
    pose proof (Hsc7 g1 Hg1) as S1.
    pose proof (Hsc7 best (list_elem_of_lookup_2 _ _ _ Eb)) as S2.
    destruct (StronglySorted_head score_ge pop7 best g1 Hsorted Eb Hg1) as [->|Hge].
    + apply Qle_refl.
    + unfold score_ge in Hge. rewrite S1, S2 in Hge. exact Hge.
Qed.

Lemma evolve_returns_best_witness :
  exists best, Neat.population provenance_evolved.2 !! 0%nat = Some best
    /\ score provenance_evolved.1 = Some (example_fitness best)
    /\ forall g, g ∈ Neat.population provenance_evolved.2 ->
         (example_fitness g <= example_fitness best)%Q /\ score g = None.
Proof.
  apply (evolve_returns_best example_fitness id cantor example_draws provenance_manager
           provenance_evolved.1 provenance_evolved.2).
  - intros s g. reflexivity.
  - vm_compute. reflexivity.
Defined.

(** ** The JSON round trip *)

Lemma set_indices_node net :
  dropout (set_indices net) = dropout net
  /\ forall n, exists idx, node_at (set_indices net) n = set_index idx (node_at net n).
Proof.
  unfold set_indices. generalize (imap pair (nodes net)). intros l.
  revert net. induction l as [|[i n] l IH]; intros net; simpl.
  - split; [reflexivity|]. intros n. exists (index (node_at net n)).
    destruct (node_at net n); reflexivity.
  - destruct (IH (upd_node n (set_index (Some i)) net)) as (H1 & H2).
    split; [exact H1|]. intros m. destruct (H2 m) as [idx E]. rewrite E.
    rewrite node_at_upd_node. case_dec; subst; eexists; reflexivity.
Qed.

Lemma push_nodes_spec jsons : forall off,
  wf off -> connections off = [] -> selfconns off = [] ->
  let off' := push_nodes jsons off in
  wf off' /\ connections off' = [] /\ selfconns off' = []
  /\ length (nodes off') = (length (nodes off) + length jsons)%nat
  /\ input_size off' = input_size off /\ output_size off' = output_size off
  /\ dropout off' = dropout off
  /\ (forall i n, nodes off !! i = Some n ->
        nodes off' !! i = Some n /\ node_at off' n = node_at off n)
  /\ (forall i json, jsons !! i = Some json ->
        exists n, nodes off' !! (length (nodes off) + i)%nat = Some n
          /\ type (node_at off' n) = j_type json
          /\ bias (node_at off' n) = j_bias json
          /\ squash (node_at off' n) = j_squash json).
Proof.
  induction jsons as [|json jsons IH]; intros off W Hc Hs; cbn [push_nodes].
  - cbv zeta. split_and!; try assumption; try reflexivity; [simpl; lia | auto |].
    intros i json Hi. discriminate.
  - unfold Node_from_JSON.
    pose proof (push_node_wf off
                  (mkNode (j_type json) (j_bias json) (j_squash json) 0 0 0 None [] [] [] 0%nat)
                  W) as HP.
    cbv zeta in HP. cbn [type bias squash] in HP.
    pose proof (Node_new_spec Hidden off) as HN. cbv zeta in HN.
    assert (HD : dropout (Node_new Hidden off).2 = dropout off) by reflexivity.
    destruct (Node_new Hidden off) as [n off1]. cbn [fst snd] in HP, HN, HD.
    destruct HP as (W' & Hn' & Hc' & Hs' & _).
    { rewrite Hs. constructor. }
    destruct HN as (-> & N1 & N2 & N3 & N4 & N5 & N6 & N7 & N8 & N9 & N10 & N11 & N12).
    set (off2 := set_nodes _ _) in *.
    destruct (IH off2 W' ltac:(rewrite Hc'; exact Hc) ltac:(rewrite Hs'; exact Hs))
      as (W2 & Hc2 & Hs2 & Hl2 & Hi2 & Ho2 & Hd2 & Hold2 & Hnew2).
    assert (Hlt : forall m, m ∈ nodes off -> m ≠ next_node off).
    { intros m Hm. pose proof (wf_node_of off m W Hm) as (_&_&_&_&_&_&_&Hb). lia. }
    assert (Hnode : forall m, m ≠ next_node off -> node_at off2 m = node_at off m).
    { intros m Hm. unfold off2. rewrite node_at_set_nodes, node_at_upd_node_ne by congruence.
      apply N11. exact Hm. }
    cbv zeta. split_and!; try assumption.
    + rewrite Hl2, Hn', length_app. simpl. lia.
    + rewrite Hi2. unfold off2. simpl. exact N7.
    + rewrite Ho2. unfold off2. simpl. exact N8.
    + rewrite Hd2. unfold off2. simpl. exact HD.
    + intros i m Hi.
      destruct (Hold2 i m) as [E1 E2].
      { rewrite Hn'. apply lookup_app_l_Some. exact Hi. }
      split; [exact E1|]. rewrite E2. apply Hnode, Hlt.
      apply list_elem_of_lookup_2 in Hi. exact Hi.
    + intros [|i] j Hj.
      * injection Hj as <-.
        destruct (Hold2 (length (nodes off)) (next_node off)) as [E1 E2].
        { rewrite Hn'. rewrite lookup_app_r by lia. rewrite Nat.sub_diag. reflexivity. }
        exists (next_node off). rewrite Nat.add_0_r. split; [exact E1|].
        rewrite E2. unfold off2.
        rewrite node_at_set_nodes, node_at_upd_node_eq. simpl. auto.
      * destruct (Hnew2 i j Hj) as (m & E1 & E2).
        exists m. split; [|exact E2].
        rewrite Hn', length_app in E1. simpl in E1.
        replace (length (nodes off) + S i)%nat with (length (nodes off) + 1 + i)%nat by lia.
        exact E1.
Qed.

(** The kind, bias and squash of a node. *)
Lemma connect_attrs a b w net net' cs :
  connect a b w net = Ok (net', cs) ->
  forall n, type (node_at net' n) = type (node_at net n)
            /\ bias (node_at net' n) = bias (node_at net n)
            /\ squash (node_at net' n) = squash (node_at net n).
Proof.
  unfold connect, Node_connect. intros H n.
  destruct (decide (a = b)) as [->|Hne].
  - destruct (Qeq_bool _ 0); simpl in H; injection H as <- <-;
      autorewrite with store; auto.
  - destruct (Node_isProjectingTo a b net); [discriminate|].
    simpl in H. injection H as <- <-. autorewrite with store.
    repeat case_dec; subst; simpl; autorewrite with store; repeat case_dec; auto; congruence.
Qed.

Lemma gate_attrs g c net net' :
  gate g c net = Ok net' ->
  forall n, type (node_at net' n) = type (node_at net n)
            /\ bias (node_at net' n) = bias (node_at net n)
            /\ squash (node_at net' n) = squash (node_at net n).
Proof.
  unfold gate, Node_gate. intros H n.
  destruct (indexOf g (nodes net)); [|discriminate].
  destruct (gater (conn_at net c)); injection H as <-; [auto|].
  autorewrite with store. case_dec; subst; auto.
Qed.

Lemma instantiate_attrs size genes : forall off off',
  instantiate genes size off = Ok off' ->
  forall n, type (node_at off' n) = type (node_at off n)
            /\ bias (node_at off' n) = bias (node_at off n)
            /\ squash (node_at off' n) = squash (node_at off n).
Proof.
  induction genes as [|g genes IH]; intros off off' H n; simpl in H.
  - injection H as <-. auto.
  - destruct (g_from g) as [f|]; [|exact (IH _ _ H n)].
    destruct (g_to g) as [t|]; [|exact (IH _ _ H n)].
    destruct (_ && _); [|exact (IH _ _ H n)].
    destruct (nodes off !! f) as [nf|]; [|discriminate].
    destruct (nodes off !! t) as [nt|]; [|discriminate].
    apply bind_Ok in H as ([off1 cs] & Hc & H).
    pose proof (connect_attrs _ _ _ _ _ _ Hc n) as (C1 & C2 & C3).
    destruct cs as [|c cs]; [discriminate|].
    apply bind_Ok in H as (off3 & Hg & H).
    destruct (IH _ _ H n) as (I1 & I2 & I3).
    assert (G : type (node_at off3 n) = type (node_at off1 n)
                /\ bias (node_at off3 n) = bias (node_at off1 n)
                /\ squash (node_at off3 n) = squash (node_at off1 n)).
    { destruct (g_gater g) as [[gi|]|].
      - destruct (_ <? _).
        + destruct (nodes _ !! gi); [|discriminate].
          apply gate_attrs with (n := n) in Hg. autorewrite with store in Hg. exact Hg.
        + injection Hg as <-. autorewrite with store. auto.
      - injection Hg as <-. autorewrite with store. auto.
      - injection Hg as <-. autorewrite with store. auto. }
    destruct G as (G1 & G2 & G3). split_and!; congruence.
Qed.

Lemma connect_json_instantiate size jsons : forall off,
  Z.of_nat (length (nodes off)) = size ->
  Forall (fun g => exists f t, g_from g = Some f /\ g_to g = Some t
                     /\ Z.of_nat f < size /\ Z.of_nat t < size
                     /\ forall gi, g_gater g = Some (Some gi) -> Z.of_nat gi < size) jsons ->
  connect_json jsons off = instantiate jsons size off.
Proof.
  induction jsons as [|g jsons IH]; intros off Hsize Hg; [reflexivity|].
  apply Forall_cons in Hg as [(f & t & Hf & Ht & Hfl & Htl & Hgl) Hg].
  simpl. rewrite Hf, Ht. simpl.
  destruct (Z.ltb_spec (Z.of_nat t) size); [|lia].
  destruct (Z.ltb_spec (Z.of_nat f) size); [|lia]. simpl.
  destruct (nodes off !! f) as [nf|]; [|reflexivity].
  destruct (nodes off !! t) as [nt|]; [|reflexivity].
  destruct (connect nf nt None off) as [[off1 cs]|] eqn:Ec; [|reflexivity].
  apply connect_shape in Ec as (C1 & _). simpl.
  destruct cs as [|c cs]; [reflexivity|].
  set (off2 := upd_conn c (set_weight (g_weight g)) off1).
  assert (Hn2 : nodes off2 = nodes off) by (unfold off2; simpl; exact C1).
  destruct (g_gater g) as [[gi|]|] eqn:Eg.
  - destruct (Z.ltb_spec (Z.of_nat gi) size); [|specialize (Hgl gi eq_refl); lia].
    destruct (nodes off1 !! gi) as [gn|]; [|reflexivity].
    destruct (gate gn c off2) as [off3|] eqn:Egate; [|reflexivity].
    simpl. apply IH; [|exact Hg].
    apply gate_shape in Egate as (G1 & _). congruence.
  - simpl. apply IH; [congruence | exact Hg].
  - simpl. apply IH; [congruence | exact Hg].
Qed.

Lemma self_json_triples N N' :
  (forall c, conn_at N' c = conn_at N c) ->
  (forall n, conn_self (node_at N' n) = conn_self (node_at N n)) ->
  wf N ->
  forall l k,
    (forall i n, l !! i = Some n -> nodes N !! (k + i)%nat = Some n) ->
    map gene_triple (concat (imap (fun i => self_json N' (k + i)) l))
    = map (conn_triple N)
        (map (fun n => conn_self (node_at N n))
           (List.filter
              (fun n => negb (Qeq_bool (weight (conn_at N (conn_self (node_at N n)))) 0))
              l)).
Proof.
  intros Hc Hs W. pose proof W as (N1 & _).
  induction l as [|a l IH]; intros k H; [reflexivity|].
  rewrite imap_cons. cbn [concat]. rewrite map_app.
  rewrite (imap_ext _ (fun i => self_json N' (S k + i)) l).
  2:{ intros i x _. simpl. f_equal. lia. }
  unfold ConnectionJSON in *. rewrite (IH (S k)).
  2:{ intros i n Hi. replace (S k + i)%nat with (k + S i)%nat by lia. apply H. exact Hi. }
  pose proof (H 0%nat a eq_refl) as Ha. rewrite Nat.add_0_r in Ha.
  unfold self_json at 1. rewrite Hs, Hc. cbn [List.filter].
  destruct (Qeq_bool _ 0); cbn [negb]; [reflexivity|].
  cbn [map app]. f_equal.
  unfold gene_triple, conn_triple. cbn [g_from g_to g_weight].
  pose proof (wf_node_of N a W (list_elem_of_lookup_2 _ _ _ Ha)) as (_&_&_&_&H5&H6&_).
  rewrite H5, H6, Nat.add_0_r, (NoDup_indexOf _ _ _ N1 Ha). reflexivity.
Qed.

Lemma live_selfconns N :
  wf N -> wf_selfconns N -> selfconns_live N ->
  map (fun n => conn_self (node_at N n))
    (List.filter
       (fun n => negb (Qeq_bool (weight (conn_at N (conn_self (node_at N n)))) 0))
       (nodes N))
  ≡ₚ selfconns N.
Proof.
  intros W WS L. pose proof W as (N1 & _). pose proof WS as (S1 & _).
  unfold selfconns_live in L. rewrite Forall_forall in L.
  apply NoDup_Permutation.
  - apply NoDup_fmap_2_strong; [|apply NoDup_ListNoDup, List.NoDup_filter, NoDup_ListNoDup, N1].
    intros x y Hx Hy E. apply filter_elem in Hx as [Hx _]. apply filter_elem in Hy as [Hy _].
    pose proof (wf_node_of N x W Hx) as (_&_&_&_&X5&_).
    pose proof (wf_node_of N y W Hy) as (_&_&_&_&Y5&_).
    congruence.
  - exact S1.
  - intros c. split.
    + intros Hc. apply list_elem_of_fmap in Hc as (n & -> & Hn).
      apply filter_elem in Hn as [Hn Hw]. apply negb_true_iff in Hw.
      apply (L n Hn). exact Hw.
    + intros Hc. destruct (self_entry N c W WS Hc) as (Hn & _ & E).
      apply list_elem_of_fmap. exists (from (conn_at N c)). split; [exact E|].
      apply list_elem_of_In, filter_In. split; [apply list_elem_of_In; exact Hn|].
      apply negb_true_iff. apply (L _ Hn). rewrite <- E. exact Hc.
Qed.

Lemma connect_sizes a b w net net' cs :
  connect a b w net = Ok (net', cs) ->
  input_size net' = input_size net /\ output_size net' = output_size net
  /\ dropout net' = dropout net.
Proof.
  unfold connect, Node_connect. intros H.
  destruct (decide (a = b)) as [->|Hne].
  - destruct (Qeq_bool _ 0); simpl in H; injection H as <- <-; split_and!; reflexivity.
  - destruct (Node_isProjectingTo a b net); [discriminate|].
    simpl in H. injection H as <- <-. split_and!; reflexivity.
Qed.

Lemma gate_sizes g c net net' :
  gate g c net = Ok net' ->
  input_size net' = input_size net /\ output_size net' = output_size net
  /\ dropout net' = dropout net.
Proof.
  unfold gate, Node_gate. intros H.
  destruct (indexOf g (nodes net)); [|discriminate].
  destruct (gater (conn_at net c)); injection H as <-; split_and!; reflexivity.
Qed.

Lemma instantiate_sizes size genes : forall off off',
  instantiate genes size off = Ok off' ->
  input_size off' = input_size off /\ output_size off' = output_size off
  /\ dropout off' = dropout off.
Proof.
  induction genes as [|g genes IH]; intros off off' H; simpl in H.
  - injection H as <-. split_and!; reflexivity.
  - destruct (g_from g) as [f|]; [|exact (IH _ _ H)].
    destruct (g_to g) as [t|]; [|exact (IH _ _ H)].
    destruct (_ && _); [|exact (IH _ _ H)].
    destruct (nodes off !! f) as [nf|]; [|discriminate].
    destruct (nodes off !! t) as [nt|]; [|discriminate].
    apply bind_Ok in H as ([off1 cs] & Hc & H).
    apply connect_sizes in Hc as (C1 & C2 & C3).
    destruct cs as [|c cs]; [discriminate|].
    apply bind_Ok in H as (off3 & Hg & H).
    apply IH in H as (I1 & I2 & I3).
    assert (G : input_size off3 = input_size off1 /\ output_size off3 = output_size off1
                /\ dropout off3 = dropout off1).
    { destruct (g_gater g) as [[gi|]|].
      - destruct (_ <? _).
        + destruct (nodes _ !! gi); [|discriminate].
          apply gate_sizes in Hg. exact Hg.
        + injection Hg as <-. split_and!; reflexivity.
      - injection Hg as <-. split_and!; reflexivity.
      - injection Hg as <-. split_and!; reflexivity. }
    destruct G as (G1 & G2 & G3). split_and!; congruence.
Qed.

Lemma gater_in_range N c g gi :
  wf N -> gaters_listed N -> c ∈ connections N ++ selfconns N ->
  gater (conn_at N c) = Some g -> index (node_at (set_indices N) g) = Some gi ->
  (gi < length (nodes N))%nat.
Proof.
  intros W G Hc Hg Hi. pose proof W as (N1 & _).
  unfold gaters_listed in G. rewrite Forall_forall in G.
  specialize (G c Hc). rewrite Hg in G.
  apply list_elem_of_lookup in G as [pos Hpos].
  destruct (set_indices_spec N N1) as (_ & _ & _ & _ & H5).
  rewrite (H5 pos g Hpos) in Hi. injection Hi as <-.
  eapply lookup_lt_Some. exact Hpos.
Qed.

(** X22 (to_JSON, from_JSON). A well-formed network whose [selfconns]
    list agrees with the non-zero self-connection weights and whose gaters
    are nodes of it survives the JSON round trip: [from_JSON] of its
    [to_JSON] returns a network with as many nodes, with the same kind,
    bias and squash at every position, the same connection set, and the
    same [input_size], [output_size] and [dropout]. *)
Theorem JSON_roundtrip (N : Network) (w : nat -> Q) :
  wf N -> wf_selfconns N -> selfconns_live N -> gaters_listed N ->
  exists net', from_JSON (to_JSON N).1 w = Ok net'
    /\ length (nodes net') = length (nodes N)
    /\ (forall i n n', nodes N !! i = Some n -> nodes net' !! i = Some n' ->
          type (node_at net' n') = type (node_at N n)
          /\ bias (node_at net' n') = bias (node_at N n)
          /\ squash (node_at net' n') = squash (node_at N n))
    /\ connection_set net' ≡ₚ connection_set N
    /\ input_size net' = input_size N /\ output_size net' = output_size N
    /\ dropout net' = dropout N.
Proof.
  intros W WS L G. pose proof W as (N1 & _).
  destruct (set_indices_spec N N1) as (H1 & H2 & H3 & H4 & H5).
  destruct (set_indices_frame N) as (_ & F2 & F3 & _).
  destruct (set_indices_node N) as (D1 & D2).
  unfold from_JSON, to_JSON.
  cbn [fst json_input json_output json_dropout json_nodes json_connections].
  set (N' := set_indices N) in *.
  destruct (Network_new_spec (input_size N') (output_size N') w) as (off0 & E0 & C).
  rewrite E0, rbind_Ok.
  destruct C as (_ & _ & _ & _ & _ & C6 & _ & C8 & C9 & _).
  set (off := set_connections [] (set_nodes [] (set_dropout (dropout N') off0))).
  set (jsons := imap (fun i n => Node_to_JSON (node_at N' n) i) (nodes N')).
  assert (Woff : wf off) by (unfold wf; simpl; split_and!; constructor).
  pose proof (push_nodes_spec jsons off Woff eq_refl C6) as HP. cbv zeta in HP.
  set (off1 := push_nodes jsons off) in *.
  destruct HP as (W1 & Hc1 & Hs1 & Hl1 & Hi1 & Ho1 & Hd1 & _ & Hnew1).
  assert (Hlj : length jsons = length (nodes N)).
  { unfold jsons. rewrite length_imap, H1. reflexivity. }
  assert (Hsize : Z.of_nat (length (nodes off1)) = zlength (nodes N)).
  { rewrite Hl1, Hlj. reflexivity. }
  assert (Hself : forall n, conn_self (node_at N' n) = conn_self (node_at N n)).
  { intros n. destruct (D2 n) as [idx ->]. reflexivity. }
  set (genes := concat (imap (self_json N') (nodes N')) ++ map (gene_of N') (connections N')).
  assert (T : map gene_triple (concat (imap (self_json N') (nodes N)))
              = map (conn_triple N)
                  (map (fun n => conn_self (node_at N n))
                     (List.filter
                        (fun n => negb (Qeq_bool
                                          (weight (conn_at N (conn_self (node_at N n)))) 0))
                        (nodes N)))).
  { exact (self_json_triples N N' H4 Hself W (nodes N) 0%nat (fun i n Hi => Hi)). }
  assert (Hgenes : map gene_triple genes ≡ₚ connection_set N).
  { unfold genes, connection_set. unfold ConnectionJSON in *. rewrite !map_app, H1, H2, T.
    rewrite (live_selfconns N W WS L).
    rewrite map_map.
    rewrite (map_ext_in (fun c => gene_triple (gene_of N' c)) (conn_triple N)).
    2:{ intros c Hc. apply gene_of_triple; try assumption.
        apply elem_of_app. left. apply list_elem_of_In. exact Hc. }
    apply Permutation_app_comm. }
  assert (Hrange : Forall (fun g => exists f t, g_from g = Some f /\ g_to g = Some t
                     /\ Z.of_nat f < zlength (nodes N) /\ Z.of_nat t < zlength (nodes N)
                     /\ forall gi, g_gater g = Some (Some gi) ->
                                   Z.of_nat gi < zlength (nodes N)) genes).
  { rewrite Forall_forall. intros g Hg.
    assert (Htr : gene_triple g ∈ connection_set N).
    { rewrite <- Hgenes. apply list_elem_of_fmap. exists g. auto. }
    destruct (connection_set_positions N _ W WS Htr) as (f & t & Hf & Ht & Hfl & Htl).
    exists f, t. unfold zlength. split_and!; try assumption; try lia.
    intros gi Hgi. unfold genes in Hg. apply elem_of_app in Hg as [Hg|Hg].
    - apply list_elem_of_In, in_concat in Hg as (l' & Hl' & Hg).
      apply list_elem_of_In in Hl', Hg.
      apply elem_of_lookup_imap in Hl' as (i & n & -> & Hn).
      unfold self_json in Hg. rewrite Hself, H4 in Hg.
      destruct (Qeq_bool _ 0) eqn:Eq; [inversion Hg|].
      apply list_elem_of_singleton in Hg. subst g. cbn [g_gater] in Hgi.
      destruct (gater _) as [g0|] eqn:Eg; [|discriminate].
      injection Hgi as Hgi. rewrite H1 in Hn.
      apply Nat2Z.inj_lt.
      apply (gater_in_range N (conn_self (node_at N n)) g0 gi W G); try assumption.
      apply elem_of_app. right.
      unfold selfconns_live in L. rewrite Forall_forall in L.
      apply (L n (list_elem_of_lookup_2 _ _ _ Hn)). exact Eq.
    - apply list_elem_of_fmap in Hg as (c & -> & Hc). rewrite H2 in Hc.
      unfold gene_of in Hgi. cbn [g_gater] in Hgi. rewrite H4 in Hgi.
      destruct (gater _) as [g0|] eqn:Eg; [|discriminate].
      injection Hgi as Hgi.
      apply Nat2Z.inj_lt.
      apply (gater_in_range N c g0 gi W G); try assumption.
      apply elem_of_app. left. exact Hc. }
  rewrite (connect_json_instantiate (zlength (nodes N)) genes off1 Hsize Hrange).
  destruct (instantiate_spec (zlength (nodes N)) genes off1 W1 Hsize)
    as (net' & E' & Hn' & Hcs').
  - rewrite Hs1. constructor.
  - eapply Forall_impl; [exact Hrange|]. simpl.
    intros g (f & t & Hf & Ht & Hfl & Htl & _). exists f, t. auto.
  - unfold connection_set at 1. rewrite Hc1, Hs1. simpl.
    rewrite Hgenes. apply connection_set_NoDup; assumption.
  - destruct (instantiate_sizes _ _ _ _ E') as (S1 & S2 & S3).
    exists net'. split_and!.
    + exact E'.
    + rewrite Hn', Hl1, Hlj. reflexivity.
    + intros i n n' Hi Hi'. rewrite Hn' in Hi'.
      destruct (Hnew1 i (Node_to_JSON (node_at N' n) i)) as (m & E1 & T1 & T2 & T3).
      { unfold jsons. rewrite list_lookup_imap, H1, Hi. reflexivity. }
      simpl in E1. rewrite E1 in Hi'. injection Hi' as <-.
      destruct (instantiate_attrs _ _ _ _ E' m) as (A1 & A2 & A3).
      rewrite A1, A2, A3, T1, T2, T3. simpl.
      destruct (D2 n) as [idx ->]. auto.
    + rewrite Hcs'. unfold connection_set at 1. rewrite Hc1, Hs1. simpl. exact Hgenes.
    + rewrite S1, Hi1. simpl. rewrite C8. exact F2.
    + rewrite S2, Ho1. simpl. rewrite C9. exact F3.
    + rewrite S3, Hd1. simpl. exact D1.
Qed.

Lemma JSON_roundtrip_witness :
  exists net', from_JSON (to_JSON net_2_1_2).1 (const_draws (1 # 2)) = Ok net'
    /\ length (nodes net') = length (nodes net_2_1_2)
    /\ (forall i n n', nodes net_2_1_2 !! i = Some n -> nodes net' !! i = Some n' ->
          type (node_at net' n') = type (node_at net_2_1_2 n)
          /\ bias (node_at net' n') = bias (node_at net_2_1_2 n)
          /\ squash (node_at net' n') = squash (node_at net_2_1_2 n))
    /\ connection_set net' ≡ₚ connection_set net_2_1_2
    /\ input_size net' = input_size net_2_1_2 /\ output_size net' = output_size net_2_1_2
    /\ dropout net' = dropout net_2_1_2.
Proof.
  apply (JSON_roundtrip net_2_1_2 (const_draws (1 # 2)));
    refine (bool_decide_unpack _ _); vm_compute; exact I.
Defined.

(** ** The remaining mutation methods *)

(** X23 (mutate, SUB_NODE). The mutation [SUB_NODE] leaves a network
    without a hidden node as it is; otherwise it removes one node that is
    neither an input nor an output node, and every other node stays, with
    its kind. *)
Theorem mutate_SUB_NODE_removes_hidden (kg : bool) (rnd : nat -> Q) (net net' : Network) :
  wf net -> mutate (Some (SUB_NODE kg)) rnd net = Ok net' ->
  (net' = net
   /\ forall m, m ∈ nodes net ->
        type (node_at net m) = Input \/ type (node_at net m) = Output)
  \/ exists n, n ∈ nodes net
       /\ type (node_at net n) ≠ Input /\ type (node_at net n) ≠ Output
       /\ (forall m, m ∈ nodes net' <-> m ∈ nodes net /\ m ≠ n)
       /\ length (nodes net) = S (length (nodes net'))
       /\ (forall m, type (node_at net' m) = type (node_at net m)).
Proof.
  intros W H. unfold mutate in H. apply bind_Ok in H as (p & Hp & H).
  unfold possible in Hp. injection Hp as <-.
  destruct (or_false _ _) as [[l| |]|] eqn:E.
  - right. apply or_false_Some in E as [E _]. injection E as ->.
    destruct (sample _ _) as [n|] eqn:Es; [|discriminate].
    apply sample_Some, filter_elem in Es as [Hn Ht].
    apply andb_true_iff in Ht as [Ht1 Ht2].
    apply negb_true_iff, bool_decide_eq_false in Ht1, Ht2.
    destruct (remove_steps _ _ _ _ _ W H)
      as (idx & net7 & Eidx & -> & W7 & St & _).
    apply indexOf_Some in Eidx as [Eidx _].
    pose proof St as (B1&B2&B3&B4&B5&B6&B7&B8&B9&B10).
    pose proof W as (N1 & _).
    exists n. split_and!; try assumption.
    + intros m. simpl. rewrite B1. apply delete_elem_NoDup; assumption.
    + simpl. rewrite B1, length_delete by eauto.
      apply lookup_lt_Some in Eidx. lia.
  - apply or_false_Some in E as [E _]. discriminate.
  - apply or_false_Some in E as [E _]. discriminate.
  - left. injection H as <-. split; [reflexivity|].
    intros m Hm. unfold or_false in E.
    destruct (List.filter _ (nodes net)) as [|x l] eqn:Ef; [|discriminate].
    destruct (decide (type (node_at net m) = Input)) as [|HI]; [left; assumption|].
    destruct (decide (type (node_at net m) = Output)) as [|HO]; [right; assumption|].
    exfalso. assert (Hin : In m []); [|inversion Hin].
    rewrite <- Ef. apply filter_In. split; [apply list_elem_of_In; exact Hm|].
    rewrite !bool_decide_eq_false_2 by assumption. reflexivity.
Qed.

Lemma mutate_SUB_NODE_removes_hidden_witness :
  (net_2_1_2_sub_node = net_2_1_2
   /\ forall m, m ∈ nodes net_2_1_2 ->
        type (node_at net_2_1_2 m) = Input \/ type (node_at net_2_1_2 m) = Output)
  \/ exists n, n ∈ nodes net_2_1_2
       /\ type (node_at net_2_1_2 n) ≠ Input /\ type (node_at net_2_1_2 n) ≠ Output
       /\ (forall m, m ∈ nodes net_2_1_2_sub_node <-> m ∈ nodes net_2_1_2 /\ m ≠ n)
       /\ length (nodes net_2_1_2) = S (length (nodes net_2_1_2_sub_node))
       /\ (forall m, type (node_at net_2_1_2_sub_node m) = type (node_at net_2_1_2 m)).
Proof.
  apply (mutate_SUB_NODE_removes_hidden true (const_draws (1 # 2)) net_2_1_2
           net_2_1_2_sub_node).
  - refine (bool_decide_unpack _ _); vm_compute; exact I.
  - vm_compute. reflexivity.
Defined.

Lemma self_candidates_zero idxs net : forall l n,
  self_candidates idxs net = Ok l -> n ∈ l ->
  Qeq_bool (weight (conn_at net (conn_self (node_at net n)))) 0 = true.
Proof.
  induction idxs as [|i idxs IH]; intros l n H Hin; simpl in H.
  - injection H as <-. inversion Hin.
  - destruct (at_Z (nodes net) i) as [m|] eqn:E1; [|discriminate].
    apply bind_Ok in H as (rest & Hr & H). injection H as <-.
    destruct (Qeq_bool _ _) eqn:Eq; [|eauto].
    apply elem_of_cons in Hin as [->|Hin]; [exact Eq | eauto].
Qed.

(** X24 (mutate, ADD_SELF_CONN). The mutation [ADD_SELF_CONN] leaves the
    nodes and the ordinary connections alone; it either changes nothing or
    appends to [selfconns] the self-connection object of one node whose
    self-connection weight was zero. *)
Theorem mutate_ADD_SELF_CONN_appends (rnd : nat -> Q) (net net' : Network) :
  mutate (Some ADD_SELF_CONN) rnd net = Ok net' ->
  graph_eq net net'
  /\ (net' = net
      \/ exists n, n ∈ nodes net
           /\ Qeq_bool (weight (conn_at net (conn_self (node_at net n)))) 0 = true
           /\ selfconns net' = selfconns net ++ [conn_self (node_at net n)]).
Proof.
  intros H. unfold mutate in H. apply bind_Ok in H as (p & Hp & H).
  unfold possible in Hp. apply bind_Ok in Hp as (ns & Hns & Hp). injection Hp as <-.
  destruct (or_false _ _) as [[l| |]|] eqn:E;
    try (injection H as <-; split; [apply graph_eq_refl | left; reflexivity]).
  apply or_false_Some in E as [E _]. injection E as ->.
  destruct (sample _ _) as [n|] eqn:Es; [|discriminate].
  apply sample_Some in Es.
  apply bind_Ok in H as ([net1 cs] & Hc & H). injection H as <-.
  destruct (connect_self _ _ _ _ _ Hc) as (G & -> & Hsc & _).
  split; [exact G|]. right. exists n. split_and!.
  - eapply self_candidates_spec; eassumption.
  - eapply self_candidates_zero; eassumption.
  - exact Hsc.
Qed.

Lemma mutate_ADD_SELF_CONN_appends_witness :
  graph_eq net_2_2 net_2_2_self
  /\ (net_2_2_self = net_2_2
      \/ exists n, n ∈ nodes net_2_2
           /\ Qeq_bool (weight (conn_at net_2_2 (conn_self (node_at net_2_2 n)))) 0 = true
           /\ selfconns net_2_2_self = selfconns net_2_2 ++ [conn_self (node_at net_2_2 n)]).
Proof.
  apply (mutate_ADD_SELF_CONN_appends (const_draws (1 # 2)) net_2_2 net_2_2_self).
  vm_compute. reflexivity.
Defined.

Lemma disconnect_self_delete a net net' c :
  c ∈ selfconns net -> from (conn_at net c) = a -> to (conn_at net c) = a ->
  disconnect a a net = Ok net' ->
  exists i c', selfconns net !! i = Some c' /\ from (conn_at net c') = a
    /\ selfconns net' = delete i (selfconns net).
Proof.
  intros Hc Hf Ht. unfold disconnect.
  rewrite bool_decide_eq_true_2 by reflexivity. cbv beta iota zeta.
  intros H. apply bind_Ok in H as (net1 & H1 & H). injection H as <-.
  destruct (find_index _ (selfconns net)) as [i|] eqn:Ei.
  - destruct (find_index_Some _ _ _ Ei) as (c0 & Hi & Hhit). simpl in Hhit.
    apply andb_true_iff in Hhit as [Hh1 _]. apply bool_decide_eq_true in Hh1.
    apply bind_Ok in H1 as (netg & Hg & H1). injection H1 as <-.
    assert (Hgs : selfconns netg = selfconns net).
    { match type of Hg with
      | match ?g with _ => _ end = _ => destruct g
      end.
      - eapply ungate_selfconns. exact Hg.
      - injection Hg as <-. reflexivity. }
    exists i, c0. split_and!; [exact Hi | exact Hh1 |].
    rewrite Node_disconnect_selfconns. simpl. rewrite Hgs. reflexivity.
  - exfalso. pose proof (find_index_None _ _ c Ei Hc) as Hno. simpl in Hno.
    rewrite Hf, Ht, !bool_decide_eq_true_2 in Hno by reflexivity. discriminate.
Qed.

(** X25 (mutate, SUB_SELF_CONN). On a network whose listed
    self-connections join a node to itself, the mutation [SUB_SELF_CONN]
    leaves the nodes and the ordinary connections alone; it changes
    nothing when [selfconns] is empty and otherwise takes exactly one
    entry out of [selfconns]. *)
Theorem mutate_SUB_SELF_CONN_deletes (rnd : nat -> Q) (net net' : Network) :
  selfconns_ok net ->
  mutate (Some SUB_SELF_CONN) rnd net = Ok net' ->
  graph_eq net net'
  /\ (selfconns net = [] /\ net' = net
      \/ exists i c, selfconns net !! i = Some c
           /\ selfconns net' = delete i (selfconns net)).
Proof.
  intros S H. unfold mutate in H. apply bind_Ok in H as (p & Hp & H).
  unfold possible in Hp. injection Hp as <-.
  destruct (Z.ltb_spec 0 (zlength (selfconns net))) as [Hpos|Hz].
  - destruct (sample _ _) as [c|] eqn:Es; [|discriminate].
    apply sample_Some in Es.
    unfold selfconns_ok in S. rewrite Forall_forall in S.
    destruct (S c Es) as [_ Hft]. rewrite <- Hft in H.
    destruct (disconnect_self _ _ _ H) as [G _].
    split; [exact G|]. right.
    destruct (disconnect_self_delete _ _ _ c Es eq_refl (eq_sym Hft) H)
      as (i & c' & Hi & _ & Hd).
    exists i, c'. auto.
  - injection H as <-. split; [apply graph_eq_refl|]. left.
    split; [|reflexivity]. unfold zlength in Hz.
    destruct (selfconns net); [reflexivity | simpl in Hz; lia].
Qed.

Lemma mutate_SUB_SELF_CONN_deletes_witness :
  graph_eq net_2_2_self net_2_2_unself
  /\ (selfconns net_2_2_self = [] /\ net_2_2_unself = net_2_2_self
      \/ exists i c, selfconns net_2_2_self !! i = Some c
           /\ selfconns net_2_2_unself = delete i (selfconns net_2_2_self)).
Proof.
  apply (mutate_SUB_SELF_CONN_deletes (const_draws (1 # 2)) net_2_2_self net_2_2_unself).
  - refine (bool_decide_unpack _ _); vm_compute; exact I.
  - vm_compute. reflexivity.
Defined.
